(** * vggt_to_colmap: aggregation of dense predictions into a COLMAP model

    A shallow embedding of [vggt_to_colmap.py]: the pose converter, the
    classifier heuristics, the point aggregator and the text and binary
    writers, followed by the properties of the design document.

    Numbers.  Python integers are [Z] (or [nat] where the code only
    counts).  A floating-point value is a [float]: a finite number, given
    by its exact rational value, or one of the three non-finite values of
    IEEE 754.  The arithmetic the converter does on such values (the
    scaling of the confidence threshold, the product in [hash_point], the
    scale factors of the colour lookup) is binary64 arithmetic: the exact
    result rounded to the nearest binary64 value, ties to even, with
    overflow to an infinity (module [Fl]).  The arrays of [predictions]
    hold float64 items.  The sign of a zero is not represented: no
    comparison, product or conversion of the converter tells the two
    zeros apart. *)

From Stdlib Require Import ZArith QArith Qround Qpower Lqa String Ascii List Lia.
From Stdlib Require Import Decimal DecimalString DecimalZ DecimalPos.
From Stdlib Require Import Floats.PrimFloat Floats.SpecFloat Floats.FloatOps.
From Stdlib.Strings Require Import Byte.
From stdpp Require Import base option list gmap sorting.

Local Open Scope Z_scope.

(** ** Floating-point values *)

(** A floating-point value: a finite number or one of the non-finite
    values of IEEE 754. *)
Inductive float : Type :=
  | Fin (q : Q)
  | PInf
  | NInf
  | NaN.

(** Binary64 arithmetic on these values. *)
Module Fl.

(** The format: 53 significant bits, the smallest positive value
    [2^emin], every finite value below [2^emax]. *)
Definition prec : Z := 53.
Definition emin : Z := -1074.
Definition emax : Z := 1024.

(** Rounding to the nearest integer, ties to the even one. *)
Definition rint (q : Q) : Z :=
  let f := Qfloor q in
  match Qcompare (q - inject_Z f)%Q (1 # 2)%Q with
  | Lt => f
  | Gt => f + 1
  | Eq => if Z.even f then f else f + 1
  end.

(** [floor (log2 q)] for a positive [q]. *)
Definition ilog2 (q : Q) : Z :=
  let e := Z.log2 (Qnum q) - Z.log2 (Z.pos (Qden q)) in
  if Qle_bool (2 ^ e) q then e else e - 1.

(** The exponent of the unit in the last place of the binary64 values
    around a positive [q], and [q] rounded to the nearest multiple of
    that power of two. *)
Definition ulp_exp (q : Q) : Z := Z.max (ilog2 q - (prec - 1)) emin.

Definition nearest (q : Q) : Q :=
  (inject_Z (rint (q / 2 ^ ulp_exp q)) * 2 ^ ulp_exp q)%Q.

(** The binary64 value of a positive real number. *)
Definition round_pos (q : Q) : float :=
  let r := nearest q in
  if Qle_bool (2 ^ emax) r then PInf else Fin (Qred r).

Definition opp (v : float) : float :=
  match v with
  | Fin q => Fin (- q)
  | PInf => NInf
  | NInf => PInf
  | NaN => NaN
  end.

(** The binary64 value of a real number. *)
Definition round (q : Q) : float :=
  match Qcompare q 0 with
  | Eq => Fin 0
  | Gt => round_pos q
  | Lt => opp (round_pos (- q))
  end.

Definition isnan (v : float) : bool :=
  match v with NaN => true | _ => false end.

(** [a < b] and [a <= b]: false as soon as one side is not a number. *)
Definition ltb (a b : float) : bool :=
  match a, b with
  | NaN, _ | _, NaN => false
  | _, NInf | PInf, _ => false
  | NInf, _ | _, PInf => true
  | Fin x, Fin y => negb (Qle_bool y x)
  end.

Definition leb (a b : float) : bool :=
  match a, b with
  | NaN, _ | _, NaN => false
  | NInf, _ | _, PInf => true
  | _, NInf | PInf, _ => false
  | Fin x, Fin y => Qle_bool x y
  end.

Definition sign (v : float) : comparison :=
  match v with
  | Fin q => Qcompare q 0
  | PInf => Gt
  | NInf => Lt
  | NaN => Eq
  end.

Definition signed_inf (s : comparison) : float :=
  match s with Gt => PInf | Lt => NInf | Eq => NaN end.

Definition sign_mul (a b : comparison) : comparison :=
  match a, b with
  | Eq, _ | _, Eq => Eq
  | Gt, Gt | Lt, Lt => Gt
  | _, _ => Lt
  end.

(** [a * b]: an infinity times zero is not a number. *)
Definition mul (a b : float) : float :=
  match a, b with
  | NaN, _ | _, NaN => NaN
  | Fin x, Fin y => round (x * y)
  | _, _ => signed_inf (sign_mul (sign a) (sign b))
  end.

(** [a / b] for a divisor other than zero. *)
Definition div (a b : float) : float :=
  match a, b with
  | NaN, _ | _, NaN => NaN
  | Fin x, Fin y => round (x / y)
  | Fin _, _ => Fin 0
  | _, Fin _ => signed_inf (sign_mul (sign a) (sign b))
  | _, _ => NaN
  end.

(** The values of the format: the non-finite ones and the finite numbers
    that rounding leaves as they are. *)
Definition is_double (v : float) : bool :=
  match v with
  | Fin q => match round q with Fin r => Qeq_bool r q | _ => false end
  | _ => true
  end.

(** The value of a hardware float. *)
Definition of_prim (f : PrimFloat.float) : float :=
  match Prim2SF f with
  | S754_zero _ => Fin 0
  | S754_infinity false => PInf
  | S754_infinity true => NInf
  | S754_nan => NaN
  | S754_finite s m e =>
      Fin (Qred (inject_Z (if s then Z.neg m else Z.pos m) * 2 ^ e))
  end.

End Fl.

(** ** Python and numpy primitives *)

Module Py.

(** [range(0, stop, step)]: [None] is the [ValueError] of a zero step.
    The length is computed as CPython's [range] object does. *)
Definition range_len (stop step : Z) : Z :=
  if 0 <? step then (if 0 <? stop then (stop - 1) / step + 1 else 0)
  else (if stop <? 0 then (- stop - 1) / (- step) + 1 else 0).

Definition range (stop step : Z) : option (list Z) :=
  if step =? 0 then None
  else Some (map (fun i : nat => Z.of_nat i * step)
                 (seq 0 (Z.to_nat (range_len stop step)))).

(** [hash(n)] of an integer: reduction modulo the Mersenne prime
    2^61 - 1, keeping the sign, with -1 reserved for errors. *)
Definition hash_modulus : Z := 2 ^ 61 - 1.

Definition hash_int (n : Z) : Z :=
  let h := Z.sgn n * (Z.abs n mod hash_modulus) in
  if h =? -1 then -2 else h.

(** [hash(t)] of a tuple, from the hashes of its items (CPython 3.8 and
    later, 64-bit build): an xxHash-style accumulator over unsigned
    64-bit words. *)
Definition u64 (z : Z) : Z := z mod 2 ^ 64.
Definition s64 (z : Z) : Z :=
  let u := u64 z in if u <? 2 ^ 63 then u else u - 2 ^ 64.

Definition XXPRIME_1 : Z := 11400714785074694791.
Definition XXPRIME_2 : Z := 14029467366897019727.
Definition XXPRIME_5 : Z := 2870177450012600261.
Definition XXROTATE (x : Z) : Z :=
  u64 (Z.lor (Z.shiftl x 31) (Z.shiftr x 33)).

Definition hash_lane (acc lane : Z) : Z :=
  let acc := u64 (acc + u64 lane * XXPRIME_2) in
  let acc := XXROTATE acc in
  u64 (acc * XXPRIME_1).

Definition hash_tuple (item_hashes : list Z) : Z :=
  let acc := fold_left hash_lane item_hashes XXPRIME_5 in
  let acc := u64 (acc + Z.lxor (Z.of_nat (length item_hashes))
                                (Z.lxor XXPRIME_5 3527539)) in
  if acc =? 2 ^ 64 - 1 then 1546275796 else s64 acc.

(** [int(q)]: truncation towards zero. *)
Definition int_of_Q (q : Q) : Z := Z.quot (Qnum q) (Z.pos (Qden q)).

(** [int(v)] of a float: an [OverflowError] on an infinity, a
    [ValueError] on a NaN. *)
Definition int_of_float (v : float) : option Z :=
  match v with
  | Fin q => Some (int_of_Q q)
  | _ => None
  end.

(** The float of an integer operand: the nearest binary64 value, an
    [OverflowError] beyond the range. *)
Definition float_of_int (n : Z) : option float :=
  match Fl.round (inject_Z n) with
  | Fin q => Some (Fin q)
  | _ => None
  end.

(** [a / b] on integers: true division, correctly rounded; a
    [ZeroDivisionError] when [b] is zero. *)
Definition truediv (a b : Z) : option float :=
  if b =? 0 then None
  else
    match Fl.round (inject_Z a / inject_Z b) with
    | Fin q => Some (Fin q)
    | _ => None
    end.

(** [a / b] on floats: a [ZeroDivisionError] when [b] is zero. *)
Definition fdiv (a b : float) : option float :=
  match b with
  | Fin q => if Qeq_bool q 0 then None else Some (Fl.div a b)
  | _ => Some (Fl.div a b)
  end.

(** [n * v] for an integer [n] and a float [v]. *)
Definition mul_int_float (n : Z) (v : float) : option float :=
  f ← float_of_int n; Some (Fl.mul f v).

End Py.

Module Np.

Definition Qltb (a b : Q) : bool :=
  Qnum a * Z.pos (Qden b) <? Qnum b * Z.pos (Qden a).

(** [v > c] for a float [v] and a finite constant [c]. *)
Definition gt (v : float) (c : Q) : bool :=
  match v with
  | Fin q => Qltb c q
  | PInf => true
  | NInf | NaN => false
  end.

Definition isfinite (v : float) : bool :=
  match v with Fin _ => true | _ => false end.

(** [np.round]: to the nearest integer, ties to the even one. *)
Definition round (q : Q) : Z := Fl.rint q.

(** [.astype(int)] on a rounded value: exact inside the int64 range.
    Outside of it, and on a non-finite value, numpy on x86-64 yields
    the smallest int64. *)
Definition int64_min : Z := - 2 ^ 63.

Definition astype_int (z : Z) : Z :=
  if (int64_min <=? z) && (z <? 2 ^ 63) then z else int64_min.

(** One coordinate of [np.round(point * scale).astype(int)]: the integer
    [scale] becomes a float and the product is a binary64 product. *)
Definition quantize (scale : Z) (v : float) : Z :=
  match Fl.mul v (Fl.round (inject_Z scale)) with
  | Fin q => astype_int (round q)
  | _ => int64_min
  end.

(** [np.uint8] values are bytes; [uint8 z] is [z] cast to that type. *)
Definition to_Z (b : byte) : Z := Z.of_N (Byte.to_N b).

Definition uint8 (z : Z) : byte :=
  match Byte.of_N (Z.to_N (z mod 256)) with
  | Some b => b
  | None => x00
  end.

(** [np.mean] of three channels, and the mean of their squared
    deviations (the square of [np.std]). *)
Definition mean3 (a b c : Z) : Q := (inject_Z (a + b + c) / 3)%Q.

Definition var3 (a b c : Z) : Q :=
  let m := mean3 a b c in
  let d (v : Z) := ((inject_Z v - m) * (inject_Z v - m))%Q in
  ((d a + d b + d c) / 3)%Q.

(** A three-dimensional array: its shape and its items.  Indexing
    outside the shape is an [IndexError]; a negative index counts
    from the end of its axis. *)
Record ndarray (A : Type) : Type := {
  shape : nat * nat * nat;
  item : nat -> nat -> nat -> A
}.
Arguments shape {A} _.
Arguments item {A} _ _ _ _.

Definition index (size : nat) (i : Z) : option nat :=
  let j := if i <? 0 then i + Z.of_nat size else i in
  if (0 <=? j) && (j <? Z.of_nat size) then Some (Z.to_nat j) else None.

Definition getitem {A} (a : ndarray A) (i : nat) (y x : Z) : option A :=
  let '(n, h, w) := shape a in
  i' ← index n (Z.of_nat i);
  y' ← index h y;
  x' ← index w x;
  Some (item a i' y' x').

(** All items in storage order, and [np.max] over them: a NaN among the
    items makes the maximum a NaN; the maximum of an empty array is a
    [ValueError]. *)
Definition items {A} (a : ndarray A) : list A :=
  let '(n, h, w) := shape a in
  i ← seq 0 n; y ← seq 0 h; x ← seq 0 w; [item a i y x].

Definition fmax (a b : float) : float :=
  if Fl.isnan a then a
  else if Fl.isnan b then b
  else if Fl.ltb a b then b else a.

Definition max (a : ndarray float) : option float :=
  match items a with
  | [] => None
  | c :: cs => Some (fold_left fmax cs c)
  end.

End Np.

(** ** Data model *)

Definition point : Type := float * float * float.
Definition color : Type := byte * byte * byte.

(** An original image: its height, width and pixels. *)
Record image : Type := {
  img_h : nat;
  img_w : nat;
  pixel : nat -> nat -> color
}.

(** A camera matrix, read by row and column. *)
Definition matrix (F : Type) : Type := nat -> nat -> F.

(** The entries of the [predictions] dictionary the converter reads.
    [depth] is the shape [(N, H, W)] of the depth array, whose values are
    not read here. *)
Record Predictions : Type := {
  depth : nat * nat * nat;
  depth_conf : Np.ndarray float;
  world_points_from_depth : Np.ndarray point;
  original_images : list image;
  intrinsic : list (matrix float);
  extrinsic : list (matrix float)
}.

(** A 3D point under construction; [F] is the type of its real-valued
    fields. *)
Record point_entry (F : Type) : Type := {
  pt_id : nat;
  pt_xyz : F * F * F;
  pt_rgb : color;
  pt_error : F;
  pt_track : list (nat * nat)
}.
Arguments pt_id {F} _.
Arguments pt_xyz {F} _.
Arguments pt_rgb {F} _.
Arguments pt_error {F} _.
Arguments pt_track {F} _.

(** A 2D keypoint [(x, y, point index)]. *)
Abbreviation keypoint := (Z * Z * nat)%type (only parsing).

(** ** Classifier heuristics

    The colour channels are bytes: on them the comparisons below have
    the same outcome in exact and in binary64 arithmetic. *)

Definition is_sky_point (p : point) (rgb : color) : bool :=
  let '(_, py, _) := p in
  let '(r, g, b) := rgb in
  Np.gt py 1
  && Np.Qltb ((12 # 10) * inject_Z (Np.to_Z r))%Q (inject_Z (Np.to_Z b))
  && Np.Qltb ((12 # 10) * inject_Z (Np.to_Z g))%Q (inject_Z (Np.to_Z b)).

Definition is_black_bg_point (rgb : color) (threshold : Q) : bool :=
  let '(r, g, b) := rgb in
  Np.Qltb (Np.mean3 (Np.to_Z r) (Np.to_Z g) (Np.to_Z b)) threshold.

(** [np.std(rgb) < 15] is decided on the squares, both sides being
    non-negative. *)
Definition is_white_bg_point (rgb : color) (threshold : Q) : bool :=
  let '(r, g, b) := rgb in
  Np.Qltb threshold (Np.mean3 (Np.to_Z r) (Np.to_Z g) (Np.to_Z b))
  && Np.Qltb (Np.var3 (Np.to_Z r) (Np.to_Z g) (Np.to_Z b)) (15 * 15).

(** ** Point aggregator *)

Definition quantized (p : point) (scale : Z) : list Z :=
  let '(px, py, pz) := p in
  [Np.quantize scale px; Np.quantize scale py; Np.quantize scale pz].

Definition hash_point (p : point) (scale : Z) : Z :=
  Py.hash_tuple (map Py.hash_int (quantized p scale)).

(** Monadic left fold: a [for] loop whose body may raise. *)
Fixpoint foldlM {A S : Type} (f : S -> A -> option S) (l : list A) (s : S)
  : option S :=
  match l with
  | [] => Some s
  | a :: l' => s' ← f s a; foldlM f l' s'
  end.

(** The containers of [filter_and_prepare_points]. *)
Record agg_state : Type := {
  points3D : list (point_entry float);
  point_indices : gmap Z nat;
  image_points2D : list (list keypoint)
}.

(** The filter flags. *)
Record mask_flags : Type := {
  mask_sky : bool;
  mask_black_bg : bool;
  mask_white_bg : bool
}.

(** The grid coordinates [(y, x)] of the two nested [range] loops, in the
    order they are visited. *)
Definition sample_positions (h w : nat) (stride : Z) : option (list (Z * Z)) :=
  ys ← Py.range (Z.of_nat h) stride;
  xs ← Py.range (Z.of_nat w) stride;
  Some (y ← ys; x ← xs; [(y, x)]).

(** [min(int(i * scale), size - 1)]: a grid coordinate mapped to the
    original image by a scale factor, truncated and clamped. *)
Definition orig_coord (i : Z) (scale : float) (size : nat) : option Z :=
  scaled ← Py.mul_int_float i scale;
  j ← Py.int_of_float scaled;
  Some (Z.min j (Z.of_nat size - 1)).

(** The colour of a grid sample. *)
Definition sample_rgb (orig_img : image) (scale_y scale_x : float) (y x : Z)
  : option color :=
  orig_y ← orig_coord y scale_y (img_h orig_img);
  orig_x ← orig_coord x scale_x (img_w orig_img);
  oy ← Np.index (img_h orig_img) orig_y;
  ox ← Np.index (img_w orig_img) orig_x;
  Some (pixel orig_img oy ox).

(** The tests applied to a sample that passed the confidence test:
    finiteness, then the enabled heuristics.  [Some None] when the sample
    is skipped, [Some (Some (point3D, rgb))] when it is accepted, [None]
    when an exception is raised. *)
Definition sample_tests (predictions : Predictions) (flags : mask_flags)
    (orig_img : image) (scale_y scale_x : float) (img_idx : nat) (y x : Z)
  : option (option (point * color)) :=
  point3D ← Np.getitem (world_points_from_depth predictions) img_idx y x;
  let '(px, py, pz) := point3D in
  if negb (Np.isfinite px && Np.isfinite py && Np.isfinite pz) then Some None
  else
    rgb ← sample_rgb orig_img scale_y scale_x y x;
    if mask_sky flags && is_sky_point point3D rgb then Some None
    else if mask_black_bg flags && is_black_bg_point rgb 30 then Some None
    else if mask_white_bg flags && is_white_bg_point rgb 230 then Some None
    else Some (Some (point3D, rgb)).

(** The confidence test, then the other tests. *)
Definition sample_filter (predictions : Predictions) (conf_threshold : float)
    (flags : mask_flags) (orig_img : image) (scale_y scale_x : float)
    (img_idx : nat) (y x : Z) : option (option (point * color)) :=
  conf ← Np.getitem (depth_conf predictions) img_idx y x;
  if Fl.ltb conf_threshold conf then
    sample_tests predictions flags orig_img scale_y scale_x img_idx y x
  else Some None.

(** Registration of an accepted sample: a new point, or one more track
    entry of an existing point, then the keypoint of the image. *)
Definition record_sample (st : agg_state) (img_idx : nat) (y x : Z)
    (point3D : point) (rgb : color) : option agg_state :=
  let point_hash := hash_point point3D 100 in
  kps ← image_points2D st !! img_idx;
  '(pts, idxs, point_idx) ←
    match point_indices st !! point_hash with
    | None =>
        let point_idx := length (points3D st) in
        let point_entry :=
          {| pt_id := point_idx; pt_xyz := point3D; pt_rgb := rgb;
             pt_error := Fin 1; pt_track := [(img_idx, length kps)] |} in
        Some (points3D st ++ [point_entry],
              <[point_hash := point_idx]> (point_indices st), point_idx)
    | Some point_idx =>
        e ← points3D st !! point_idx;
        let e' :=
          {| pt_id := pt_id e; pt_xyz := pt_xyz e; pt_rgb := pt_rgb e;
             pt_error := pt_error e;
             pt_track := pt_track e ++ [(img_idx, length kps)] |} in
        Some (<[point_idx := e']> (points3D st), point_indices st, point_idx)
    end;
  Some {| points3D := pts; point_indices := idxs;
          image_points2D :=
            <[img_idx := kps ++ [(x, y, point_idx)]]> (image_points2D st) |}.

Definition process_sample (predictions : Predictions) (conf_threshold : float)
    (flags : mask_flags) (orig_img : image) (scale_y scale_x : float)
    (img_idx : nat) (st : agg_state) (yx : Z * Z) : option agg_state :=
  verdict ← sample_filter predictions conf_threshold flags orig_img
              scale_y scale_x img_idx yx.1 yx.2;
  match verdict with
  | None => Some st
  | Some (point3D, rgb) => record_sample st img_idx yx.1 yx.2 point3D rgb
  end.

(** The body of the loop over the images. *)
Definition process_image (predictions : Predictions) (conf_threshold : float)
    (flags : mask_flags) (stride : Z) (st : agg_state) (img_idx : nat)
  : option agg_state :=
  let '(_, h, w) := Np.shape (world_points_from_depth predictions) in
  orig_img ← original_images predictions !! img_idx;
  scale_y ← Py.truediv (Z.of_nat (img_h orig_img)) (Z.of_nat h);
  scale_x ← Py.truediv (Z.of_nat (img_w orig_img)) (Z.of_nat w);
  positions ← sample_positions h w stride;
  foldlM (process_sample predictions conf_threshold flags orig_img
            scale_y scale_x img_idx) positions st.

(** [conf_threshold / 100.0 * max_conf]. *)
Definition conf_cutoff (predictions : Predictions) (conf_threshold : float)
  : option float :=
  max_conf ← Np.max (depth_conf predictions);
  fraction ← Py.fdiv conf_threshold (Fin 100);
  Some (Fl.mul fraction max_conf).

(** The loops of [filter_and_prepare_points], for an absolute cutoff. *)
Definition aggregate (predictions : Predictions) (conf_threshold : float)
    (flags : mask_flags) (stride : Z)
  : option (list (point_entry float) * list (list keypoint)) :=
  let st0 :=
    {| points3D := []; point_indices := ∅;
       image_points2D := replicate (depth predictions).1.1 [] |} in
  st ← foldlM (process_image predictions conf_threshold flags stride)
         (seq 0 (Np.shape (world_points_from_depth predictions)).1.1) st0;
  Some (points3D st, image_points2D st).

Definition filter_and_prepare_points (predictions : Predictions)
    (conf_threshold : float) (flags : mask_flags) (stride : Z)
  : option (list (point_entry float) * list (list keypoint)) :=
  conf_threshold ← conf_cutoff predictions conf_threshold;
  aggregate predictions conf_threshold flags stride.

(** *** The accepted samples of a run

    The samples that pass every test, in processing order, computed
    without the containers: the aggregation is the registration of
    these samples one after the other (lemma [aggregate_samples]). *)
Abbreviation sample := (nat * Z * Z * point * color)%type (only parsing).

Definition smp_img (s : sample) : nat := s.1.1.1.1.
Definition smp_y (s : sample) : Z := s.1.1.1.2.
Definition smp_x (s : sample) : Z := s.1.1.2.
Definition smp_point (s : sample) : point := s.1.2.
Definition smp_rgb (s : sample) : color := s.2.

Definition sample_at (predictions : Predictions) (conf_threshold : float)
    (flags : mask_flags) (orig_img : image) (scale_y scale_x : float)
    (img_idx : nat) (yx : Z * Z) : option (option sample) :=
  verdict ← sample_filter predictions conf_threshold flags orig_img
              scale_y scale_x img_idx yx.1 yx.2;
  Some (match verdict : option (point * color) with
        | Some pc => Some (img_idx, yx.1, yx.2, pc.1, pc.2)
        | None => None
        end).

Definition image_samples (predictions : Predictions) (conf_threshold : float)
    (flags : mask_flags) (stride : Z) (img_idx : nat) : option (list sample) :=
  let '(_, h, w) := Np.shape (world_points_from_depth predictions) in
  orig_img ← original_images predictions !! img_idx;
  scale_y ← Py.truediv (Z.of_nat (img_h orig_img)) (Z.of_nat h);
  scale_x ← Py.truediv (Z.of_nat (img_w orig_img)) (Z.of_nat w);
  positions ← sample_positions h w stride;
  verdicts ← mapM (sample_at predictions conf_threshold flags orig_img
                     scale_y scale_x img_idx) positions;
  Some (omap (fun v => v) verdicts).

Definition accepted_samples (predictions : Predictions) (conf_threshold : float)
    (flags : mask_flags) (stride : Z) : option (list sample) :=
  per_image ← mapM (image_samples predictions conf_threshold flags stride)
    (seq 0 (Np.shape (world_points_from_depth predictions)).1.1);
  Some (concat per_image).

Definition register (st : agg_state) (s : sample) : option agg_state :=
  record_sample st (smp_img s) (smp_y s) (smp_x s) (smp_point s) (smp_rgb s).
(** ** Pose converter *)

(** [Rotation.from_matrix(R).as_quat()] of scipy: the quaternion of a
    rotation matrix in scipy's order [(x, y, z, w)]. *)
Class Rotation (F : Type) : Type := {
  as_quat : list (list F) -> F * F * F * F
}.

(** [E[:3, :3]] and [E[:3, 3]]. *)
Definition rotation_part {F : Type} (E : matrix F) : list (list F) :=
  [[E 0 0; E 0 1; E 0 2]; [E 1 0; E 1 1; E 1 2]; [E 2 0; E 2 1; E 2 2]]%nat.

Definition translation_part {F : Type} (E : matrix F) : F * F * F :=
  (E 0 3, E 1 3, E 2 3)%nat.

Definition extrinsic_to_colmap_format {F : Type} `{Rotation F}
    (extrinsics : list (matrix F))
  : list (F * F * F * F) * list (F * F * F) :=
  fold_left
    (fun (acc : list (F * F * F * F) * list (F * F * F)) (E : matrix F) =>
       let R := rotation_part E in
       let t := translation_part E in
       let '(q0, q1, q2, q3) := as_quat R in
       let quat := (q3, q0, q1, q2) in
       (acc.1 ++ [quat], acc.2 ++ [t]))
    extrinsics ([], []).

(** ** Format writers

    A formatted line [f"{a} {b} {c}\n"] is written
    [String.concat " " [a; b; c] ++ Fmt.nl]: its fields joined by single
    spaces, then the newline. *)

(** The formatting and packing of floating-point values, done by Python
    and [struct]; [parse_float] and [unpack_double] are the inverse
    conversions of a reader. *)
Class FloatFormat (F : Type) : Type := {
  str_float : F -> string;
  parse_float : string -> option F;
  pack_double : F -> list byte;
  unpack_double : list byte -> F;
  float_of_int : Z -> F;
  format_f : nat -> Q -> string
}.

Module Fmt.

Definition nl : string := String "010"%char EmptyString.

(** [str(n)] and [int(s)] for integers. *)
Definition str_int (z : Z) : string := NilZero.string_of_int (Z.to_int z).

Definition parse_int (s : string) : option Z :=
  option_map Z.of_int (NilZero.int_of_string s).

(** [s.split(sep)]. *)
Fixpoint split (sep : ascii) (s : string) : list string :=
  match s with
  | EmptyString => [EmptyString]
  | String c s' =>
      if Ascii.eqb c sep then EmptyString :: split sep s'
      else match split sep s' with
           | t :: ts => String c t :: ts
           | [] => [String c EmptyString]
           end
  end.

(** [os.path.basename]. *)
Definition basename (p : string) : string :=
  List.last (split "/"%char p) EmptyString.

(** [struct.pack] of an unsigned integer on [n] bytes, little-endian;
    [None] is the [struct.error] of a value out of range. *)
Fixpoint le_bytes (n : nat) (v : Z) : list byte :=
  match n with
  | O => []
  | S n' => Np.uint8 v :: le_bytes n' (v / 256)
  end.

Definition pack_uint (n : nat) (v : Z) : option (list byte) :=
  if (0 <=? v) && (v <? 2 ^ (8 * Z.of_nat n)) then Some (le_bytes n v)
  else None.

End Fmt.

Section Writers.

Context {F : Type} `{FloatFormat F}.

Definition camera_line (i : nat) (K : matrix F) (image_width image_height : nat)
  : string :=
  let camera_id := Z.of_nat i + 1 in
  let model := "PINHOLE"%string in
  let fx := K 0%nat 0%nat in
  let fy := K 1%nat 1%nat in
  let cx := K 0%nat 2%nat in
  let cy := K 1%nat 2%nat in
  (String.concat " "
     [Fmt.str_int camera_id; model; Fmt.str_int (Z.of_nat image_width);
      Fmt.str_int (Z.of_nat image_height);
      str_float fx; str_float fy; str_float cx; str_float cy]
   ++ Fmt.nl)%string.

(** The lines written by the loop over [enumerate(...)], from index
    [i] on. *)
Fixpoint camera_lines (i : nat) (intrinsics : list (matrix F))
    (image_width image_height : nat) : string :=
  match intrinsics with
  | [] => EmptyString
  | K :: rest =>
      (camera_line i K image_width image_height
       ++ camera_lines (S i) rest image_width image_height)%string
  end.

Definition write_colmap_cameras_txt (intrinsics : list (matrix F))
    (image_width image_height : nat) : string :=
  ("# Camera list with one line of data per camera:" ++ Fmt.nl
   ++ "#   CAMERA_ID, MODEL, WIDTH, HEIGHT, PARAMS[]" ++ Fmt.nl
   ++ "# Number of cameras: "
   ++ Fmt.str_int (Z.of_nat (length intrinsics)) ++ Fmt.nl
   ++ camera_lines 0 intrinsics image_width image_height)%string.

Definition keypoint_txt (kp : keypoint) : string :=
  let '(x, y, point3d_id) := kp in
  String.concat " "
    [Fmt.str_int x; Fmt.str_int y; Fmt.str_int (Z.of_nat point3d_id + 1)].

(** The two lines of image [i]; [None] is an [IndexError]. *)
Definition image_lines (quaternions : list (F * F * F * F))
    (translations : list (F * F * F))
    (image_points2D : list (list keypoint)) (image_names : list string)
    (i : nat) : option string :=
  let image_id := Z.of_nat i + 1 in
  let camera_id := Z.of_nat i + 1 in
  '(qw, qx, qy, qz) ← quaternions !! i;
  '(tx, ty, tz) ← translations !! i;
  name ← image_names !! i;
  points ← image_points2D !! i;
  let points_line := String.concat " " (map keypoint_txt points) in
  Some (String.concat " "
          [Fmt.str_int image_id;
           str_float qw; str_float qx; str_float qy; str_float qz;
           str_float tx; str_float ty; str_float tz;
           Fmt.str_int camera_id; Fmt.basename name]
        ++ Fmt.nl ++ points_line ++ Fmt.nl)%string.

Definition sum_lengths {A : Type} (ls : list (list A)) : nat :=
  fold_right (fun l n => (length l + n)%nat) 0%nat ls.

Definition write_colmap_images_txt (quaternions : list (F * F * F * F))
    (translations : list (F * F * F))
    (image_points2D : list (list keypoint)) (image_names : list string)
  : option string :=
  let num_points := sum_lengths image_points2D in
  let avg_points :=
    match image_points2D with
    | [] => 0%Q
    | _ => (inject_Z (Z.of_nat num_points)
            / inject_Z (Z.of_nat (length image_points2D)))%Q
    end in
  lines ← mapM (image_lines quaternions translations image_points2D
                  image_names) (seq 0 (length quaternions));
  Some ("# Image list with two lines of data per image:" ++ Fmt.nl
        ++ "#   IMAGE_ID, QW, QX, QY, QZ, TX, TY, TZ, CAMERA_ID, NAME"
        ++ Fmt.nl
        ++ "#   POINTS2D[] as (X, Y, POINT3D_ID)" ++ Fmt.nl
        ++ "# Number of images: "
        ++ Fmt.str_int (Z.of_nat (length quaternions))
        ++ ", mean observations per image: " ++ format_f 1 avg_points
        ++ Fmt.nl
        ++ String.concat "" lines)%string.

Definition track_txt (t : nat * nat) : string :=
  let '(img_id, point2d_idx) := t in
  String.concat " "
    [Fmt.str_int (Z.of_nat img_id + 1); Fmt.str_int (Z.of_nat point2d_idx)].

Definition point_line (pt : point_entry F) : string :=
  let point_id := Z.of_nat (pt_id pt) + 1 in
  let '(x, y, z) := pt_xyz pt in
  let '(r, g, b) := pt_rgb pt in
  let error := pt_error pt in
  let track := String.concat " " (map track_txt (pt_track pt)) in
  (String.concat " "
     [Fmt.str_int point_id; str_float x; str_float y; str_float z;
      Fmt.str_int (Np.to_Z r); Fmt.str_int (Np.to_Z g);
      Fmt.str_int (Np.to_Z b); str_float error; track]
   ++ Fmt.nl)%string.

Definition write_colmap_points3D_txt (points3D : list (point_entry F))
  : string :=
  let avg_track_length :=
    match points3D with
    | [] => 0%Q
    | _ => (inject_Z (Z.of_nat (sum_lengths (map pt_track points3D)))
            / inject_Z (Z.of_nat (length points3D)))%Q
    end in
  ("# 3D point list with one line of data per point:" ++ Fmt.nl
   ++ "#   POINT3D_ID, X, Y, Z, R, G, B, ERROR, "
   ++ "TRACK[] as (IMAGE_ID, POINT2D_IDX)" ++ Fmt.nl
   ++ "# Number of points: " ++ Fmt.str_int (Z.of_nat (length points3D))
   ++ ", mean track length: " ++ format_f 4 avg_track_length ++ Fmt.nl
   ++ String.concat "" (map point_line points3D))%string.

(** *** Binary writers; [None] is a [struct.error] or an [IndexError]. *)

Definition camera_record (i : nat) (K : matrix F)
    (image_width image_height : nat) : option (list byte) :=
  let camera_id := Z.of_nat i + 1 in
  let model_id := 1 in
  let fx := K 0%nat 0%nat in
  let fy := K 1%nat 1%nat in
  let cx := K 0%nat 2%nat in
  let cy := K 1%nat 2%nat in
  b_id ← Fmt.pack_uint 4 camera_id;
  b_model ← Fmt.pack_uint 4 model_id;
  b_width ← Fmt.pack_uint 8 (Z.of_nat image_width);
  b_height ← Fmt.pack_uint 8 (Z.of_nat image_height);
  Some (b_id ++ b_model ++ b_width ++ b_height
        ++ pack_double fx ++ pack_double fy
        ++ pack_double cx ++ pack_double cy).

Fixpoint camera_records (i : nat) (intrinsics : list (matrix F))
    (image_width image_height : nat) : option (list byte) :=
  match intrinsics with
  | [] => Some []
  | K :: rest =>
      b ← camera_record i K image_width image_height;
      bs ← camera_records (S i) rest image_width image_height;
      Some (b ++ bs)
  end.

Definition write_colmap_cameras_bin (intrinsics : list (matrix F))
    (image_width image_height : nat) : option (list byte) :=
  b_count ← Fmt.pack_uint 8 (Z.of_nat (length intrinsics));
  bs ← camera_records 0 intrinsics image_width image_height;
  Some (b_count ++ bs).

Definition keypoint_bin (kp : keypoint) : option (list byte) :=
  let '(x, y, point3d_id) := kp in
  b_id ← Fmt.pack_uint 8 (Z.of_nat point3d_id + 1);
  Some (pack_double (float_of_int x) ++ pack_double (float_of_int y)
        ++ b_id).

Definition image_record (quaternions : list (F * F * F * F))
    (translations : list (F * F * F))
    (image_points2D : list (list keypoint)) (image_names : list string)
    (i : nat) : option (list byte) :=
  let image_id := Z.of_nat i + 1 in
  let camera_id := Z.of_nat i + 1 in
  '(qw, qx, qy, qz) ← quaternions !! i;
  '(tx, ty, tz) ← translations !! i;
  name ← image_names !! i;
  let image_name := list_byte_of_string (Fmt.basename name) in
  points ← image_points2D !! i;
  b_id ← Fmt.pack_uint 4 image_id;
  b_camera ← Fmt.pack_uint 4 camera_id;
  b_len ← Fmt.pack_uint 4 (Z.of_nat (length image_name));
  b_count ← Fmt.pack_uint 8 (Z.of_nat (length points));
  b_points ← mapM keypoint_bin points;
  Some (b_id
        ++ pack_double qw ++ pack_double qx ++ pack_double qy
        ++ pack_double qz
        ++ pack_double tx ++ pack_double ty ++ pack_double tz
        ++ b_camera ++ b_len ++ image_name ++ b_count
        ++ List.concat b_points).

Definition write_colmap_images_bin (quaternions : list (F * F * F * F))
    (translations : list (F * F * F))
    (image_points2D : list (list keypoint)) (image_names : list string)
  : option (list byte) :=
  b_count ← Fmt.pack_uint 8 (Z.of_nat (length quaternions));
  records ← mapM (image_record quaternions translations image_points2D
                    image_names) (seq 0 (length quaternions));
  Some (b_count ++ List.concat records).

Definition track_bin (t : nat * nat) : option (list byte) :=
  let '(img_id, point2d_idx) := t in
  b_img ← Fmt.pack_uint 4 (Z.of_nat img_id + 1);
  b_idx ← Fmt.pack_uint 4 (Z.of_nat point2d_idx);
  Some (b_img ++ b_idx).

Definition point_record (pt : point_entry F) : option (list byte) :=
  let point_id := Z.of_nat (pt_id pt) + 1 in
  let '(x, y, z) := pt_xyz pt in
  let '(r, g, b) := pt_rgb pt in
  let error := pt_error pt in
  let track := pt_track pt in
  b_id ← Fmt.pack_uint 8 point_id;
  b_r ← Fmt.pack_uint 1 (Np.to_Z r);
  b_g ← Fmt.pack_uint 1 (Np.to_Z g);
  b_b ← Fmt.pack_uint 1 (Np.to_Z b);
  b_len ← Fmt.pack_uint 8 (Z.of_nat (length track));
  b_track ← mapM track_bin track;
  Some (b_id ++ pack_double x ++ pack_double y ++ pack_double z
        ++ b_r ++ b_g ++ b_b ++ pack_double error ++ b_len
        ++ List.concat b_track).

Definition write_colmap_points3D_bin (points3D : list (point_entry F))
  : option (list byte) :=
  b_count ← Fmt.pack_uint 8 (Z.of_nat (length points3D));
  records ← mapM point_record points3D;
  Some (b_count ++ List.concat records).

End Writers.

(** ** Orchestrator *)

(** The three files of a run, in text or in binary form. *)
Inductive colmap_files : Type :=
  | TextFiles (cameras images points3D : string)
  | BinaryFiles (cameras images points3D : list byte).

(** The command-line arguments read after the images are processed. *)
Record Args : Type := {
  arg_conf_threshold : float;
  arg_masks : mask_flags;
  arg_binary : bool;
  arg_stride : Z
}.

(** The part of [main] that follows [process_images]: [None] when an
    exception is raised. *)
Definition main `{Rotation float} `{FloatFormat float} (args : Args)
    (predictions : Predictions) (image_names : list string)
  : option colmap_files :=
  let '(quaternions, translations) :=
    extrinsic_to_colmap_format (extrinsic predictions) in
  '(points3D, image_points2D) ←
    filter_and_prepare_points predictions (arg_conf_threshold args)
      (arg_masks args) (arg_stride args);
  let '(_, height, width) := depth predictions in
  if arg_binary args then
    cameras ← write_colmap_cameras_bin (intrinsic predictions) width height;
    images ← write_colmap_images_bin quaternions translations image_points2D
                image_names;
    points ← write_colmap_points3D_bin points3D;
    Some (BinaryFiles cameras images points)
  else
    let cameras :=
      write_colmap_cameras_txt (intrinsic predictions) width height in
    images ← write_colmap_images_txt quaternions translations image_points2D
                image_names;
    let points := write_colmap_points3D_txt points3D in
    Some (TextFiles cameras images points).

(** ** Image selection

    The first lines of [process_images]: the paths returned by [glob] are
    kept when their lower-cased form ends with an image extension, and
    sorted; an empty selection is a [ValueError].  A path is a string of
    8-bit characters, ordered by character code as Python orders [str]. *)

Module Path.

(** [c.lower()] on the ASCII capitals. *)
Definition lower_char (c : ascii) : ascii :=
  let n := nat_of_ascii c in
  if ((65 <=? n) && (n <=? 90))%nat then ascii_of_nat (n + 32) else c.

Fixpoint lower (s : string) : string :=
  match s with
  | EmptyString => EmptyString
  | String c s' => String (lower_char c) (lower s')
  end.

(** [s.endswith(suffix)]. *)
Fixpoint endswith (s suffix : string) : bool :=
  String.eqb s suffix
  || match s with
     | EmptyString => false
     | String _ s' => endswith s' suffix
     end.

(** The order of [sorted] on strings. *)
Definition le (a b : string) : Prop := String.leb a b = true.

#[global] Instance le_dec : RelDecision le :=
  fun a b => decide (String.leb a b = true).

(** [sorted(l)]: the ascending list; the order being total and
    antisymmetric, the result does not depend on the sorting algorithm. *)
Definition sorted (l : list string) : list string := merge_sort le l.

End Path.

Definition image_extensions : list string :=
  [".png"; ".jpg"; ".jpeg"]%string.

Definition is_image_name (f : string) : bool :=
  existsb (Path.endswith (Path.lower f)) image_extensions.

Definition select_images (globbed : list string) : option (list string) :=
  let image_names := Path.sorted (List.filter is_image_name globbed) in
  if (length image_names =? 0)%nat then None else Some image_names.

(** * Specification-level definitions *)

(** ** The persisted data model and its readers

    The repository only writes the two formats.  The records below are
    the Camera, ImagePose and Point3D of the design document with their
    persisted (1-based) ids, and the readers decode the text and binary
    layouts of its section on external interfaces. *)

Record Camera (F : Type) : Type := {
  camera_id : Z;
  model_id : Z;
  cam_width : Z;
  cam_height : Z;
  cam_params : F * F * F * F
}.
Arguments camera_id {F} _.
Arguments model_id {F} _.
Arguments cam_width {F} _.
Arguments cam_height {F} _.
Arguments cam_params {F} _.

Record ImagePose (F : Type) : Type := {
  image_id : Z;
  qvec : F * F * F * F;
  tvec : F * F * F;
  pose_camera_id : Z;
  image_name : string;
  points2D : list (F * F * Z)
}.
Arguments image_id {F} _.
Arguments qvec {F} _.
Arguments tvec {F} _.
Arguments pose_camera_id {F} _.
Arguments image_name {F} _.
Arguments points2D {F} _.

Record Point3D (F : Type) : Type := {
  point3D_id : Z;
  p3d_xyz : F * F * F;
  p3d_rgb : Z * Z * Z;
  p3d_error : F;
  p3d_track : list (Z * Z)
}.
Arguments point3D_id {F} _.
Arguments p3d_xyz {F} _.
Arguments p3d_rgb {F} _.
Arguments p3d_error {F} _.
Arguments p3d_track {F} _.

Module Txt.

Fixpoint mem_char (c : ascii) (s : string) : bool :=
  match s with
  | EmptyString => false
  | String a s' => Ascii.eqb c a || mem_char c s'
  end.

(** The lines of a text, each ended by a newline. *)
Fixpoint lines (s : string) : list string :=
  match s with
  | EmptyString => []
  | String c s' =>
      if Ascii.eqb c "010"%char then EmptyString :: lines s'
      else match lines s' with
           | l :: ls => String c l :: ls
           | [] => [String c EmptyString]
           end
  end.

Definition is_comment (l : string) : bool :=
  match l with
  | String c _ => Ascii.eqb c "#"%char
  | EmptyString => false
  end.

Definition data_lines (s : string) : list string :=
  List.filter (fun l => negb (is_comment l)) (lines s).

Definition is_empty (t : string) : bool :=
  match t with EmptyString => true | _ => false end.

(** The fields of a line: separated by spaces, none empty. *)
Definition tokens (l : string) : list string :=
  List.filter (fun t => negb (is_empty t)) (Fmt.split " "%char l).

End Txt.

Module Bin.

(** The value of little-endian bytes. *)
Fixpoint le_value (bs : list byte) : Z :=
  match bs with
  | [] => 0
  | b :: bs' => Np.to_Z b + 256 * le_value bs'
  end.

(** A reader of a byte sequence: the value read and the bytes left. *)
Definition parser (A : Type) : Type := list byte -> option (A * list byte).

Definition get_bytes (n : nat) : parser (list byte) :=
  fun bs =>
    if (length bs <? n)%nat then None else Some (take n bs, drop n bs).

Definition get_uint (n : nat) : parser Z :=
  fun bs => r ← get_bytes n bs; Some (le_value r.1, r.2).

Fixpoint get_many {A : Type} (p : parser A) (n : nat) : parser (list A) :=
  fun bs =>
    match n with
    | O => Some ([], bs)
    | S n' =>
        r ← p bs;
        rs ← get_many p n' r.2;
        Some (r.1 :: rs.1, rs.2)
    end.

(** A whole file: nothing is left after the records. *)
Definition whole {A : Type} (p : parser A) (bs : list byte) : option A :=
  r ← p bs;
  match r.2 with
  | [] => Some r.1
  | _ => None
  end.

End Bin.

Section Readers.

Context {F : Type} `{FloatFormat F}.

(** *** Text *)

Definition decode_camera_txt (l : string) : option (Camera F) :=
  match Txt.tokens l with
  | [cid; model; w; h; fx; fy; cx; cy] =>
      cid ← Fmt.parse_int cid;
      model ← (if String.eqb model "PINHOLE" then Some 1 else None);
      w ← Fmt.parse_int w;
      h ← Fmt.parse_int h;
      fx ← parse_float fx;
      fy ← parse_float fy;
      cx ← parse_float cx;
      cy ← parse_float cy;
      Some {| camera_id := cid; model_id := model; cam_width := w;
              cam_height := h; cam_params := (fx, fy, cx, cy) |}
  | _ => None
  end.

Definition decode_cameras_txt (s : string) : option (list (Camera F)) :=
  mapM decode_camera_txt (Txt.data_lines s).

Fixpoint decode_keypoints_txt (toks : list string)
  : option (list (F * F * Z)) :=
  match toks with
  | [] => Some []
  | x :: y :: pid :: rest =>
      x ← parse_float x;
      y ← parse_float y;
      pid ← Fmt.parse_int pid;
      kps ← decode_keypoints_txt rest;
      Some ((x, y, pid) :: kps)
  | _ => None
  end.

(** The name of an image is the rest of its line, spaces included. *)
Definition decode_image_txt (pose_line points_line : string)
  : option (ImagePose F) :=
  match Fmt.split " "%char pose_line with
  | iid :: qw :: qx :: qy :: qz :: tx :: ty :: tz :: cid :: name =>
      iid ← Fmt.parse_int iid;
      qw ← parse_float qw;
      qx ← parse_float qx;
      qy ← parse_float qy;
      qz ← parse_float qz;
      tx ← parse_float tx;
      ty ← parse_float ty;
      tz ← parse_float tz;
      cid ← Fmt.parse_int cid;
      kps ← decode_keypoints_txt (Txt.tokens points_line);
      Some {| image_id := iid; qvec := (qw, qx, qy, qz);
              tvec := (tx, ty, tz); pose_camera_id := cid;
              image_name := String.concat " " name; points2D := kps |}
  | _ => None
  end.

Fixpoint decode_image_lines (ls : list string)
  : option (list (ImagePose F)) :=
  match ls with
  | [] => Some []
  | pose_line :: points_line :: rest =>
      im ← decode_image_txt pose_line points_line;
      ims ← decode_image_lines rest;
      Some (im :: ims)
  | _ => None
  end.

Definition decode_images_txt (s : string) : option (list (ImagePose F)) :=
  decode_image_lines (Txt.data_lines s).

Fixpoint decode_track_txt (toks : list string) : option (list (Z * Z)) :=
  match toks with
  | [] => Some []
  | img :: idx :: rest =>
      img ← Fmt.parse_int img;
      idx ← Fmt.parse_int idx;
      tr ← decode_track_txt rest;
      Some ((img, idx) :: tr)
  | _ => None
  end.

Definition decode_point_txt (l : string) : option (Point3D F) :=
  match Txt.tokens l with
  | pid :: x :: y :: z :: r :: g :: b :: err :: track =>
      pid ← Fmt.parse_int pid;
      x ← parse_float x;
      y ← parse_float y;
      z ← parse_float z;
      r ← Fmt.parse_int r;
      g ← Fmt.parse_int g;
      b ← Fmt.parse_int b;
      err ← parse_float err;
      tr ← decode_track_txt track;
      Some {| point3D_id := pid; p3d_xyz := (x, y, z);
              p3d_rgb := (r, g, b); p3d_error := err; p3d_track := tr |}
  | _ => None
  end.

Definition decode_points3D_txt (s : string) : option (list (Point3D F)) :=
  mapM decode_point_txt (Txt.data_lines s).

(** *** Binary *)

Definition get_double : Bin.parser F :=
  fun bs => r ← Bin.get_bytes 8 bs; Some (unpack_double r.1, r.2).

Definition get_camera : Bin.parser (Camera F) :=
  fun bs =>
    cid ← Bin.get_uint 4 bs;
    model ← Bin.get_uint 4 cid.2;
    w ← Bin.get_uint 8 model.2;
    h ← Bin.get_uint 8 w.2;
    fx ← get_double h.2;
    fy ← get_double fx.2;
    cx ← get_double fy.2;
    cy ← get_double cx.2;
    Some ({| camera_id := cid.1; model_id := model.1; cam_width := w.1;
             cam_height := h.1;
             cam_params := (fx.1, fy.1, cx.1, cy.1) |}, cy.2).

Definition get_counted {A : Type} (p : Bin.parser A) : Bin.parser (list A) :=
  fun bs => n ← Bin.get_uint 8 bs; Bin.get_many p (Z.to_nat n.1) n.2.

Definition decode_cameras_bin (bs : list byte) : option (list (Camera F)) :=
  Bin.whole (get_counted get_camera) bs.

Definition get_keypoint : Bin.parser (F * F * Z) :=
  fun bs =>
    x ← get_double bs;
    y ← get_double x.2;
    pid ← Bin.get_uint 8 y.2;
    Some ((x.1, y.1, pid.1), pid.2).

Definition get_image : Bin.parser (ImagePose F) :=
  fun bs =>
    iid ← Bin.get_uint 4 bs;
    qw ← get_double iid.2;
    qx ← get_double qw.2;
    qy ← get_double qx.2;
    qz ← get_double qy.2;
    tx ← get_double qz.2;
    ty ← get_double tx.2;
    tz ← get_double ty.2;
    cid ← Bin.get_uint 4 tz.2;
    len ← Bin.get_uint 4 cid.2;
    name ← Bin.get_bytes (Z.to_nat len.1) len.2;
    kps ← get_counted get_keypoint name.2;
    Some ({| image_id := iid.1; qvec := (qw.1, qx.1, qy.1, qz.1);
             tvec := (tx.1, ty.1, tz.1); pose_camera_id := cid.1;
             image_name := string_of_list_byte name.1;
             points2D := kps.1 |}, kps.2).

Definition decode_images_bin (bs : list byte)
  : option (list (ImagePose F)) :=
  Bin.whole (get_counted get_image) bs.

Definition get_track_entry : Bin.parser (Z * Z) :=
  fun bs =>
    img ← Bin.get_uint 4 bs;
    idx ← Bin.get_uint 4 img.2;
    Some ((img.1, idx.1), idx.2).

Definition get_point : Bin.parser (Point3D F) :=
  fun bs =>
    pid ← Bin.get_uint 8 bs;
    x ← get_double pid.2;
    y ← get_double x.2;
    z ← get_double y.2;
    r ← Bin.get_uint 1 z.2;
    g ← Bin.get_uint 1 r.2;
    b ← Bin.get_uint 1 g.2;
    err ← get_double b.2;
    tr ← get_counted get_track_entry err.2;
    Some ({| point3D_id := pid.1; p3d_xyz := (x.1, y.1, z.1);
             p3d_rgb := (r.1, g.1, b.1); p3d_error := err.1;
             p3d_track := tr.1 |}, tr.2).

Definition decode_points3D_bin (bs : list byte)
  : option (list (Point3D F)) :=
  Bin.whole (get_counted get_point) bs.

(** *** The content both writers are given *)

Definition camera_of (i : nat) (K : matrix F) (image_width image_height : nat)
  : Camera F :=
  {| camera_id := Z.of_nat i + 1; model_id := 1;
     cam_width := Z.of_nat image_width;
     cam_height := Z.of_nat image_height;
     cam_params := (K 0 0, K 1 1, K 0 2, K 1 2)%nat |}.

Fixpoint cameras_of (i : nat) (intrinsics : list (matrix F))
    (image_width image_height : nat) : list (Camera F) :=
  match intrinsics with
  | [] => []
  | K :: rest =>
      camera_of i K image_width image_height
      :: cameras_of (S i) rest image_width image_height
  end.

Definition keypoint_of_entry (kp : keypoint) : F * F * Z :=
  (float_of_int kp.1.1, float_of_int kp.1.2, Z.of_nat kp.2 + 1).

Definition image_of (quaternions : list (F * F * F * F))
    (translations : list (F * F * F))
    (image_points2D : list (list keypoint)) (image_names : list string)
    (i : nat) : option (ImagePose F) :=
  q ← quaternions !! i;
  t ← translations !! i;
  name ← image_names !! i;
  points ← image_points2D !! i;
  Some {| image_id := Z.of_nat i + 1; qvec := q; tvec := t;
          pose_camera_id := Z.of_nat i + 1;
          image_name := Fmt.basename name;
          points2D := map keypoint_of_entry points |}.

Definition point_of (pt : point_entry F) : Point3D F :=
  {| point3D_id := Z.of_nat (pt_id pt) + 1;
     p3d_xyz := pt_xyz pt;
     p3d_rgb := (Np.to_Z (pt_rgb pt).1.1, Np.to_Z (pt_rgb pt).1.2,
                 Np.to_Z (pt_rgb pt).2);
     p3d_error := pt_error pt;
     p3d_track :=
       map (fun t : nat * nat => (Z.of_nat t.1 + 1, Z.of_nat t.2))
         (pt_track pt) |}.

(** *** The fields of the text lines *)

Definition keypoint_fields (kp : keypoint) : list string :=
  [Fmt.str_int kp.1.1; Fmt.str_int kp.1.2; Fmt.str_int (Z.of_nat kp.2 + 1)].

Definition track_fields (t : nat * nat) : list string :=
  [Fmt.str_int (Z.of_nat t.1 + 1); Fmt.str_int (Z.of_nat t.2)].

Definition point_fields (pt : point_entry F) : list string :=
  [Fmt.str_int (Z.of_nat (pt_id pt) + 1);
   str_float (pt_xyz pt).1.1; str_float (pt_xyz pt).1.2;
   str_float (pt_xyz pt).2;
   Fmt.str_int (Np.to_Z (pt_rgb pt).1.1);
   Fmt.str_int (Np.to_Z (pt_rgb pt).1.2);
   Fmt.str_int (Np.to_Z (pt_rgb pt).2);
   str_float (pt_error pt)].

(** *** What "modulo float64 precision" asks of the values written *)

(** A field written from [v] is read back as [v] from both forms. *)
Definition float_ok (v : F) : Prop :=
  parse_float (str_float v) = Some v /\ unpack_double (pack_double v) = v.

(** A keypoint coordinate, written as an integer in text and as a
    double in binary, is read back as the same number. *)
Definition coord_ok (z : Z) : Prop :=
  parse_float (Fmt.str_int z) = Some (float_of_int z)
  /\ unpack_double (pack_double (float_of_int z)) = float_of_int z.

Definition floats4_ok (q : F * F * F * F) : Prop :=
  float_ok q.1.1.1 /\ float_ok q.1.1.2 /\ float_ok q.1.2 /\ float_ok q.2.

Definition floats3_ok (t : F * F * F) : Prop :=
  float_ok t.1.1 /\ float_ok t.1.2 /\ float_ok t.2.

Definition intrinsic_ok (K : matrix F) : Prop :=
  floats4_ok (K 0 0, K 1 1, K 0 2, K 1 2)%nat.

Definition keypoint_ok (kp : keypoint) : Prop :=
  coord_ok kp.1.1 /\ coord_ok kp.1.2.

Definition point_ok (pt : point_entry F) : Prop :=
  floats3_ok (pt_xyz pt) /\ float_ok (pt_error pt).

(** What every formatted float looks like: one non-empty field of a
    line; and a packed double has eight bytes. *)
Definition field (s : string) : Prop :=
  s <> EmptyString /\ Txt.mem_char " " s = false
  /\ Txt.mem_char "010" s = false.

Record format_ok : Prop := {
  str_float_field : forall v : F, field (str_float v);
  pack_double_length : forall v : F, length (pack_double v) = 8%nat;
  format_f_line : forall d q, Txt.mem_char "010" (format_f d q) = false
}.

End Readers.

(** The deduplication key of a sample, and what the keypoint of a
    registered sample records. *)
Definition sample_key (s : sample) : Z := hash_point (smp_point s) 100.

Definition keypoint_of (st : agg_state) (kp : keypoint) (s : sample) : Prop :=
  kp.1.1 = smp_x s /\ kp.1.2 = smp_y s
  /\ point_indices st !! sample_key s = Some kp.2.

Definition all_tracks (pts : list (point_entry float)) : list (nat * nat) :=
  concat (pt_track <$> pts).

(** The invariant of the containers after the samples [registered] have
    been registered. *)
Record agg_inv (st : agg_state) (registered : list sample) : Prop := {
  inv_ids : forall i e, points3D st !! i = Some e -> pt_id e = i;
  inv_index : forall h i,
    point_indices st !! h = Some i ->
    exists e, points3D st !! i = Some e /\ hash_point (pt_xyz e) 100 = h;
  inv_size : length (points3D st) = size (point_indices st);
  inv_dom : dom (point_indices st) = list_to_set (sample_key <$> registered);
  inv_track : forall p e img k,
    points3D st !! p = Some e -> (img, k) ∈ pt_track e ->
    exists kl x y,
      image_points2D st !! img = Some kl /\ kl !! k = Some (x, y, p);
  inv_cover : forall img kl k x y p,
    image_points2D st !! img = Some kl -> kl !! k = Some (x, y, p) ->
    exists e, points3D st !! p = Some e /\ (img, k) ∈ pt_track e;
  inv_nodup : NoDup (all_tracks (points3D st));
  inv_kps : forall img kl,
    image_points2D st !! img = Some kl ->
    Forall2 (keypoint_of st) kl
      (filter (fun s => smp_img s = img) registered);
  inv_imgs :
    Forall (fun s => (smp_img s < length (image_points2D st))%nat) registered
}.

(** [v] exceeds the constant [c]. *)
Definition exceeds (v : float) (c : Q) : Prop :=
  match v with
  | Fin q => (c < q)%Q
  | PInf => True
  | NInf | NaN => False
  end.

(** One coordinate multiplied by 100 and rounded to the nearest integer,
    the product being the binary64 product; there is no such integer
    when the product overflows. *)
Definition rounded_coord (v : float) : option Z :=
  match Fl.mul v (Fin 100) with
  | Fin q => Some (Np.round q)
  | _ => None
  end.

(** The integer triple of the design document. *)
Definition rounded_triple (p : point) : option (Z * Z * Z) :=
  let '(px, py, pz) := p in
  x ← rounded_coord px;
  y ← rounded_coord py;
  z ← rounded_coord pz;
  Some (x, y, z).

(** Where an accepted sample comes from: a visited grid position of one
    of the images that passes the tests. *)
Definition sample_source (predictions : Predictions) (cutoff : float)
    (flags : mask_flags) (stride : Z) (s : sample) : Prop :=
  exists orig_img scale_y scale_x positions,
    (smp_img s < (Np.shape (world_points_from_depth predictions)).1.1)%nat
    /\ original_images predictions !! smp_img s = Some orig_img
    /\ Py.truediv (Z.of_nat (img_h orig_img))
         (Z.of_nat (Np.shape (world_points_from_depth predictions)).1.2)
       = Some scale_y
    /\ Py.truediv (Z.of_nat (img_w orig_img))
         (Z.of_nat (Np.shape (world_points_from_depth predictions)).2)
       = Some scale_x
    /\ sample_positions (Np.shape (world_points_from_depth predictions)).1.2
         (Np.shape (world_points_from_depth predictions)).2 stride
       = Some positions
    /\ (smp_y s, smp_x s) ∈ positions
    /\ sample_filter predictions cutoff flags orig_img scale_y scale_x
         (smp_img s) (smp_y s) (smp_x s)
       = Some (Some (smp_point s, smp_rgb s)).

(** The point id assigned to an accepted sample: the point reference of
    the keypoint appended for it, the [j]-th keypoint of its image when
    the sample is the [j]-th accepted sample of that image. *)
Definition assigned (ss : list sample) (kps : list (list keypoint))
    (s : sample) (id : nat) : Prop :=
  exists j kl kp,
    filter (fun s' => smp_img s' = smp_img s) ss !! j = Some s
    /\ kps !! smp_img s = Some kl /\ kl !! j = Some kp
    /\ kp.1.1 = smp_x s /\ kp.1.2 = smp_y s /\ kp.2 = id.

(** The deduplication property as the design document states it. *)
Definition dedup_exact (predictions : Predictions) (threshold_pct : float)
    (flags : mask_flags) (stride : Z) : Prop :=
  forall pts kps cutoff ss,
    filter_and_prepare_points predictions threshold_pct flags stride
      = Some (pts, kps) ->
    conf_cutoff predictions threshold_pct = Some cutoff ->
    accepted_samples predictions cutoff flags stride = Some ss ->
    forall s1 s2 id1 id2,
      assigned ss kps s1 id1 -> assigned ss kps s2 id2 ->
      (rounded_triple (smp_point s1) = rounded_triple (smp_point s2) ->
       id1 = id2)
      /\ (rounded_triple (smp_point s1) <> rounded_triple (smp_point s2) ->
          id1 <> id2).

(** [ceil_div a b] is the ceiling of [a / b] for a positive [b]. *)
Definition ceil_div (a b : Z) : Z := (a + b - 1) / b.

(** ** Definitions for the further properties *)

(** What a point records of the samples registered so far: the
    coordinates and the colour of the first sample with its key, the
    placeholder error, and one track entry per sample with that key, in
    registration order. *)
Definition first_sample (registered : list sample) (e : point_entry float)
  : Prop :=
  exists l1 s l2,
    registered = l1 ++ s :: l2
    /\ Forall (fun s' => sample_key s' <> sample_key s) l1
    /\ pt_id e = size (list_to_set (sample_key <$> l1) : gset Z)
    /\ pt_xyz e = smp_point s /\ pt_rgb e = smp_rgb s /\ pt_error e = Fin 1
    /\ (pt_track e).*1
       = smp_img <$> filter (fun s' => sample_key s' = sample_key s) registered.

Record agg_origin (st : agg_state) (registered : list sample) : Prop := {
  org_key : forall p e,
    points3D st !! p = Some e ->
    point_indices st !! hash_point (pt_xyz e) 100 = Some p;
  org_first : forall p e,
    points3D st !! p = Some e -> first_sample registered e;
  org_kps : sum_lengths (image_points2D st) = length registered;
  org_tracks : length (all_tracks (points3D st)) = length registered
}.

(** The extent of an array axis is below 2^63, as numpy stores it. *)
Definition size_ok (n : nat) : Prop := Z.of_nat n < 2 ^ 63.

(** Predictions whose arrays agree in shape: a non-empty grid, one
    confidence per grid cell, a keypoint list and a non-empty original
    image for every grid. *)
Record well_shaped (predictions : Predictions) : Prop := {
  ws_conf :
    Np.shape (depth_conf predictions)
    = Np.shape (world_points_from_depth predictions);
  ws_grid :
    (1 <= (Np.shape (world_points_from_depth predictions)).1.1
     /\ 1 <= (Np.shape (world_points_from_depth predictions)).1.2
     /\ 1 <= (Np.shape (world_points_from_depth predictions)).2)%nat;
  ws_depth :
    ((Np.shape (world_points_from_depth predictions)).1.1
     <= (depth predictions).1.1)%nat;
  ws_sizes :
    size_ok (Np.shape (world_points_from_depth predictions)).1.2
    /\ size_ok (Np.shape (world_points_from_depth predictions)).2;
  ws_images : forall i,
    (i < (Np.shape (world_points_from_depth predictions)).1.1)%nat ->
    exists im, original_images predictions !! i = Some im
               /\ (1 <= img_h im)%nat /\ (1 <= img_w im)%nat
               /\ size_ok (img_h im) /\ size_ok (img_w im)
}.

(** [masks_le f1 f2]: every filter enabled in [f1] is enabled in [f2]. *)
Definition masks_le (f1 f2 : mask_flags) : Prop :=
  (mask_sky f1 = true -> mask_sky f2 = true)
  /\ (mask_black_bg f1 = true -> mask_black_bg f2 = true)
  /\ (mask_white_bg f1 = true -> mask_white_bg f2 = true).

(** The grid position [(y, x)] of a keypoint [(x, y, point index)]. *)
Definition kp_pos (kp : keypoint) : Z * Z := (kp.1.2, kp.1.1).

(** ** Example inputs *)

Module Examples.

Definition no_masks : mask_flags :=
  {| mask_sky := false; mask_black_bg := false; mask_white_bg := false |}.

Definition grey_image (h w : nat) : image :=
  {| img_h := h; img_w := w;
     pixel := fun _ _ => (Np.uint8 128, Np.uint8 128, Np.uint8 128) |}.

(** One image with a 1x2 grid: the world points (-1/128, 0, 0) and
    (-1/64, 0, 0), both of confidence 1.  Multiplied by 100 the first
    coordinates are -0.78125 and -1.5625. *)
Definition two_cells : Predictions :=
  {| depth := (1, 1, 2)%nat;
     depth_conf :=
       {| Np.shape := (1, 1, 2)%nat; Np.item := fun _ _ _ => Fin 1 |};
     world_points_from_depth :=
       {| Np.shape := (1, 1, 2)%nat;
          Np.item := fun _ _ x =>
            (Fin (if (x =? 0)%nat then - (1 # 128) else - (1 # 64))%Q,
             Fin 0, Fin 0) |};
     original_images := [grey_image 1 2];
     intrinsic := [fun r c => Fin (if (r =? c)%nat then 1 else 0)];
     extrinsic := [fun r c => Fin (if (r =? c)%nat then 1 else 0)] |}.

Definition blue_image (h w : nat) : image :=
  {| img_h := h; img_w := w;
     pixel := fun _ _ => (Np.uint8 10, Np.uint8 10, Np.uint8 200) |}.

(** One image with a single grid cell: the world point (0, 2, 0) under
    a blue pixel. *)
Definition sky_scene : Predictions :=
  {| depth := (1, 1, 1)%nat;
     depth_conf :=
       {| Np.shape := (1, 1, 1)%nat; Np.item := fun _ _ _ => Fin 1 |};
     world_points_from_depth :=
       {| Np.shape := (1, 1, 1)%nat;
          Np.item := fun _ _ _ => (Fin 0, Fin 2, Fin 0) |};
     original_images := [blue_image 1 1];
     intrinsic := [fun r c => Fin (if (r =? c)%nat then 1 else 0)];
     extrinsic := [fun r c => Fin (if (r =? c)%nat then 1 else 0)] |}.

(** Two images with 4x4 grids, sampled at stride 2.  The confidence of
    row [y] is [1 + y]; the world point of image [i] at [(y, x)] is
    [(y + 10 i, x, 0)], except that the first sample of the second image
    coincides with the first sample of the first one. *)
Definition two_views : Predictions :=
  {| depth := (2, 4, 4)%nat;
     depth_conf :=
       {| Np.shape := (2, 4, 4)%nat;
          Np.item := fun _ y _ => Fin (inject_Z (1 + Z.of_nat y)) |};
     world_points_from_depth :=
       {| Np.shape := (2, 4, 4)%nat;
          Np.item := fun i y x =>
            if ((i =? 1) && (y =? 0) && (x =? 0))%nat
            then (Fin 0, Fin 0, Fin 0)
            else (Fin (inject_Z (Z.of_nat (y + 10 * i))),
                  Fin (inject_Z (Z.of_nat x)), Fin 0) |};
     original_images := [grey_image 8 8; grey_image 8 8];
     intrinsic := [];
     extrinsic := [] |}.

Definition two_views_points : list (point_entry float) :=
  Eval vm_compute in
    default []
      (fst <$> filter_and_prepare_points two_views (Fin 0) no_masks 2).

Definition two_views_keypoints : list (list keypoint) :=
  Eval vm_compute in
    default []
      (snd <$> filter_and_prepare_points two_views (Fin 0) no_masks 2).

Definition two_views_points_50 : list (point_entry float) :=
  Eval vm_compute in
    default []
      (fst <$> filter_and_prepare_points two_views (Fin 50) no_masks 2).

Definition two_views_keypoints_50 : list (list keypoint) :=
  Eval vm_compute in
    default []
      (snd <$> filter_and_prepare_points two_views (Fin 50) no_masks 2).

(** One image with a 1x2 grid: the confidences are the binary64 value
    nearest to 0.1 and 1. *)
Definition tenth : float := Eval vm_compute in Fl.round (1 # 10).

Definition tenth_and_one : Predictions :=
  {| depth := (1, 1, 2)%nat;
     depth_conf :=
       {| Np.shape := (1, 1, 2)%nat;
          Np.item := fun _ _ x => if (x =? 0)%nat then tenth else Fin 1 |};
     world_points_from_depth :=
       {| Np.shape := (1, 1, 2)%nat;
          Np.item := fun _ _ x => (Fin (inject_Z (Z.of_nat x)), Fin 0, Fin 0) |};
     original_images := [grey_image 1 2];
     intrinsic := [];
     extrinsic := [] |}.

Definition sample_a : sample :=
  (0%nat, 0, 0, (Fin (- (1 # 128)), Fin 0, Fin 0),
   (Np.uint8 128, Np.uint8 128, Np.uint8 128)).

Definition sample_b : sample :=
  (0%nat, 0, 1, (Fin (- (1 # 64)), Fin 0, Fin 0),
   (Np.uint8 128, Np.uint8 128, Np.uint8 128)).

(** A float format for the examples: a finite value is printed as the
    exact fraction [num/den] and packed as two 32-bit words. *)
Definition str_fraction (v : float) : string :=
  match v with
  | Fin q =>
      String.concat "/" [Fmt.str_int (Qnum q); Fmt.str_int (Z.pos (Qden q))]
  | PInf => "inf"
  | NInf => "-inf"
  | NaN => "nan"
  end.

Definition parse_fraction (s : string) : option float :=
  if String.eqb s "inf" then Some PInf
  else if String.eqb s "-inf" then Some NInf
  else if String.eqb s "nan" then Some NaN
  else
    match Fmt.split "/" s with
    | [a] => a ← Fmt.parse_int a; Some (Fin (inject_Z a))
    | [a; b] =>
        a ← Fmt.parse_int a;
        b ← Fmt.parse_int b;
        match b with
        | Z.pos p => Some (Fin (a # p))
        | _ => None
        end
    | _ => None
    end.

Definition pack_fraction (v : float) : list byte :=
  match v with
  | Fin q =>
      Fmt.le_bytes 4 (Qnum q mod 2 ^ 32)
      ++ Fmt.le_bytes 4 (Z.pos (Qden q) mod 2 ^ 32)
  | PInf => Fmt.le_bytes 4 1 ++ Fmt.le_bytes 4 0
  | NInf => Fmt.le_bytes 4 2 ++ Fmt.le_bytes 4 0
  | NaN => Fmt.le_bytes 4 0 ++ Fmt.le_bytes 4 0
  end.

Definition unpack_fraction (bs : list byte) : float :=
  let n := Bin.le_value (take 4 bs) in
  let d := Bin.le_value (drop 4 bs) in
  match d with
  | Z.pos p => Fin ((if n <? 2 ^ 31 then n else n - 2 ^ 32) # p)
  | _ => if n =? 1 then PInf else if n =? 2 then NInf else NaN
  end.

(** A fixed-point number is printed as the scaled integer and the
    number of decimals. *)
Definition format_scaled (d : nat) (q : Q) : string :=
  String.concat "e-"
    [Fmt.str_int (Np.round (q * inject_Z (10 ^ Z.of_nat d)));
     Fmt.str_int (Z.of_nat d)].

#[export] Instance fraction_format : FloatFormat float :=
  {| str_float := str_fraction; parse_float := parse_fraction;
     pack_double := pack_fraction; unpack_double := unpack_fraction;
     float_of_int := fun z => Fin (inject_Z z);
     format_f := format_scaled |}.

(** A stand-in for scipy: the identity rotation for every matrix. *)
#[export] Instance identity_rotation : Rotation float :=
  {| as_quat := fun _ => (Fin 0, Fin 0, Fin 0, Fin 1) |}.

(** The containers the writers are given for [two_cells], and the
    files written from them. *)
Definition unit_quaternions : list (float * float * float * float) :=
  [(Fin 1, Fin 0, Fin 0, Fin 0)].

Definition zero_translations : list (float * float * float) :=
  [(Fin 0, Fin 0, Fin 0)].

Definition two_keypoints : list (list keypoint) :=
  [[(0, 0, 0%nat); (1, 0, 0%nat)]].

Definition one_name : list string := ["/data/a b.png"%string].

Definition merged_points : list (point_entry float) :=
  [{| pt_id := 0; pt_xyz := (Fin (- (1 # 128)), Fin 0, Fin 0);
      pt_rgb := (Np.uint8 128, Np.uint8 128, Np.uint8 128);
      pt_error := Fin 1; pt_track := [(0, 0); (0, 1)]%nat |}].

Definition images_txt : string :=
  Eval vm_compute in
    default EmptyString
      (write_colmap_images_txt unit_quaternions zero_translations
         two_keypoints one_name).

Definition cameras_bin : list byte :=
  Eval vm_compute in
    default [] (write_colmap_cameras_bin (intrinsic two_cells) 2 1).

Definition images_bin : list byte :=
  Eval vm_compute in
    default []
      (write_colmap_images_bin unit_quaternions zero_translations
         two_keypoints one_name).

Definition points_bin : list byte :=
  Eval vm_compute in default [] (write_colmap_points3D_bin merged_points).

Definition text_args : Args :=
  {| arg_conf_threshold := Fin 0; arg_masks := no_masks;
     arg_binary := false; arg_stride := 1 |}.

Definition binary_args : Args :=
  {| arg_conf_threshold := Fin 0; arg_masks := no_masks;
     arg_binary := true; arg_stride := 1 |}.

Definition text_files : colmap_files :=
  Eval vm_compute in
    default (TextFiles EmptyString EmptyString EmptyString)
      (main text_args two_cells one_name).

Definition binary_files : colmap_files :=
  Eval vm_compute in
    default (BinaryFiles [] [] []) (main binary_args two_cells one_name).

(** *** Inputs for the further properties *)

Definition all_masks : mask_flags :=
  {| mask_sky := true; mask_black_bg := true; mask_white_bg := true |}.

Definition background_masks : mask_flags :=
  {| mask_sky := false; mask_black_bg := true; mask_white_bg := true |}.

(** No image: every array has a first dimension of zero. *)
Definition no_images : Predictions :=
  {| depth := (0, 4, 4)%nat;
     depth_conf :=
       {| Np.shape := (0, 4, 4)%nat; Np.item := fun _ _ _ => Fin 1 |};
     world_points_from_depth :=
       {| Np.shape := (0, 4, 4)%nat;
          Np.item := fun _ _ _ => (Fin 0, Fin 0, Fin 0) |};
     original_images := [];
     intrinsic := [];
     extrinsic := [] |}.

(** One image with a 1x3 grid over a black, a white and a grey pixel. *)
Definition tones_image : image :=
  {| img_h := 1; img_w := 3;
     pixel := fun _ x =>
       match x with
       | O => (Np.uint8 0, Np.uint8 0, Np.uint8 0)
       | 1%nat => (Np.uint8 255, Np.uint8 255, Np.uint8 255)
       | _ => (Np.uint8 128, Np.uint8 128, Np.uint8 128)
       end |}.

Definition three_tones : Predictions :=
  {| depth := (1, 1, 3)%nat;
     depth_conf :=
       {| Np.shape := (1, 1, 3)%nat; Np.item := fun _ _ _ => Fin 1 |};
     world_points_from_depth :=
       {| Np.shape := (1, 1, 3)%nat;
          Np.item := fun _ _ x =>
            (Fin (inject_Z (Z.of_nat x)), Fin 0, Fin 0) |};
     original_images := [tones_image];
     intrinsic := [];
     extrinsic := [] |}.

Definition three_tones_points : list (point_entry float) :=
  Eval vm_compute in
    default [] (fst <$> filter_and_prepare_points three_tones (Fin 0) no_masks 1).

Definition three_tones_keypoints : list (list keypoint) :=
  Eval vm_compute in
    default [] (snd <$> filter_and_prepare_points three_tones (Fin 0) no_masks 1).

Definition three_tones_points_masked : list (point_entry float) :=
  Eval vm_compute in
    default []
      (fst <$> filter_and_prepare_points three_tones (Fin 0) background_masks 1).

Definition three_tones_keypoints_masked : list (list keypoint) :=
  Eval vm_compute in
    default []
      (snd <$> filter_and_prepare_points three_tones (Fin 0) background_masks 1).

Definition two_views_points_4 : list (point_entry float) :=
  Eval vm_compute in
    default [] (fst <$> filter_and_prepare_points two_views (Fin 0) no_masks 4).

Definition two_views_keypoints_4 : list (list keypoint) :=
  Eval vm_compute in
    default [] (snd <$> filter_and_prepare_points two_views (Fin 0) no_masks 4).

Definition image_record_bin : list byte :=
  Eval vm_compute in
    default []
      (image_record unit_quaternions zero_translations two_keypoints
         one_name 0).

Definition globbed : list string :=
  ["d/b.PNG"; "d/a.jpg"; "d/notes.txt"; "d/.png"; "d/x.jpeg.bak";
   "d/B.Jpeg"]%string.

(** One image with a 1x2 grid whose first confidence is a NaN. *)
Definition nan_confidence : Predictions :=
  {| depth := (1, 1, 2)%nat;
     depth_conf :=
       {| Np.shape := (1, 1, 2)%nat;
          Np.item := fun _ _ x => if (x =? 0)%nat then NaN else Fin 1 |};
     world_points_from_depth :=
       {| Np.shape := (1, 1, 2)%nat;
          Np.item := fun _ _ x => (Fin (inject_Z (Z.of_nat x)), Fin 0, Fin 0) |};
     original_images := [grey_image 1 2];
     intrinsic := [];
     extrinsic := [] |}.

End Examples.

(** * Properties *)

(** ** Binary64 arithmetic

    Rounding to binary64 is monotone and never yields a NaN; the order
    on floating-point values is the order of the extended real line on
    the values that are numbers. *)

Lemma rint_bounds (q : Q) :
  (inject_Z (Fl.rint q) - (1 # 2) <= q <= inject_Z (Fl.rint q) + (1 # 2))%Q.
Proof.
  unfold Fl.rint.
  pose proof (Qfloor_le q) as Hlo. pose proof (Qlt_floor q) as Hhi.
  rewrite inject_Z_plus in Hhi. change (inject_Z 1) with 1%Q in Hhi.
  destruct (Qcompare_spec (q - inject_Z (Qfloor q)) (1 # 2)) as [H|H|H].
  - destruct (Z.even (Qfloor q)); [|rewrite inject_Z_plus;
      change (inject_Z 1) with 1%Q]; lra.
  - lra.
  - rewrite inject_Z_plus. change (inject_Z 1) with 1%Q. lra.
Qed.

Lemma rint_comp (a b : Q) : (a == b)%Q -> Fl.rint a = Fl.rint b.
Proof.
  intros H. unfold Fl.rint. rewrite (Qfloor_comp a b H).
  assert (a - inject_Z (Qfloor b) == b - inject_Z (Qfloor b))%Q as ->
    by (rewrite H; reflexivity).
  reflexivity.
Qed.

Lemma rint_mono (a b : Q) : (a <= b)%Q -> Fl.rint a <= Fl.rint b.
Proof.
  intros Hab. destruct (Z_le_gt_dec (Fl.rint a) (Fl.rint b)) as [|Hgt]; [assumption|].
  assert (Fl.rint b + 1 <= Fl.rint a) as Hz by lia.
  rewrite Zle_Qle, inject_Z_plus in Hz. change (inject_Z 1) with 1%Q in Hz.
  pose proof (rint_bounds a). pose proof (rint_bounds b).
  assert (a == b)%Q as Heq by lra.
  rewrite (rint_comp a b Heq). lia.
Qed.

Lemma rint_Z (n : Z) : Fl.rint (inject_Z n) = n.
Proof.
  unfold Fl.rint. rewrite Qfloor_Z.
  destruct (Qcompare_spec (inject_Z n - inject_Z n) (1 # 2)) as [H|H|H];
    [exfalso; lra|reflexivity|exfalso; lra].
Qed.

(** *** Powers of two *)

Lemma pow2_pos (e : Z) : (0 < 2 ^ e)%Q.
Proof. apply Qpower_0_lt. reflexivity. Qed.

Lemma pow2_le (a b : Z) : a <= b -> (2 ^ a <= 2 ^ b)%Q.
Proof. intros H. apply Qpower_le_compat_l; [exact H|discriminate]. Qed.

Lemma pow2_lt_inv (a b : Z) : (2 ^ a < 2 ^ b)%Q -> a < b.
Proof. intros H. eapply Qpower_lt_compat_l_inv; [exact H|reflexivity]. Qed.

Lemma pow2_split (a b : Z) : (2 ^ (a + b) == 2 ^ a * 2 ^ b)%Q.
Proof. apply Qpower_plus. discriminate. Qed.

Lemma pow2_Z (n : Z) : 0 <= n -> (inject_Z (2 ^ n) == 2 ^ n)%Q.
Proof. intros H. exact (Zpower_Qpower 2 n H). Qed.

Lemma ratio_lt (n d A B : Z) :
  0 < d -> 0 < B -> n * B < A * d ->
  (inject_Z n / inject_Z d < inject_Z A / inject_Z B)%Q.
Proof.
  intros Hd HB H.
  rewrite Zlt_Qlt in Hd, HB, H. rewrite !inject_Z_mult in H.
  change (inject_Z 0) with 0%Q in *.
  apply Qlt_shift_div_r; [exact Hd|].
  assert (inject_Z A / inject_Z B * inject_Z d
          == inject_Z A * inject_Z d / inject_Z B)%Q as ->
    by (field; lra).
  apply Qlt_shift_div_l; [exact HB|exact H].
Qed.

Lemma ratio_le (n d A B : Z) :
  0 < d -> 0 < B -> A * d <= n * B ->
  (inject_Z A / inject_Z B <= inject_Z n / inject_Z d)%Q.
Proof.
  intros Hd HB H.
  rewrite Zlt_Qlt in Hd, HB. rewrite Zle_Qle in H.
  rewrite !inject_Z_mult in H. change (inject_Z 0) with 0%Q in *.
  apply Qle_shift_div_r; [exact HB|].
  assert (inject_Z n / inject_Z d * inject_Z B
          == inject_Z n * inject_Z B / inject_Z d)%Q as ->
    by (field; lra).
  apply Qle_shift_div_l; [exact Hd|exact H].
Qed.

(** [ilog2 q] is the exponent of the binade of a positive [q]. *)
Lemma ilog2_spec (q : Q) :
  (0 < q)%Q -> (2 ^ Fl.ilog2 q <= q < 2 ^ (Fl.ilog2 q + 1))%Q.
Proof.
  intros Hq. destruct q as [n d]. unfold Fl.ilog2. cbn [Qnum Qden].
  assert (0 < n) as Hn by (unfold Qlt in Hq; cbn in Hq; lia).
  set (ln := Z.log2 n). set (ld := Z.log2 (Z.pos d)).
  destruct (Z.log2_spec n Hn) as [Hn1 Hn2]. fold ln in Hn1, Hn2.
  destruct (Z.log2_spec (Z.pos d) ltac:(lia)) as [Hd1 Hd2]. fold ld in Hd1, Hd2.
  assert (0 <= ln) as Hln by apply Z.log2_nonneg.
  assert (0 <= ld) as Hld by apply Z.log2_nonneg.
  assert (0 < 2 ^ ln) by (apply Z.pow_pos_nonneg; lia).
  assert (0 < 2 ^ ld) by (apply Z.pow_pos_nonneg; lia).
  assert (0 < 2 ^ Z.succ ln) by (apply Z.pow_pos_nonneg; lia).
  assert (0 < 2 ^ Z.succ ld) by (apply Z.pow_pos_nonneg; lia).
  assert (n # d == inject_Z n / inject_Z (Z.pos d))%Q as Hnd
    by apply Qmake_Qdiv.
  assert (2 ^ (ln - ld - 1) <= n # d)%Q as Hlo.
  { rewrite Hnd.
    replace (ln - ld - 1) with (ln - Z.succ ld) by lia.
    rewrite Qpower_minus by discriminate.
    rewrite <- !pow2_Z by lia.
    apply ratio_le; [lia|lia|nia]. }
  assert (n # d < 2 ^ (ln - ld + 1))%Q as Hhi.
  { rewrite Hnd.
    replace (ln - ld + 1) with (Z.succ ln - ld) by lia.
    rewrite Qpower_minus by discriminate.
    rewrite <- !pow2_Z by lia.
    apply ratio_lt; [lia|lia|nia]. }
  destruct (Qle_bool (2 ^ (ln - ld)) (n # d)) eqn:E.
  - apply Qle_bool_iff in E. split; [exact E|exact Hhi].
  - split; [exact Hlo|].
    replace (ln - ld - 1 + 1) with (ln - ld) by lia.
    apply Qnot_le_lt. intros Hle. apply Qle_bool_iff in Hle. congruence.
Qed.

Lemma ilog2_mono (a b : Q) :
  (0 < a)%Q -> (a <= b)%Q -> Fl.ilog2 a <= Fl.ilog2 b.
Proof.
  intros Ha Hab.
  destruct (ilog2_spec a Ha) as [Ha1 _].
  destruct (ilog2_spec b ltac:(lra)) as [_ Hb2].
  assert (2 ^ Fl.ilog2 a < 2 ^ (Fl.ilog2 b + 1))%Q as H by lra.
  apply pow2_lt_inv in H. lia.
Qed.

Lemma ilog2_comp (a b : Q) :
  (0 < a)%Q -> (a == b)%Q -> Fl.ilog2 a = Fl.ilog2 b.
Proof.
  intros Ha Hab.
  pose proof (ilog2_mono a b Ha ltac:(lra)).
  pose proof (ilog2_mono b a ltac:(lra) ltac:(lra)). lia.
Qed.

(** *** Rounding to the multiples of a power of two *)

Lemma scaled_le (q : Q) (e k : Z) :
  (q <= 2 ^ k)%Q -> e <= k ->
  (inject_Z (Fl.rint (q / 2 ^ e)) * 2 ^ e <= 2 ^ k)%Q.
Proof.
  intros Hq Hek. pose proof (pow2_pos e) as He.
  assert (q / 2 ^ e <= inject_Z (2 ^ (k - e)))%Q as Hs.
  { rewrite pow2_Z by lia. rewrite Qpower_minus by discriminate.
    unfold Qdiv. apply Qmult_le_compat_r; [exact Hq|].
    apply Qlt_le_weak, Qinv_lt_0_compat, He. }
  apply rint_mono in Hs. rewrite rint_Z in Hs.
  rewrite Zle_Qle, pow2_Z in Hs by lia.
  assert (2 ^ k == 2 ^ (k - e) * 2 ^ e)%Q as ->
    by (rewrite <- pow2_split; f_equiv; lia).
  apply Qmult_le_compat_r; [exact Hs|apply Qlt_le_weak, He].
Qed.

Lemma scaled_ge (q : Q) (e k : Z) :
  (2 ^ k <= q)%Q -> e <= k ->
  (2 ^ k <= inject_Z (Fl.rint (q / 2 ^ e)) * 2 ^ e)%Q.
Proof.
  intros Hq Hek. pose proof (pow2_pos e) as He.
  assert (inject_Z (2 ^ (k - e)) <= q / 2 ^ e)%Q as Hs.
  { rewrite pow2_Z by lia. rewrite Qpower_minus by discriminate.
    unfold Qdiv. apply Qmult_le_compat_r; [exact Hq|].
    apply Qlt_le_weak, Qinv_lt_0_compat, He. }
  apply rint_mono in Hs. rewrite rint_Z in Hs.
  rewrite Zle_Qle, pow2_Z in Hs by lia.
  assert (2 ^ k == 2 ^ (k - e) * 2 ^ e)%Q as ->
    by (rewrite <- pow2_split; f_equiv; lia).
  apply Qmult_le_compat_r; [exact Hs|apply Qlt_le_weak, He].
Qed.

Lemma nearest_mono (a b : Q) :
  (0 < a)%Q -> (a <= b)%Q -> (Fl.nearest a <= Fl.nearest b)%Q.
Proof.
  intros Ha Hab. assert (0 < b)%Q as Hb by lra.
  pose proof (ilog2_mono a b Ha Hab) as Hlog.
  destruct (ilog2_spec a Ha) as [_ Ha2].
  destruct (ilog2_spec b Hb) as [Hb1 _].
  unfold Fl.nearest.
  destruct (Z.eq_dec (Fl.ulp_exp a) (Fl.ulp_exp b)) as [Heq|Hne].
  - rewrite Heq. pose proof (pow2_pos (Fl.ulp_exp b)) as He.
    apply Qmult_le_compat_r; [|apply Qlt_le_weak, He].
    rewrite <- Zle_Qle. apply rint_mono.
    unfold Qdiv. apply Qmult_le_compat_r; [exact Hab|].
    apply Qlt_le_weak, Qinv_lt_0_compat, He.
  - assert (Fl.ilog2 a + 1 <= Fl.ilog2 b
            /\ Fl.ulp_exp a <= Fl.ilog2 b /\ Fl.ulp_exp b <= Fl.ilog2 b)
      as (H1 & H2 & H3)
      by (unfold Fl.ulp_exp, Fl.prec, Fl.emin in *; lia).
    apply Qle_trans with (2 ^ Fl.ilog2 b)%Q.
    + apply scaled_le; [|exact H2].
      pose proof (pow2_le _ _ H1). lra.
    + apply scaled_ge; [exact Hb1|exact H3].
Qed.

Lemma nearest_nonneg (a : Q) : (0 < a)%Q -> (0 <= Fl.nearest a)%Q.
Proof.
  intros Ha. unfold Fl.nearest. pose proof (pow2_pos (Fl.ulp_exp a)) as He.
  apply Qmult_le_0_compat; [|apply Qlt_le_weak, He].
  change 0%Q with (inject_Z 0). rewrite <- Zle_Qle.
  rewrite <- (rint_Z 0). apply rint_mono.
  change (inject_Z 0) with 0%Q. apply Qlt_le_weak.
  apply Qlt_shift_div_l; [exact He|lra].
Qed.


(** *** The order on floating-point values *)

Lemma leb_Fin (x y : Q) : Fl.leb (Fin x) (Fin y) = true <-> (x <= y)%Q.
Proof. apply Qle_bool_iff. Qed.

Lemma ltb_Fin (x y : Q) : Fl.ltb (Fin x) (Fin y) = true <-> (x < y)%Q.
Proof.
  cbn. rewrite negb_true_iff. split.
  - intros H. apply Qnot_le_lt. intros Hle. apply Qle_bool_iff in Hle.
    congruence.
  - intros H. destruct (Qle_bool y x) eqn:E; [|reflexivity].
    apply Qle_bool_iff in E. exfalso. lra.
Qed.

Lemma ltb_Fin_false (x y : Q) : Fl.ltb (Fin x) (Fin y) = false <-> (y <= x)%Q.
Proof.
  cbn. rewrite negb_false_iff. apply Qle_bool_iff.
Qed.

Lemma leb_not_nan (a b : float) :
  Fl.leb a b = true -> Fl.isnan a = false /\ Fl.isnan b = false.
Proof. destruct a, b; cbn; intros H; try discriminate; split; reflexivity. Qed.

Lemma leb_refl (a : float) : Fl.isnan a = false -> Fl.leb a a = true.
Proof.
  destruct a; cbn; try reflexivity; try discriminate.
  intros _. apply Qle_bool_iff. apply Qle_refl.
Qed.

Lemma leb_trans (a b c : float) :
  Fl.leb a b = true -> Fl.leb b c = true -> Fl.leb a c = true.
Proof.
  destruct a as [x| | |], b as [y| | |], c as [z| | |]; cbn;
    try reflexivity; try discriminate.
  rewrite !Qle_bool_iff. intros. lra.
Qed.

(** A value below the cutoff's lower bound is below the cutoff. *)
Lemma leb_ltb_trans (a b c : float) :
  Fl.leb a b = true -> Fl.ltb b c = true -> Fl.ltb a c = true.
Proof.
  destruct a as [x| | |], b as [y| | |], c as [z| | |];
    try (cbn; reflexivity); try (cbn; discriminate).
  rewrite leb_Fin, !ltb_Fin. intros. lra.
Qed.

Lemma leb_ltb_false (a b : float) :
  Fl.leb a b = true -> Fl.ltb b a = false.
Proof.
  destruct a as [x| | |], b as [y| | |];
    try (cbn; reflexivity); try (cbn; discriminate).
  rewrite leb_Fin, ltb_Fin_false. tauto.
Qed.

Lemma ltb_false_leb (a b : float) :
  Fl.isnan a = false -> Fl.isnan b = false ->
  Fl.ltb a b = false <-> Fl.leb b a = true.
Proof.
  destruct a as [x| | |], b as [y| | |]; cbn; try discriminate; intros _ _;
    try tauto; try (split; discriminate).
  rewrite negb_false_iff. reflexivity.
Qed.

(** *** Rounding *)

Lemma round_pos_mono (a b : Q) :
  (0 < a)%Q -> (a <= b)%Q -> Fl.leb (Fl.round_pos a) (Fl.round_pos b) = true.
Proof.
  intros Ha Hab. pose proof (nearest_mono a b Ha Hab) as H.
  unfold Fl.round_pos.
  destruct (Qle_bool (2 ^ Fl.emax) (Fl.nearest b)) eqn:Eb.
  - destruct (Qle_bool _ (Fl.nearest a)); reflexivity.
  - destruct (Qle_bool (2 ^ Fl.emax) (Fl.nearest a)) eqn:Ea.
    + apply Qle_bool_iff in Ea.
      assert (Qle_bool (2 ^ Fl.emax) (Fl.nearest b) = true)
        by (apply Qle_bool_iff; lra).
      congruence.
    + apply leb_Fin. rewrite !Qred_correct. exact H.
Qed.

Lemma round_pos_nonneg (a : Q) :
  (0 < a)%Q -> Fl.leb (Fin 0) (Fl.round_pos a) = true.
Proof.
  intros Ha. unfold Fl.round_pos.
  destruct (Qle_bool _ _); [reflexivity|].
  apply leb_Fin. rewrite Qred_correct. by apply nearest_nonneg.
Qed.

Lemma round_pos_not_nan (a : Q) : Fl.isnan (Fl.round_pos a) = false.
Proof. unfold Fl.round_pos. destruct (Qle_bool _ _); reflexivity. Qed.

Lemma round_not_nan (a : Q) : Fl.isnan (Fl.round a) = false.
Proof.
  unfold Fl.round. destruct (a ?= 0)%Q; [reflexivity| |].
  - pose proof (round_pos_not_nan (- a)). destruct (Fl.round_pos (- a)); done.
  - apply round_pos_not_nan.
Qed.

Lemma leb_opp (a b : float) :
  Fl.leb a b = true -> Fl.leb (Fl.opp b) (Fl.opp a) = true.
Proof.
  destruct a as [x| | |], b as [y| | |]; cbn; try reflexivity;
    try discriminate.
  rewrite !Qle_bool_iff. intros. lra.
Qed.

Lemma round_mono (a b : Q) :
  (a <= b)%Q -> Fl.leb (Fl.round a) (Fl.round b) = true.
Proof.
  intros Hab. unfold Fl.round.
  destruct (Qcompare_spec a 0) as [Ha|Ha|Ha];
    destruct (Qcompare_spec b 0) as [Hb|Hb|Hb]; try (exfalso; lra).
  - reflexivity.
  - by apply round_pos_nonneg.
  - apply (leb_opp (Fin 0)), round_pos_nonneg. lra.
  - apply leb_opp, round_pos_mono; lra.
  - apply leb_trans with (Fin 0).
    + apply (leb_opp (Fin 0)), round_pos_nonneg. lra.
    + by apply round_pos_nonneg.
  - by apply round_pos_mono.
Qed.

Lemma round_pos_comp (a b : Q) :
  (0 < a)%Q -> (a == b)%Q -> Fl.round_pos a = Fl.round_pos b.
Proof.
  intros Ha Hab. unfold Fl.round_pos.
  assert (Fl.nearest a == Fl.nearest b)%Q as Hn.
  { unfold Fl.nearest, Fl.ulp_exp. rewrite (ilog2_comp a b Ha Hab).
    erewrite rint_comp; [reflexivity|]. rewrite Hab. reflexivity. }
  rewrite (Qred_complete _ _ Hn).
  destruct (Qle_bool _ (Fl.nearest a)) eqn:Ea,
           (Qle_bool _ (Fl.nearest b)) eqn:Eb; try reflexivity.
  - apply Qle_bool_iff in Ea. rewrite Hn in Ea. apply Qle_bool_iff in Ea.
    congruence.
  - apply Qle_bool_iff in Eb. rewrite <- Hn in Eb. apply Qle_bool_iff in Eb.
    congruence.
Qed.

Lemma round_comp (a b : Q) : (a == b)%Q -> Fl.round a = Fl.round b.
Proof.
  intros Hab. unfold Fl.round. rewrite Hab.
  destruct (Qcompare_spec b 0) as [Hb|Hb|Hb]; [reflexivity| |].
  - f_equal. apply round_pos_comp; lra.
  - apply round_pos_comp; lra.
Qed.

(** A binary64 value rounds to itself. *)
Lemma is_double_round (q : Q) :
  Fl.is_double (Fin q) = true -> exists r, Fl.round q = Fin r /\ (r == q)%Q.
Proof.
  cbn. destruct (Fl.round q) as [r| | |]; try discriminate.
  intros H. apply Qeq_bool_iff in H. eauto.
Qed.

(** *** The arithmetic of the cutoff *)

Lemma sign_Fin (q : Q) :
  match Fl.sign (Fin q) with
  | Lt => (q < 0)%Q
  | Eq => (q == 0)%Q
  | Gt => (0 < q)%Q
  end.
Proof. cbn. destruct (Qcompare_spec q 0); assumption. Qed.

Lemma div_mono (a b : float) (d : Q) :
  (0 < d)%Q -> Fl.leb a b = true ->
  Fl.leb (Fl.div a (Fin d)) (Fl.div b (Fin d)) = true.
Proof.
  intros Hd.
  assert (Fl.sign (Fin d) = Gt) as Hs
    by (cbn; destruct (Qcompare_spec d 0); [exfalso; lra|exfalso; lra|done]).
  destruct a as [x| | |], b as [y| | |]; try (cbn; discriminate);
    unfold Fl.div; rewrite ?Hs; cbn [Fl.sign Fl.sign_mul Fl.signed_inf];
    try reflexivity.
  - intros H. apply leb_Fin in H. apply round_mono.
    unfold Qdiv. apply Qmult_le_compat_r; [exact H|].
    apply Qlt_le_weak, Qinv_lt_0_compat, Hd.
  - intros _. pose proof (round_not_nan (x / d)).
    destruct (Fl.round (x / d)); done.
  - intros _. pose proof (round_not_nan (y / d)).
    destruct (Fl.round (y / d)); done.
Qed.

Lemma mul_mono_pos (a b : float) (q : Q) :
  (0 < q)%Q -> Fl.leb a b = true ->
  Fl.leb (Fl.mul a (Fin q)) (Fl.mul b (Fin q)) = true.
Proof.
  intros Hq.
  assert (Fl.sign (Fin q) = Gt) as Hs
    by (cbn; destruct (Qcompare_spec q 0); [exfalso; lra|exfalso; lra|done]).
  destruct a as [x| | |], b as [y| | |]; try (cbn; discriminate);
    unfold Fl.mul; rewrite ?Hs; cbn [Fl.sign Fl.sign_mul Fl.signed_inf];
    try reflexivity.
  - intros H. apply leb_Fin in H. apply round_mono.
    apply Qmult_le_compat_r; [exact H|lra].
  - intros _. pose proof (round_not_nan (x * q)).
    destruct (Fl.round (x * q)); done.
  - intros _. pose proof (round_not_nan (y * q)).
    destruct (Fl.round (y * q)); done.
Qed.

Lemma sign_pos (q : Q) : (0 < q)%Q -> Fl.sign (Fin q) = Gt.
Proof.
  intros H. cbn. destruct (Qcompare_spec q 0); [exfalso; lra|exfalso; lra|done].
Qed.

Lemma sign_neg (q : Q) : (q < 0)%Q -> Fl.sign (Fin q) = Lt.
Proof.
  intros H. cbn. destruct (Qcompare_spec q 0); [exfalso; lra|done|exfalso; lra].
Qed.

Lemma sign_zero (q : Q) : (q == 0)%Q -> Fl.sign (Fin q) = Eq.
Proof.
  intros H. cbn. destruct (Qcompare_spec q 0); [done|exfalso; lra|exfalso; lra].
Qed.

Lemma mul_nan_r (a : float) : Fl.mul a NaN = NaN.
Proof. destruct a; reflexivity. Qed.

Lemma ltb_ninf_r (a : float) : Fl.ltb a NInf = false.
Proof. destruct a; reflexivity. Qed.

Lemma ltb_pinf_l (a : float) : Fl.ltb PInf a = false.
Proof. destruct a; reflexivity. Qed.

Lemma ltb_nan_l (a : float) : Fl.ltb NaN a = false.
Proof. destruct a; reflexivity. Qed.

(** The product of a factor and a maximum of zero is zero or not a
    number. *)
Lemma mul_zero (t : float) (q : Q) :
  (q == 0)%Q -> Fl.mul t (Fin q) = Fin 0 \/ Fl.mul t (Fin q) = NaN.
Proof.
  intros Hq. destruct t as [x| | |]; unfold Fl.mul.
  - left. rewrite (round_comp (x * q) 0) by (rewrite Hq; ring). reflexivity.
  - right. rewrite (sign_zero q Hq). reflexivity.
  - right. rewrite (sign_zero q Hq). reflexivity.
  - by right.
Qed.

(** A factor of at most one times a negative maximum is at least the
    maximum, after rounding too. *)
Lemma mul_neg_ge (t : float) (q c : Q) :
  (q < 0)%Q -> (c <= q)%Q -> Fl.is_double (Fin c) = true ->
  Fl.leb t (Fin 1) = true ->
  Fl.leb (Fin c) (Fl.mul t (Fin q)) = true.
Proof.
  intros Hq Hc Hd Ht. destruct t as [x| | |]; try discriminate.
  - apply leb_Fin in Ht. unfold Fl.mul.
    destruct (is_double_round c Hd) as (r & Hr & Hrc).
    assert (Fl.leb (Fl.round c) (Fl.round (x * q)) = true) as H.
    { apply round_mono. assert (0 <= (1 - x) * - q)%Q; [|lra].
      apply Qmult_le_0_compat; lra. }
    rewrite Hr in H. destruct (Fl.round (x * q)) as [y| | |]; try done.
    apply leb_Fin. apply leb_Fin in H. lra.
  - unfold Fl.mul. rewrite (sign_neg q Hq). reflexivity.
Qed.

Lemma cutoff_order (pct1 pct2 m conf : float) :
  Fl.leb pct1 pct2 = true ->
  Fl.leb pct2 (Fin 100) = true \/ Fl.leb (Fin 0) m = true ->
  (Fl.isnan m = false -> Fl.leb conf m = true) ->
  Fl.is_double conf = true ->
  Fl.ltb (Fl.mul (Fl.div pct2 (Fin 100)) m) conf = true ->
  Fl.ltb (Fl.mul (Fl.div pct1 (Fin 100)) m) conf = true.
Proof.
  intros H12 Hdom Hmax Hdbl.
  pose proof (div_mono pct1 pct2 100 ltac:(reflexivity) H12) as Ht.
  assert (Fl.leb pct2 (Fin 100) = true ->
          Fl.leb (Fl.div pct2 (Fin 100)) (Fin 1) = true) as Hone.
  { intros H. apply (div_mono _ _ 100 ltac:(reflexivity)) in H.
    replace (Fl.div (Fin 100) (Fin 100)) with (Fin 1) in H
      by (vm_compute; reflexivity).
    exact H. }
  generalize dependent (Fl.div pct2 (Fin 100)).
  generalize dependent (Fl.div pct1 (Fin 100)).
  intros t1 t2 Ht Hone.
  destruct m as [q| | |].
  - specialize (Hmax eq_refl).
    destruct (Qcompare_spec q 0) as [Hq|Hq|Hq].
    + intros Hlt. exfalso.
      destruct conf as [c| | |]; try discriminate.
      * apply leb_Fin in Hmax.
        destruct (mul_zero t2 q Hq) as [E|E]; rewrite E in Hlt;
          [|discriminate].
        apply ltb_Fin in Hlt. lra.
      * by rewrite ltb_ninf_r in Hlt.
    + intros Hlt. exfalso.
      destruct Hdom as [H100|Hm]; [|apply leb_Fin in Hm; lra].
      destruct conf as [c| | |]; try discriminate.
      * apply leb_Fin in Hmax.
        pose proof (mul_neg_ge t2 q c Hq Hmax Hdbl (Hone H100)) as Hge.
        apply leb_ltb_false in Hge. congruence.
      * by rewrite ltb_ninf_r in Hlt.
    + apply leb_ltb_trans. by apply mul_mono_pos.
  - clear Hmax Hdom Hone. intros Hlt.
    destruct t2 as [x2| | |]; try discriminate.
    + unfold Fl.mul in Hlt. cbn [Fl.sign] in Hlt.
      destruct (Qcompare_spec x2 0) as [Hx|Hx|Hx]; try discriminate.
      * destruct t1 as [x1| | |]; try discriminate.
        -- apply leb_Fin in Ht. unfold Fl.mul.
           rewrite (sign_neg x1) by lra. exact Hlt.
        -- exact Hlt.
      * by rewrite ltb_pinf_l in Hlt.
    + by rewrite ltb_pinf_l in Hlt.
    + destruct t1; try discriminate. exact Hlt.
  - specialize (Hmax eq_refl). destruct conf; try discriminate.
    intros Hlt. by rewrite ltb_ninf_r in Hlt.
  - rewrite !mul_nan_r. done.
Qed.

(** ** Binary64 arithmetic: checks against the hardware

    The products and quotients of [Fl] are compared with those of the
    processor on operands that round, overflow and underflow. *)

#[local] Set Warnings "-inexact-float".

Example round_matches_literal :
  Fl.round (15 # 1000) = Fl.of_prim 0.015
  /\ Fl.round (1 # 10) = Fl.of_prim 0.1
  /\ Fl.round (- (2 # 3)) = Fl.of_prim (-0.66666666666666663).
Proof. vm_compute. repeat split. Qed.

Example mul_matches_hardware :
  Fl.mul (Fl.of_prim 0.015) (Fl.of_prim 100) = Fl.of_prim (0.015 * 100)
  /\ Fl.mul (Fl.of_prim (-0.1)) (Fl.of_prim 0.7) = Fl.of_prim (-0.1 * 0.7)
  /\ Fl.mul (Fl.of_prim 1e200) (Fl.of_prim 1e200)
     = Fl.of_prim (1e200 * 1e200)
  /\ Fl.mul (Fl.of_prim 1e-200) (Fl.of_prim 1.2345e-120)
     = Fl.of_prim (1e-200 * 1.2345e-120)
  /\ Fl.mul (Fl.of_prim 1e-200) (Fl.of_prim 1.2345e-130)
     = Fl.of_prim (1e-200 * 1.2345e-130)
  /\ Fl.mul (Fl.of_prim 3) (Fl.of_prim 2.6666666666666665)
     = Fl.of_prim (3 * 2.6666666666666665).
Proof. vm_compute. repeat split. Qed.

Example div_matches_hardware :
  Fl.div (Fl.of_prim 10) (Fl.of_prim 100) = Fl.of_prim (10 / 100)
  /\ Fl.div (Fl.of_prim 1) (Fl.of_prim 3) = Fl.of_prim (1 / 3)
  /\ Fl.div (Fl.of_prim 1080) (Fl.of_prim 518) = Fl.of_prim (1080 / 518)
  /\ Fl.div (Fl.of_prim 1e-310) (Fl.of_prim 100) = Fl.of_prim (1e-310 / 100)
  /\ Fl.div (Fl.of_prim 1e308) (Fl.of_prim 0.01) = Fl.of_prim (1e308 / 0.01).
Proof. vm_compute. repeat split. Qed.

(** The product [0.015 * 100] is exactly 1.5 in binary64, so that the
    coordinate 0.015 is quantized to 2; the exact product is below 1.5. *)
Example quantize_rounded_product :
  Np.quantize 100 (Fl.round (15 # 1000)) = 2
  /\ (match Fl.round (15 # 1000) with
      | Fin q => Np.round (q * 100)
      | _ => 0
      end) = 1.
Proof. vm_compute. repeat split. Qed.

(** The scale factor [30 / 22] is a rounded quotient and its product
    with the column 11 is rounded again, to a value below 15: the colour
    is read from column 14 of a 30 pixels wide image. *)
Example colour_lookup_rounding :
  (scale ← Py.truediv 30 22; orig_coord 11 scale 30) = Some 14
  /\ Py.int_of_Q (11 * (30 # 22)) = 15.
Proof. vm_compute. split; reflexivity. Qed.

#[local] Set Warnings "+inexact-float".

(** ** Python primitives: checks against CPython *)

Example hash_tuple_123 :
  Py.hash_tuple (map Py.hash_int [1; 2; 3]) = 529344067295497451.
Proof. vm_compute. reflexivity. Qed.

Example hash_tuple_empty : Py.hash_tuple [] = 5740354900026072187.
Proof. vm_compute. reflexivity. Qed.

Example range_4_2 : Py.range 4 2 = Some [0; 2].
Proof. reflexivity. Qed.

Example range_5_2 : Py.range 5 2 = Some [0; 2; 4].
Proof. reflexivity. Qed.

Example range_neg_step : Py.range 5 (-1) = Some [].
Proof. reflexivity. Qed.


(** ** Auxiliary facts *)

Lemma Qltb_lt (a b : Q) : Np.Qltb a b = true <-> (a < b)%Q.
Proof. unfold Np.Qltb, Qlt. apply Z.ltb_lt. Qed.

Lemma Qltb_ge (a b : Q) : Np.Qltb a b = false <-> (b <= a)%Q.
Proof. unfold Np.Qltb, Qle. rewrite Z.ltb_ge. reflexivity. Qed.

Section Range.

Variable step : Z.
Hypothesis step_pos : 0 < step.

Lemma range_len_ceil (stop : Z) :
  0 <= stop -> Py.range_len stop step = ceil_div stop step.
Proof.
  intros Hs. unfold Py.range_len, ceil_div.
  destruct (Z.ltb_spec 0 step) as [_|]; [|lia].
  destruct (Z.ltb_spec 0 stop) as [Hp|Hz].
  - replace (stop + step - 1) with (stop - 1 + 1 * step) by lia.
    rewrite Z.div_add by lia. reflexivity.
  - assert (stop = 0) as -> by lia.
    symmetry. apply Z.div_small. lia.
Qed.

Lemma range_len_nonneg (stop : Z) : 0 <= Py.range_len stop step.
Proof.
  unfold Py.range_len.
  destruct (Z.ltb_spec 0 step) as [_|]; [|lia].
  destruct (Z.ltb_spec 0 stop); [|lia].
  assert (0 <= (stop - 1) / step) by (apply Z.div_pos; lia). lia.
Qed.

Lemma range_defined (stop : Z) :
  Py.range stop step =
  Some (map (fun i : nat => Z.of_nat i * step)
            (seq 0 (Z.to_nat (Py.range_len stop step)))).
Proof.
  unfold Py.range. destruct (Z.eqb_spec step 0); [lia|reflexivity].
Qed.

Lemma range_length (stop : Z) (l : list Z) :
  Py.range stop step = Some l ->
  Z.of_nat (length l) = Py.range_len stop step.
Proof.
  rewrite range_defined. intros [= <-].
  rewrite length_map, length_seq.
  pose proof (range_len_nonneg stop). lia.
Qed.

(** The items are the multiples of the step below the bound. *)
Lemma range_elem (stop : Z) (l : list Z) (y : Z) :
  Py.range stop step = Some l ->
  y ∈ l <-> 0 <= y < stop /\ (step | y).
Proof.
  rewrite range_defined. intros [= <-].
  rewrite list_elem_of_In, in_map_iff.
  pose proof (range_len_nonneg stop) as Hn.
  unfold Py.range_len in *.
  destruct (Z.ltb_spec 0 step) as [_|]; [|lia].
  split.
  - intros (i & <- & Hi). apply in_seq in Hi.
    destruct (Z.ltb_spec 0 stop) as [Hp|Hz]; [|simpl in Hi; lia].
    split; [|exists (Z.of_nat i); reflexivity].
    assert (Z.of_nat i <= (stop - 1) / step) as Hle by lia.
    assert (Z.of_nat i * step <= stop - 1); [|lia].
    pose proof (Z.mul_div_le (stop - 1) step step_pos).
    nia.
  - intros [[Hy0 Hy] [k ->]].
    assert (0 <= k) by nia.
    exists (Z.to_nat k). split; [lia|].
    apply in_seq. split; [lia|]. simpl.
    destruct (Z.ltb_spec 0 stop) as [Hp|Hz]; [|lia].
    assert (k <= (stop - 1) / step); [|lia].
    apply Z.div_le_lower_bound; lia.
Qed.

Lemma range_NoDup (stop : Z) (l : list Z) :
  Py.range stop step = Some l -> NoDup l.
Proof.
  rewrite range_defined. intros [= <-].
  apply NoDup_fmap_2; [|apply NoDup_seq].
  intros i j Hij. nia.
Qed.

End Range.


Lemma ceil_div_nonneg (a s : Z) : 0 <= a -> 1 <= s -> 0 <= ceil_div a s.
Proof. intros. unfold ceil_div. apply Z.div_pos; lia. Qed.

Lemma length_bind_pairs {A B : Type} (ys : list A) (xs : list B) :
  length (y ← ys; x ← xs; [(y, x)]) = (length ys * length xs)%nat.
Proof.
  induction ys as [|y ys IH]; [reflexivity|].
  cbn [mbind list_bind]. rewrite length_app, IH. cbn [length Nat.mul].
  f_equal. clear. induction xs as [|x xs IH]; [reflexivity|].
  cbn. f_equal. exact IH.
Qed.

Lemma elem_of_bind_pairs {A B : Type} (ys : list A) (xs : list B) (y : A) (x : B) :
  (y, x) ∈ (y ← ys; x ← xs; [(y, x)]) <-> y ∈ ys /\ x ∈ xs.
Proof.
  rewrite list_elem_of_bind. split.
  - intros (y' & Hin & Hy'). apply list_elem_of_bind in Hin.
    destruct Hin as (x' & Hin & Hx').
    apply list_elem_of_singleton in Hin. injection Hin as -> ->. done.
  - intros [Hy Hx]. exists y. split; [|done].
    apply list_elem_of_bind. exists x. split; [|done].
    by apply list_elem_of_singleton.
Qed.

Lemma NoDup_bind_pairs {A B : Type} (ys : list A) (xs : list B) :
  NoDup ys -> NoDup xs -> NoDup (y ← ys; x ← xs; [(y, x)]).
Proof.
  intros Hys Hxs. induction Hys as [|y ys Hy Hys IH]; [constructor|].
  cbn [mbind list_bind]. apply NoDup_app. split; [|split; [|exact IH]].
  - clear -Hxs. induction Hxs as [|x xs Hx Hxs IH]; [constructor|].
    cbn. constructor; [|exact IH].
    intros Hin. apply list_elem_of_bind in Hin.
    destruct Hin as (x' & Hin & Hx').
    apply list_elem_of_singleton in Hin. injection Hin as ->. done.
  - intros [y' x'] Hin1 Hin2.
    apply list_elem_of_bind in Hin1. destruct Hin1 as (x'' & Hin1 & _).
    apply list_elem_of_singleton in Hin1. injection Hin1 as -> ->.
    apply elem_of_bind_pairs in Hin2. destruct Hin2 as [Hin2 _]. done.
Qed.

Lemma sample_positions_defined (h w : nat) (S : Z) :
  1 <= S ->
  exists ys xs,
    Py.range (Z.of_nat h) S = Some ys /\ Py.range (Z.of_nat w) S = Some xs /\
    sample_positions h w S = Some (y ← ys; x ← xs; [(y, x)]).
Proof.
  intros HS. unfold sample_positions.
  rewrite !range_defined by lia. eexists _, _.
  split; [reflexivity|]. split; reflexivity.
Qed.

Lemma sample_positions_length (h w : nat) (S : Z) (ps : list (Z * Z)) :
  1 <= S -> sample_positions h w S = Some ps ->
  Z.of_nat (length ps) = ceil_div (Z.of_nat h) S * ceil_div (Z.of_nat w) S.
Proof.
  intros HS Hps.
  destruct (sample_positions_defined h w S HS) as (ys & xs & Hys & Hxs & Heq).
  rewrite Heq in Hps. injection Hps as <-.
  rewrite length_bind_pairs, Nat2Z.inj_mul.
  rewrite (range_length S ltac:(lia) _ _ Hys), (range_length S ltac:(lia) _ _ Hxs).
  rewrite !range_len_ceil by lia. reflexivity.
Qed.

(** ** The confidence cutoff *)

Lemma fmax_cases (a b : float) : Np.fmax a b = a \/ Np.fmax a b = b.
Proof.
  unfold Np.fmax. destruct (Fl.isnan a); [by left|].
  destruct (Fl.isnan b); [by right|].
  destruct (Fl.ltb a b); [by right|by left].
Qed.

Lemma fmax_ub (a b : float) :
  Fl.isnan (Np.fmax a b) = false ->
  Fl.leb a (Np.fmax a b) = true /\ Fl.leb b (Np.fmax a b) = true.
Proof.
  unfold Np.fmax. destruct (Fl.isnan a) eqn:Ea; [congruence|].
  destruct (Fl.isnan b) eqn:Eb; [congruence|].
  destruct (Fl.ltb a b) eqn:E; intros _.
  - split; [|by apply leb_refl].
    destruct a as [x| | |], b as [y| | |]; try done.
    apply ltb_Fin in E. apply leb_Fin. lra.
  - split; [by apply leb_refl|]. by apply ltb_false_leb in E.
Qed.

Lemma fold_fmax_spec (cs : list float) (c : float) :
  let m := fold_left Np.fmax cs c in
  m ∈ c :: cs
  /\ (Fl.isnan m = false -> forall v, v ∈ c :: cs -> Fl.leb v m = true).
Proof.
  revert c. induction cs as [|d cs IH]; intros c; cbn.
  - split; [left|]. intros Hm v Hv. apply list_elem_of_singleton in Hv as ->.
    by apply leb_refl.
  - destruct (IH (Np.fmax c d)) as [Hin Hub]. split.
    + apply elem_of_cons in Hin as [Heq|Hin].
      * rewrite Heq. destruct (fmax_cases c d) as [->| ->]; [left|right; left].
      * right; right; exact Hin.
    + intros Hm v Hv. specialize (Hub Hm).
      assert (Fl.leb (Np.fmax c d) (fold_left Np.fmax cs (Np.fmax c d)) = true)
        as Hcd by (apply Hub; left).
      destruct (leb_not_nan _ _ Hcd) as [Hnan _].
      destruct (fmax_ub c d Hnan) as [Hc Hd].
      apply elem_of_cons in Hv as [->|Hv]; [by eapply leb_trans|].
      apply elem_of_cons in Hv as [->|Hv]; [by eapply leb_trans|].
      apply Hub. right. exact Hv.
Qed.

(** [np.max] returns an item of the array; unless it is a NaN, no item
    is a NaN and every item is at most the maximum. *)
Lemma np_max_spec (a : Np.ndarray float) (m : float) :
  Np.max a = Some m ->
  m ∈ Np.items a
  /\ (Fl.isnan m = false -> forall v, v ∈ Np.items a -> Fl.leb v m = true).
Proof.
  unfold Np.max. destruct (Np.items a) as [|c cs]; [discriminate|].
  intros [= <-]. apply fold_fmax_spec.
Qed.

Lemma fdiv_100 (v : float) : Py.fdiv v (Fin 100) = Some (Fl.div v (Fin 100)).
Proof. reflexivity. Qed.

Lemma conf_cutoff_max (predictions : Predictions) (pct cutoff : float) :
  conf_cutoff predictions pct = Some cutoff <->
  exists m,
    Np.max (depth_conf predictions) = Some m
    /\ cutoff = Fl.mul (Fl.div pct (Fin 100)) m.
Proof.
  unfold conf_cutoff.
  destruct (Np.max (depth_conf predictions)) as [m|]; cbn.
  - split; [intros [= <-]; eauto|]. intros (m' & [= <-] & ->). reflexivity.
  - split; [discriminate|]. intros (m' & ? & _). discriminate.
Qed.

Lemma index_Some (size : nat) (i : Z) (j : nat) :
  Np.index size i = Some j -> (j < size)%nat.
Proof.
  unfold Np.index. intros H.
  destruct (_ && _) eqn:E; [|discriminate]. injection H as <-.
  apply andb_true_iff in E as [E1 E2]. lia.
Qed.

Lemma index_nonneg (size : nat) (i : Z) :
  0 <= i < Z.of_nat size -> Np.index size i = Some (Z.to_nat i).
Proof.
  intros Hi. unfold Np.index.
  destruct (Z.ltb_spec i 0); [lia|].
  destruct (Z.leb_spec 0 i); [|lia].
  destruct (Z.ltb_spec i (Z.of_nat size)); [|lia]. reflexivity.
Qed.

Lemma elem_of_items {A} (a : Np.ndarray A) (v : A) :
  v ∈ Np.items a <->
  exists i y x : nat,
    (i < (Np.shape a).1.1 /\ y < (Np.shape a).1.2 /\ x < (Np.shape a).2)%nat
    /\ Np.item a i y x = v.
Proof.
  unfold Np.items. destruct (Np.shape a) as [[n h] w]. cbn [fst snd].
  rewrite list_elem_of_bind. split.
  - intros (i & Hv & Hi). apply list_elem_of_bind in Hv as (y & Hv & Hy).
    apply list_elem_of_bind in Hv as (x & Hv & Hx).
    apply list_elem_of_singleton in Hv.
    apply elem_of_seq in Hi, Hy, Hx.
    exists i, y, x. split; [lia|done].
  - intros (i & y & x & (Hi & Hy & Hx) & <-).
    exists i. split; [|apply elem_of_seq; lia].
    apply list_elem_of_bind. exists y. split; [|apply elem_of_seq; lia].
    apply list_elem_of_bind. exists x. split; [|apply elem_of_seq; lia].
    by apply list_elem_of_singleton.
Qed.

Lemma getitem_items {A} (a : Np.ndarray A) (i : nat) (y x : Z) (v : A) :
  Np.getitem a i y x = Some v -> v ∈ Np.items a.
Proof.
  unfold Np.getitem. intros H. apply elem_of_items.
  destruct (Np.shape a) as [[n h] w]. cbn [fst snd].
  destruct (Np.index n (Z.of_nat i)) as [i'|] eqn:Ei; [|discriminate].
  destruct (Np.index h y) as [y'|] eqn:Ey; [|discriminate].
  destruct (Np.index w x) as [x'|] eqn:Ex; [|discriminate].
  cbn in H. injection H as <-.
  apply index_Some in Ei, Ey, Ex. eauto 10.
Qed.

(** ** The aggregation as a registration of the accepted samples *)

Lemma foldlM_app {A S : Type} (f : S -> A -> option S) (l1 l2 : list A) (s : S) :
  foldlM f (l1 ++ l2) s = foldlM f l1 s ≫= foldlM f l2.
Proof.
  revert s. induction l1 as [|a l1 IH]; intros s; [reflexivity|].
  cbn. destruct (f s a) as [s'|]; cbn; [apply IH|reflexivity].
Qed.

Lemma process_sample_at (predictions : Predictions) (cutoff : float)
    (flags : mask_flags) (orig_img : image) (scale_y scale_x : float)
    (img_idx : nat) (st : agg_state) (yx : Z * Z) :
  process_sample predictions cutoff flags orig_img scale_y scale_x img_idx
    st yx =
  verdict ← sample_at predictions cutoff flags orig_img scale_y scale_x
              img_idx yx;
  match verdict with
  | Some s => register st s
  | None => Some st
  end.
Proof.
  unfold process_sample, sample_at.
  destruct (sample_filter predictions cutoff flags orig_img scale_y scale_x
              img_idx yx.1 yx.2) as [[[p c]|]|]; reflexivity.
Qed.

Lemma process_samples_split (predictions : Predictions) (cutoff : float)
    (flags : mask_flags) (orig_img : image) (scale_y scale_x : float)
    (img_idx : nat) (positions : list (Z * Z)) (st : agg_state) :
  foldlM (process_sample predictions cutoff flags orig_img scale_y scale_x
            img_idx) positions st =
  verdicts ← mapM (sample_at predictions cutoff flags orig_img scale_y
                     scale_x img_idx) positions;
  foldlM register (omap (fun v => v) verdicts) st.
Proof.
  revert st. induction positions as [|yx ps IH]; intros st; [reflexivity|].
  cbn [foldlM mapM]. rewrite process_sample_at.
  destruct (sample_at predictions cutoff flags orig_img scale_y scale_x
              img_idx yx) as [[s|]|]; cbn [mbind option_bind].
  - destruct (register st s) as [st'|] eqn:Hreg; cbn [mbind option_bind].
    + rewrite IH. destruct (mapM _ ps); cbn; [|reflexivity].
      rewrite Hreg. reflexivity.
    + destruct (mapM _ ps); cbn; [|reflexivity].
      rewrite Hreg. reflexivity.
  - rewrite IH. destruct (mapM _ ps); reflexivity.
  - reflexivity.
Qed.

Lemma process_image_split (predictions : Predictions) (cutoff : float)
    (flags : mask_flags) (stride : Z) (st : agg_state) (img_idx : nat) :
  process_image predictions cutoff flags stride st img_idx =
  ss ← image_samples predictions cutoff flags stride img_idx;
  foldlM register ss st.
Proof.
  unfold process_image, image_samples.
  destruct (Np.shape _) as [[n h] w].
  destruct (original_images predictions !! img_idx) as [orig_img|];
    [|reflexivity]; cbn.
  destruct (Py.truediv _ (Z.of_nat h)) as [scale_y|]; [|reflexivity]; cbn.
  destruct (Py.truediv _ (Z.of_nat w)) as [scale_x|]; [|reflexivity]; cbn.
  destruct (sample_positions h w stride) as [positions|]; [|reflexivity]; cbn.
  rewrite process_samples_split.
  destruct (mapM _ positions); reflexivity.
Qed.

Lemma process_images_split (predictions : Predictions) (cutoff : float)
    (flags : mask_flags) (stride : Z) (imgs : list nat) (st : agg_state) :
  foldlM (process_image predictions cutoff flags stride) imgs st =
  per_image ← mapM (image_samples predictions cutoff flags stride) imgs;
  foldlM register (concat per_image) st.
Proof.
  revert st. induction imgs as [|i imgs IH]; intros st; [reflexivity|].
  cbn [foldlM mapM]. rewrite process_image_split.
  destruct (image_samples _ _ _ _ i) as [ss|]; [|reflexivity]; cbn.
  destruct (foldlM register ss st) as [st'|] eqn:Hss; cbn.
  - rewrite IH. destruct (mapM _ imgs); cbn; [|reflexivity].
    rewrite foldlM_app, Hss. reflexivity.
  - destruct (mapM _ imgs); cbn; [|reflexivity].
    rewrite foldlM_app, Hss. reflexivity.
Qed.

(** The aggregation registers the accepted samples in processing order. *)
Lemma aggregate_samples (predictions : Predictions) (cutoff : float)
    (flags : mask_flags) (stride : Z) :
  aggregate predictions cutoff flags stride =
  ss ← accepted_samples predictions cutoff flags stride;
  st ← foldlM register ss
         {| points3D := []; point_indices := ∅;
            image_points2D := replicate (depth predictions).1.1 [] |};
  Some (points3D st, image_points2D st).
Proof.
  unfold aggregate, accepted_samples. rewrite process_images_split.
  destruct (mapM _ _); reflexivity.
Qed.

(** ** The invariant of the containers *)

Lemma all_tracks_app (l1 l2 : list (point_entry float)) :
  all_tracks (l1 ++ l2) = all_tracks l1 ++ all_tracks l2.
Proof. unfold all_tracks. rewrite fmap_app, concat_app. reflexivity. Qed.

Lemma elem_of_all_tracks (pts : list (point_entry float)) (t : nat * nat) :
  t ∈ all_tracks pts <->
  exists p e, pts !! p = Some e /\ t ∈ pt_track e.
Proof.
  unfold all_tracks. rewrite list_elem_of_In, in_concat. split.
  - intros (tr & Htr & Ht). apply list_elem_of_In in Htr, Ht.
    apply list_elem_of_fmap in Htr as (e & -> & He).
    apply list_elem_of_lookup in He as [p Hp]. eauto.
  - intros (p & e & Hp & Ht). exists (pt_track e).
    rewrite <- !list_elem_of_In. split; [|done].
    apply list_elem_of_fmap. exists e. split; [done|].
    apply list_elem_of_lookup. eauto.
Qed.

(** Appending an entry to the track of one point adds it to the tracks
    of all points, up to order. *)
Lemma all_tracks_insert (pts : list (point_entry float)) (p : nat)
    (e e' : point_entry float) (t : nat * nat) :
  pts !! p = Some e -> pt_track e' = pt_track e ++ [t] ->
  all_tracks (<[p := e']> pts) ≡ₚ t :: all_tracks pts.
Proof.
  intros Hp He'.
  rewrite <- (take_drop_middle pts p e Hp) at 2.
  rewrite insert_take_drop by (eapply lookup_lt_Some; eauto).
  rewrite !all_tracks_app.
  change (e' :: drop (S p) pts) with ([e'] ++ drop (S p) pts).
  change (e :: drop (S p) pts) with ([e] ++ drop (S p) pts).
  rewrite !all_tracks_app. unfold all_tracks at 2 5. cbn.
  rewrite !app_nil_r, He', <- app_assoc. cbn [app].
  symmetry. etrans; [apply Permutation_middle|].
  apply Permutation_app_head, Permutation_middle.
Qed.

Lemma keypoints_insert_Some (kps : list (list keypoint)) (img img' : nat)
    (kl kl' : list keypoint) (new : keypoint) :
  kps !! img = Some kl ->
  <[img := kl ++ [new]]> kps !! img' = Some kl' ->
  (img' = img /\ kl' = kl ++ [new]) \/ (img' <> img /\ kps !! img' = Some kl').
Proof.
  intros Hkl H. apply list_lookup_insert_Some in H as [(-> & <- & _)|[Hne H]].
  - by left.
  - right. split; [congruence|done].
Qed.

Lemma keypoints_insert_old (kps : list (list keypoint)) (img img' : nat)
    (kl kl' : list keypoint) (new v : keypoint) (k : nat) :
  kps !! img = Some kl ->
  kps !! img' = Some kl' -> kl' !! k = Some v ->
  exists kl'', <[img := kl ++ [new]]> kps !! img' = Some kl''
               /\ kl'' !! k = Some v.
Proof.
  intros Hkl Hkl' Hk. destruct (decide (img' = img)) as [->|Hne].
  - exists (kl ++ [new]). split.
    + apply list_lookup_insert_eq. eapply lookup_lt_Some; eauto.
    + rewrite Hkl in Hkl'. injection Hkl' as <-.
      apply lookup_app_l_Some. exact Hk.
  - exists kl'. split; [|done]. rewrite list_lookup_insert_ne; done.
Qed.

Lemma keypoints_insert_new (kps : list (list keypoint)) (img : nat)
    (kl : list keypoint) (new : keypoint) :
  kps !! img = Some kl ->
  exists kl', <[img := kl ++ [new]]> kps !! img = Some kl'
              /\ kl' !! length kl = Some new.
Proof.
  intros Hkl. exists (kl ++ [new]). split.
  - apply list_lookup_insert_eq. eapply lookup_lt_Some; eauto.
  - apply list_lookup_middle. reflexivity.
Qed.

Lemma keypoint_of_mono (st st' : agg_state) (kp : keypoint) (s : sample) :
  (forall h v, point_indices st !! h = Some v ->
               point_indices st' !! h = Some v) ->
  keypoint_of st kp s -> keypoint_of st' kp s.
Proof. intros Hmono (? & ? & ?). repeat split; auto. Qed.

Lemma filter_img_snoc (registered : list sample) (s : sample) (img : nat) :
  filter (fun s => smp_img s = img) (registered ++ [s]) =
  filter (fun s => smp_img s = img) registered
  ++ (if decide (smp_img s = img) then [s] else []).
Proof.
  rewrite filter_app. f_equal.
Qed.

(** The track of a fresh sample is new: every recorded track entry of an
    image points below the length of its keypoint list. *)
Lemma fresh_track_entry (st : agg_state) (registered : list sample)
    (img : nat) (kl : list keypoint) :
  agg_inv st registered -> image_points2D st !! img = Some kl ->
  (img, length kl) ∉ all_tracks (points3D st).
Proof.
  intros Hinv Hkl Hin. apply elem_of_all_tracks in Hin as (p & e & Hp & Ht).
  destruct (inv_track _ _ Hinv _ _ _ _ Hp Ht) as (kl' & x & y & Hkl' & Hk).
  rewrite Hkl in Hkl'. injection Hkl' as <-.
  apply lookup_lt_Some in Hk. lia.
Qed.

(** Registering a sample whose key is already known. *)
Lemma register_existing_inv (st : agg_state) (registered : list sample)
    (img : nat) (y x : Z) (pt : point) (rgb : color)
    (kl : list keypoint) (pi : nat) (e : point_entry float) :
  agg_inv st registered ->
  image_points2D st !! img = Some kl ->
  point_indices st !! hash_point pt 100 = Some pi ->
  points3D st !! pi = Some e ->
  agg_inv
    {| points3D :=
         <[pi := {| pt_id := pt_id e; pt_xyz := pt_xyz e; pt_rgb := pt_rgb e;
                    pt_error := pt_error e;
                    pt_track := pt_track e ++ [(img, length kl)] |}]>
           (points3D st);
       point_indices := point_indices st;
       image_points2D := <[img := kl ++ [(x, y, pi)]]> (image_points2D st) |}
    (registered ++ [(img, y, x, pt, rgb)]).
Proof.
  intros Hinv Hkl Hidx He.
  set (e' := {| pt_id := pt_id e; pt_track := _ |}).
  assert (forall p e1, <[pi := e']> (points3D st) !! p = Some e1 ->
            (p = pi /\ e1 = e') \/ (p <> pi /\ points3D st !! p = Some e1))
    as Hpts.
  { intros p e1 H. apply list_lookup_insert_Some in H as [(-> & <- & _)|[? ?]];
      [left|right]; done. }
  assert (forall p e1, points3D st !! p = Some e1 ->
            exists e2, <[pi := e']> (points3D st) !! p = Some e2
                       /\ pt_xyz e2 = pt_xyz e1
                       /\ forall t, t ∈ pt_track e1 -> t ∈ pt_track e2)
    as Hold.
  { intros p e1 H. destruct (decide (p = pi)) as [->|Hne].
    - exists e'. assert (e1 = e) as -> by congruence.
      split; [apply list_lookup_insert_eq; eapply lookup_lt_Some; eauto|].
      split; [reflexivity|]. intros t Ht. cbn. apply elem_of_app. by left.
    - exists e1. rewrite list_lookup_insert_ne by done. done. }
  constructor; cbn [points3D point_indices image_points2D].
  - intros i e1 H. apply Hpts in H as [[-> ->]|[_ H]].
    + cbn. eapply inv_ids; eauto.
    + eapply inv_ids; eauto.
  - intros h i H. destruct (inv_index _ _ Hinv _ _ H) as (e1 & H1 & Hh).
    destruct (Hold _ _ H1) as (e2 & H2 & Hxyz & _).
    exists e2. split; [done|]. by rewrite Hxyz.
  - rewrite length_insert. eapply inv_size; eauto.
  - rewrite fmap_app, list_to_set_app_L, <- (inv_dom _ _ Hinv). cbn.
    assert (hash_point pt 100 ∈ dom (point_indices st)) as Hin
      by (apply elem_of_dom; eauto).
    unfold sample_key, smp_point. cbn [snd fst].
    rewrite union_empty_r_L. apply set_eq. intros k.
    rewrite elem_of_union, elem_of_singleton. split; [by left|].
    intros [?| ->]; done.
  - intros p e1 img1 k H Ht. apply Hpts in H as [[-> ->]|[_ H]].
    + cbn in Ht. apply elem_of_app in Ht as [Ht|Ht].
      * destruct (inv_track _ _ Hinv _ _ _ _ He Ht) as (kl1 & x1 & y1 & ? & ?).
        destruct (keypoints_insert_old (image_points2D st) img img1 kl kl1 (x, y, pi)
                    (x1, y1, pi) k) as (kl2 & ? & ?); eauto.
      * apply list_elem_of_singleton in Ht. injection Ht as -> ->.
        destruct (keypoints_insert_new (image_points2D st) img kl (x, y, pi) Hkl)
          as (kl2 & ? & ?); eauto.
    + destruct (inv_track _ _ Hinv _ _ _ _ H Ht) as (kl1 & x1 & y1 & ? & ?).
      destruct (keypoints_insert_old (image_points2D st) img img1 kl kl1 (x, y, pi)
                  (x1, y1, p) k) as (kl2 & ? & ?); eauto.
  - intros img1 kl1 k x1 y1 p H Hk.
    apply (keypoints_insert_Some _ _ _ _ _ _ Hkl) in H as [[-> ->]|[_ H]].
    + apply lookup_app_Some in Hk as [Hk|[Hge Hk]].
      * destruct (inv_cover _ _ Hinv _ _ _ _ _ _ Hkl Hk) as (e1 & H1 & Ht).
        destruct (Hold _ _ H1) as (e2 & ? & _ & Hsub). eauto.
      * apply list_lookup_singleton_Some in Hk as [Hk0 Hk].
        injection Hk as <- <- <-. assert (k = length kl) as -> by lia.
        exists e'. split.
        -- apply list_lookup_insert_eq. eapply lookup_lt_Some; eauto.
        -- cbn. apply elem_of_app. right. by apply list_elem_of_singleton.
    + destruct (inv_cover _ _ Hinv _ _ _ _ _ _ H Hk) as (e1 & H1 & Ht).
      destruct (Hold _ _ H1) as (e2 & ? & _ & Hsub). eauto.
  - rewrite (all_tracks_insert _ pi e e' (img, length kl) He eq_refl).
    constructor; [|eapply inv_nodup; eauto].
    eapply fresh_track_entry; eauto.
  - intros img1 kl1 H. rewrite filter_img_snoc. cbn [smp_img fst].
    apply (keypoints_insert_Some _ _ _ _ _ _ Hkl) in H as [[-> ->]|[Hne H]].
    + rewrite decide_True by done. apply Forall2_app.
      * eapply Forall2_impl; [eapply inv_kps; eauto|]. intros kp s Hkp. exact Hkp.
      * constructor; [|constructor]. repeat split. exact Hidx.
    + rewrite decide_False by done. rewrite app_nil_r.
      eapply Forall2_impl; [eapply inv_kps; eauto|]. intros kp s Hkp. exact Hkp.
  - rewrite length_insert. apply Forall_app. split; [eapply inv_imgs; eauto|].
    constructor; [|constructor]. cbn. eapply lookup_lt_Some; eauto.
Qed.

(** Registering a sample whose key is new. *)
Lemma register_new_inv (st : agg_state) (registered : list sample)
    (img : nat) (y x : Z) (pt : point) (rgb : color) (kl : list keypoint) :
  agg_inv st registered ->
  image_points2D st !! img = Some kl ->
  point_indices st !! hash_point pt 100 = None ->
  agg_inv
    {| points3D :=
         points3D st ++
         [{| pt_id := length (points3D st); pt_xyz := pt; pt_rgb := rgb;
             pt_error := Fin 1; pt_track := [(img, length kl)] |}];
       point_indices :=
         <[hash_point pt 100 := length (points3D st)]> (point_indices st);
       image_points2D :=
         <[img := kl ++ [(x, y, length (points3D st))]]> (image_points2D st) |}
    (registered ++ [(img, y, x, pt, rgb)]).
Proof.
  intros Hinv Hkl Hidx.
  set (n := length (points3D st)).
  set (e' := {| pt_id := n; pt_track := _ |}).
  assert (forall p e1, (points3D st ++ [e']) !! p = Some e1 ->
            (p = n /\ e1 = e') \/ (p <> n /\ points3D st !! p = Some e1))
    as Hpts.
  { intros p e1 H. apply lookup_app_Some in H as [H|[Hge H]].
    - right. split; [|done]. apply lookup_lt_Some in H. unfold n. lia.
    - apply list_lookup_singleton_Some in H as [H0 <-]. left.
      split; [unfold n; lia|done]. }
  assert (forall h v, point_indices st !! h = Some v ->
            <[hash_point pt 100 := n]> (point_indices st) !! h = Some v)
    as Hmono.
  { intros h v H. rewrite lookup_insert_ne; [done|]. congruence. }
  constructor; cbn [points3D point_indices image_points2D].
  - intros i e1 H. apply Hpts in H as [[-> ->]|[_ H]].
    + reflexivity.
    + eapply inv_ids; eauto.
  - intros h i H. apply lookup_insert_Some in H as [[<- <-]|[Hne H]].
    + exists e'. split; [|reflexivity]. apply list_lookup_middle. reflexivity.
    + destruct (inv_index _ _ Hinv _ _ H) as (e1 & H1 & Hh).
      exists e1. split; [|done]. by apply lookup_app_l_Some.
  - rewrite length_app, map_size_insert_None by done. cbn.
    rewrite (inv_size _ _ Hinv). lia.
  - rewrite fmap_app, list_to_set_app_L, <- (inv_dom _ _ Hinv), dom_insert_L.
    cbn. unfold sample_key, smp_point. cbn [snd fst].
    rewrite union_empty_r_L. apply union_comm_L.
  - intros p e1 img1 k H Ht. apply Hpts in H as [[-> ->]|[_ H]].
    + cbn in Ht. apply list_elem_of_singleton in Ht. injection Ht as -> ->.
      destruct (keypoints_insert_new (image_points2D st) img kl (x, y, n) Hkl)
        as (kl2 & ? & ?); eauto.
    + destruct (inv_track _ _ Hinv _ _ _ _ H Ht) as (kl1 & x1 & y1 & ? & ?).
      destruct (keypoints_insert_old (image_points2D st) img img1 kl kl1
                  (x, y, n) (x1, y1, p) k) as (kl2 & ? & ?); eauto.
  - intros img1 kl1 k x1 y1 p H Hk.
    assert (forall e1, points3D st !! p = Some e1 ->
              (points3D st ++ [e']) !! p = Some e1) as Hold
      by (intros; by apply lookup_app_l_Some).
    apply (keypoints_insert_Some _ _ _ _ _ _ Hkl) in H as [[-> ->]|[_ H]].
    + apply lookup_app_Some in Hk as [Hk|[Hge Hk]].
      * destruct (inv_cover _ _ Hinv _ _ _ _ _ _ Hkl Hk) as (e1 & H1 & Ht).
        eauto.
      * apply list_lookup_singleton_Some in Hk as [Hk0 Hk].
        injection Hk as <- <- <-. assert (k = length kl) as -> by lia.
        exists e'. split.
        -- apply list_lookup_middle. reflexivity.
        -- cbn. by apply list_elem_of_singleton.
    + destruct (inv_cover _ _ Hinv _ _ _ _ _ _ H Hk) as (e1 & H1 & Ht). eauto.
  - rewrite all_tracks_app. unfold all_tracks at 2. cbn.
    apply NoDup_app. split; [eapply inv_nodup; eauto|]. split.
    + intros t Ht Ht'. apply list_elem_of_singleton in Ht' as ->.
      eapply fresh_track_entry; eauto.
    + apply NoDup_singleton.
  - intros img1 kl1 H. rewrite filter_img_snoc. cbn [smp_img fst].
    apply (keypoints_insert_Some _ _ _ _ _ _ Hkl) in H as [[-> ->]|[Hne H]].
    + rewrite decide_True by done. apply Forall2_app.
      * eapply Forall2_impl; [eapply inv_kps; eauto|].
        intros kp s Hkp. eapply keypoint_of_mono; [|exact Hkp]. exact Hmono.
      * constructor; [|constructor]. repeat split. cbn.
        unfold sample_key, smp_point. cbn. apply lookup_insert_eq.
    + rewrite decide_False by done. rewrite app_nil_r.
      eapply Forall2_impl; [eapply inv_kps; eauto|].
      intros kp s Hkp. eapply keypoint_of_mono; [|exact Hkp]. exact Hmono.
  - rewrite length_insert. apply Forall_app. split; [eapply inv_imgs; eauto|].
    constructor; [|constructor]. cbn. eapply lookup_lt_Some; eauto.
Qed.

Lemma register_inv (st st' : agg_state) (registered : list sample) (s : sample) :
  agg_inv st registered -> register st s = Some st' ->
  agg_inv st' (registered ++ [s]).
Proof.
  intros Hinv Hreg. destruct s as [[[[img y] x] pt] rgb].
  unfold register, record_sample in Hreg.
  cbn [smp_img smp_y smp_x smp_point smp_rgb fst snd] in Hreg.
  destruct (image_points2D st !! img) as [kl|] eqn:Hkl; [|discriminate].
  cbn [mbind option_bind] in Hreg.
  destruct (point_indices st !! hash_point pt 100) as [pi|] eqn:Hidx.
  - destruct (points3D st !! pi) as [e|] eqn:He; [|discriminate].
    cbn in Hreg. injection Hreg as <-.
    by apply register_existing_inv.
  - cbn in Hreg. injection Hreg as <-. by apply register_new_inv.
Qed.

Lemma foldlM_register_inv (ss registered : list sample) (st st' : agg_state) :
  agg_inv st registered -> foldlM register ss st = Some st' ->
  agg_inv st' (registered ++ ss).
Proof.
  revert registered st. induction ss as [|s ss IH]; intros registered st Hinv H.
  - cbn in H. injection H as <-. by rewrite app_nil_r.
  - cbn in H. destruct (register st s) as [st1|] eqn:Hreg; [|discriminate].
    cbn in H. rewrite (cons_middle s registered ss), app_assoc.
    eapply IH; [|exact H]. eapply register_inv; eauto.
Qed.

Lemma agg_inv_init (n : nat) :
  agg_inv {| points3D := []; point_indices := ∅;
             image_points2D := replicate n [] |} [].
Proof.
  constructor; cbn [points3D point_indices image_points2D].
  - intros i e H. by rewrite lookup_nil in H.
  - intros h i H. by rewrite lookup_empty in H.
  - rewrite map_size_empty. reflexivity.
  - rewrite dom_empty_L. reflexivity.
  - intros p e img k H. by rewrite lookup_nil in H.
  - intros img kl k x y p H Hk. apply lookup_replicate in H as [-> _].
    by rewrite lookup_nil in Hk.
  - constructor.
  - intros img kl H. apply lookup_replicate in H as [-> _]. constructor.
  - constructor.
Qed.

(** What a successful run establishes: the accepted samples exist, and
    the returned containers are those of a state satisfying the
    invariant for them. *)
Lemma run_inv (predictions : Predictions) (threshold_pct : float)
    (flags : mask_flags) (stride : Z)
    (pts : list (point_entry float)) (kps : list (list keypoint)) :
  filter_and_prepare_points predictions threshold_pct flags stride
    = Some (pts, kps) ->
  exists cutoff ss st,
    conf_cutoff predictions threshold_pct = Some cutoff
    /\ accepted_samples predictions cutoff flags stride = Some ss
    /\ agg_inv st ss /\ points3D st = pts /\ image_points2D st = kps.
Proof.
  unfold filter_and_prepare_points. intros H.
  destruct (conf_cutoff predictions threshold_pct) as [cutoff|] eqn:Hcut;
    [|discriminate].
  cbn [mbind option_bind] in H. rewrite aggregate_samples in H.
  destruct (accepted_samples predictions cutoff flags stride) as [ss|] eqn:Hss;
    [|discriminate].
  cbn [mbind option_bind] in H.
  destruct (foldlM register ss _) as [st|] eqn:Hfold; [|discriminate].
  cbn in H. injection H as <- <-.
  exists cutoff, ss, st.
  split; [reflexivity|]. split; [exact Hss|].
  split; [|split; reflexivity].
  apply (foldlM_register_inv ss [] _ st (agg_inv_init _) Hfold).
Qed.

Lemma NoDup_filter_eq_length {A} `{EqDecision A} (l : list A) (a : A) :
  NoDup l -> a ∈ l -> length (filter (fun t => t = a) l) = 1%nat.
Proof.
  intros Hnd. induction Hnd as [|b l Hb Hnd IH]; intros Hin.
  - by apply elem_of_nil in Hin.
  - rewrite filter_cons. destruct (decide (b = a)) as [->|Hne].
    + cbn. f_equal.
      destruct (filter (fun t => t = a) l) as [|t ts] eqn:E; [reflexivity|].
      assert (t ∈ filter (fun t => t = a) l) as Ht by (rewrite E; left).
      apply list_elem_of_filter in Ht as [-> Ht]. done.
    + apply elem_of_cons in Hin as [->|Hin]; [done|]. by apply IH.
Qed.

Lemma fmap_positions_seq {A} (f : A -> nat) (l : list A) :
  (forall i e, l !! i = Some e -> f e = i) -> f <$> l = seq 0 (length l).
Proof.
  intros Hf. apply list_eq. intros i. rewrite list_lookup_fmap.
  destruct (l !! i) as [e|] eqn:He; cbn.
  - rewrite (Hf _ _ He). symmetry. apply lookup_seq_lt.
    eapply lookup_lt_Some; eauto.
  - symmetry. apply lookup_seq_ge. by apply lookup_ge_None.
Qed.

(** C3.  After an aggregation run, every track entry [(image, keypoint
    index)] of every point resolves to an entry of that image's keypoint
    list whose point reference is the id of the point; and every keypoint
    of every image occurs exactly once among the track entries of all the
    points. *)
Theorem track_keypoint_consistency (predictions : Predictions)
    (threshold_pct : float) (flags : mask_flags) (stride : Z)
    (pts : list (point_entry float)) (kps : list (list keypoint))
    (Hrun : filter_and_prepare_points predictions threshold_pct flags stride
            = Some (pts, kps)) :
  (forall e img k,
      e ∈ pts -> (img, k) ∈ pt_track e ->
      exists kl x y, kps !! img = Some kl /\ kl !! k = Some (x, y, pt_id e))
  /\ (forall img kl k kp,
        kps !! img = Some kl -> kl !! k = Some kp ->
        length (filter (fun t => t = (img, k)) (all_tracks pts)) = 1%nat).
Proof.
  destruct (run_inv _ _ _ _ _ _ Hrun) as (cutoff & ss & st & _ & _ & Hinv & <- & <-).
  split.
  - intros e img k He Ht. apply list_elem_of_lookup in He as [p Hp].
    rewrite (inv_ids _ _ Hinv _ _ Hp).
    exact (inv_track _ _ Hinv _ _ _ _ Hp Ht).
  - intros img kl k [[x y] p] Hkl Hk.
    apply NoDup_filter_eq_length; [exact (inv_nodup _ _ Hinv)|].
    apply elem_of_all_tracks.
    destruct (inv_cover _ _ Hinv _ _ _ _ _ _ Hkl Hk) as (e & He & Ht). eauto.
Qed.

Lemma keypoints_positions (st : agg_state) (kl : list keypoint)
    (ss : list sample) :
  Forall2 (keypoint_of st) kl ss ->
  (fun kp : keypoint => (kp.1.2, kp.1.1)) <$> kl
  = (fun s : sample => (smp_y s, smp_x s)) <$> ss.
Proof.
  induction 1 as [|kp s kl ss (Hx & Hy & _) _ IH]; [reflexivity|].
  cbn. rewrite Hx, Hy, <- IH. reflexivity.
Qed.

(** C4.  After an aggregation run, the ids of the points, in list order,
    are 0, 1, ..., P-1: each id is the position of its point.  Within
    each image the keypoint indices used by the tracks are exactly
    0 .. K_i - 1, and the keypoints are listed in insertion order: the
    k-th keypoint is at the grid position of the k-th accepted sample of
    the image. *)
Theorem dense_ids (predictions : Predictions)
    (threshold_pct : float) (flags : mask_flags) (stride : Z)
    (pts : list (point_entry float)) (kps : list (list keypoint))
    (Hrun : filter_and_prepare_points predictions threshold_pct flags stride
            = Some (pts, kps)) :
  pt_id <$> pts = seq 0 (length pts)
  /\ exists cutoff ss,
       conf_cutoff predictions threshold_pct = Some cutoff
       /\ accepted_samples predictions cutoff flags stride = Some ss
       /\ forall img kl,
            kps !! img = Some kl ->
            (forall k, (img, k) ∈ all_tracks pts <-> (k < length kl)%nat)
            /\ (fun kp : keypoint => (kp.1.2, kp.1.1)) <$> kl
               = (fun s : sample => (smp_y s, smp_x s))
                   <$> filter (fun s => smp_img s = img) ss.
Proof.
  destruct (run_inv _ _ _ _ _ _ Hrun)
    as (cutoff & ss & st & Hcut & Hss & Hinv & <- & <-).
  split; [apply fmap_positions_seq, (inv_ids _ _ Hinv)|].
  exists cutoff, ss. split; [exact Hcut|]. split; [exact Hss|].
  intros img kl Hkl. split.
  - intros k. rewrite elem_of_all_tracks. split.
    + intros (p & e & Hp & Ht).
      destruct (inv_track _ _ Hinv _ _ _ _ Hp Ht) as (kl' & x & y & Hkl' & Hk).
      assert (kl' = kl) as -> by congruence.
      eapply lookup_lt_Some; eauto.
    + intros Hk. apply lookup_lt_is_Some in Hk as [[[x y] p] Hk].
      destruct (inv_cover _ _ Hinv _ _ _ _ _ _ Hkl Hk) as (e & He & Ht). eauto.
  - eapply keypoints_positions, inv_kps; eauto.
Qed.

(** ** The accepted samples *)

Lemma sample_at_Some (predictions : Predictions) (cutoff : float)
    (flags : mask_flags) (orig_img : image) (scale_y scale_x : float)
    (img_idx : nat) (yx : Z * Z) (s : sample) :
  sample_at predictions cutoff flags orig_img scale_y scale_x img_idx yx
    = Some (Some s) <->
  s.1.1 = (img_idx, yx.1, yx.2)
  /\ sample_filter predictions cutoff flags orig_img scale_y scale_x
       img_idx yx.1 yx.2 = Some (Some (smp_point s, smp_rgb s)).
Proof.
  unfold sample_at. destruct s as [[[[i y] x] p] c].
  cbn [fst snd smp_point smp_rgb].
  destruct (sample_filter predictions cutoff flags orig_img scale_y scale_x
              img_idx yx.1 yx.2) as [[[p' c']|]|]; cbn.
  - split; [intros [= <- <- <- <- <-]; done|].
    intros [[= -> -> ->] [= -> ->]]. reflexivity.
  - split; [discriminate|]. intros [_ ?]. discriminate.
  - split; [discriminate|]. intros [_ ?]. discriminate.
Qed.

Lemma elem_of_image_samples (predictions : Predictions) (cutoff : float)
    (flags : mask_flags) (stride : Z) (img_idx : nat) (ss : list sample)
    (s : sample) :
  image_samples predictions cutoff flags stride img_idx = Some ss ->
  s ∈ ss <->
  smp_img s = img_idx /\
  exists orig_img scale_y scale_x positions,
    original_images predictions !! img_idx = Some orig_img
    /\ Py.truediv (Z.of_nat (img_h orig_img))
         (Z.of_nat (Np.shape (world_points_from_depth predictions)).1.2)
       = Some scale_y
    /\ Py.truediv (Z.of_nat (img_w orig_img))
         (Z.of_nat (Np.shape (world_points_from_depth predictions)).2)
       = Some scale_x
    /\ sample_positions (Np.shape (world_points_from_depth predictions)).1.2
         (Np.shape (world_points_from_depth predictions)).2 stride
       = Some positions
    /\ (smp_y s, smp_x s) ∈ positions
    /\ sample_filter predictions cutoff flags orig_img scale_y scale_x
         img_idx (smp_y s) (smp_x s)
       = Some (Some (smp_point s, smp_rgb s)).
Proof.
  unfold image_samples.
  destruct (Np.shape (world_points_from_depth predictions)) as [[n h] w].
  cbn [fst snd].
  destruct (original_images predictions !! img_idx) as [orig_img|] eqn:Ho;
    [|discriminate]; cbn [mbind option_bind].
  destruct (Py.truediv _ (Z.of_nat h)) as [scale_y|] eqn:Hsy; [|discriminate].
  cbn [mbind option_bind].
  destruct (Py.truediv _ (Z.of_nat w)) as [scale_x|] eqn:Hsx; [|discriminate].
  cbn [mbind option_bind].
  destruct (sample_positions h w stride) as [positions|] eqn:Hps;
    [|discriminate].
  cbn [mbind option_bind].
  destruct (mapM _ positions) as [verdicts|] eqn:Hv; [|discriminate].
  cbn [mbind option_bind]. intros [= <-].
  apply mapM_Some in Hv. rewrite list_elem_of_omap. split.
  - intros (v & Hin & ->). apply list_elem_of_lookup in Hin as [j Hj].
    destruct (Forall2_lookup_r _ _ _ _ _ Hv Hj) as (yx & Hyx & Hat).
    apply sample_at_Some in Hat as [Hpos Hf].
    destruct s as [[[[i y] x] p] c]. cbn in Hpos. injection Hpos as -> -> ->.
    split; [reflexivity|]. exists orig_img, scale_y, scale_x, positions.
    split; [reflexivity|]. split; [exact Hsy|]. split; [exact Hsx|].
    split; [reflexivity|]. split; [|exact Hf].
    cbn. destruct yx. apply list_elem_of_lookup. eauto.
  - intros (Himg & o & sy & sx & ps & [= <-] & Hsy' & Hsx' & [= <-] & Hin & Hf).
    assert (sy = scale_y) as -> by congruence.
    assert (sx = scale_x) as -> by congruence.
    apply list_elem_of_lookup in Hin as [j Hj].
    destruct (Forall2_lookup_l _ _ _ _ _ Hv Hj) as (v & Hv' & Hat).
    assert (v = Some s) as ->.
    { assert (sample_at predictions cutoff flags orig_img scale_y scale_x
                img_idx (smp_y s, smp_x s) = Some (Some s)) as Hs.
      { apply sample_at_Some. split; [|exact Hf].
        destruct s as [[[[i y] x] p] c]. cbn in *. by subst. }
      congruence. }
    exists (Some s). split; [|reflexivity].
    apply list_elem_of_lookup. eauto.
Qed.

Lemma elem_of_accepted_samples (predictions : Predictions) (cutoff : float)
    (flags : mask_flags) (stride : Z) (ss : list sample) (s : sample) :
  accepted_samples predictions cutoff flags stride = Some ss ->
  s ∈ ss <-> sample_source predictions cutoff flags stride s.
Proof.
  unfold accepted_samples.
  destruct (mapM _ _) as [per_image|] eqn:Hper; [|discriminate].
  cbn [mbind option_bind]. intros [= <-].
  apply mapM_Some in Hper.
  rewrite list_elem_of_In, in_concat. unfold sample_source. split.
  - intros (l & Hl & Hs). apply list_elem_of_In in Hl, Hs.
    apply list_elem_of_lookup in Hl as [j Hj].
    destruct (Forall2_lookup_r _ _ _ _ _ Hper Hj) as (img & Himg & Hl).
    apply lookup_seq in Himg as [-> Hlt].
    apply (elem_of_image_samples _ _ _ _ _ _ s Hl) in Hs
      as (Hi & o & sy & sx & ps & ? & ? & ? & ? & ? & ?).
    exists o, sy, sx, ps. rewrite Hi. cbn. done.
  - intros (o & sy & sx & ps & Hlt & ? & ? & ? & ? & ? & ?).
    assert (seq 0 (Np.shape (world_points_from_depth predictions)).1.1
            !! smp_img s = Some (smp_img s)) as Hseq
      by (apply lookup_seq; split; [reflexivity|exact Hlt]).
    destruct (Forall2_lookup_l _ _ _ _ _ Hper Hseq) as (l & Hl & Himg).
    exists l. rewrite <- !list_elem_of_In. split.
    + apply list_elem_of_lookup. eauto.
    + apply (elem_of_image_samples _ _ _ _ _ _ s Himg).
      split; [reflexivity|]. exists o, sy, sx, ps. done.
Qed.

Lemma sample_tests_accept (predictions : Predictions) (flags : mask_flags)
    (orig_img : image) (scale_y scale_x : float) (img_idx : nat) (y x : Z)
    (p : point) (c : color) :
  sample_tests predictions flags orig_img scale_y scale_x img_idx y x
    = Some (Some (p, c)) ->
  Np.getitem (world_points_from_depth predictions) img_idx y x = Some p
  /\ (exists qx qy qz, p = (Fin qx, Fin qy, Fin qz))
  /\ sample_rgb orig_img scale_y scale_x y x = Some c
  /\ mask_sky flags && is_sky_point p c = false
  /\ mask_black_bg flags && is_black_bg_point c 30 = false
  /\ mask_white_bg flags && is_white_bg_point c 230 = false.
Proof.
  unfold sample_tests.
  destruct (Np.getitem _ img_idx y x) as [[[px py] pz]|]; [|discriminate].
  cbn [mbind option_bind].
  destruct px, py, pz; cbn [Np.isfinite andb negb]; try discriminate.
  destruct (sample_rgb orig_img scale_y scale_x y x) as [rgb|];
    [|discriminate].
  cbn [mbind option_bind].
  destruct (mask_sky flags && _) eqn:Hsky; [discriminate|].
  destruct (mask_black_bg flags && _) eqn:Hblack; [discriminate|].
  destruct (mask_white_bg flags && _) eqn:Hwhite; [discriminate|].
  intros [= <- <-]. eauto 10.
Qed.

Lemma sample_filter_accept (predictions : Predictions) (cutoff : float)
    (flags : mask_flags) (orig_img : image) (scale_y scale_x : float)
    (img_idx : nat) (y x : Z) (p : point) (c : color) :
  sample_filter predictions cutoff flags orig_img scale_y scale_x img_idx y x
    = Some (Some (p, c)) <->
  (exists conf,
      Np.getitem (depth_conf predictions) img_idx y x = Some conf
      /\ Fl.ltb cutoff conf = true)
  /\ sample_tests predictions flags orig_img scale_y scale_x img_idx y x
     = Some (Some (p, c)).
Proof.
  unfold sample_filter.
  destruct (Np.getitem (depth_conf predictions) img_idx y x) as [conf|];
    cbn [mbind option_bind].
  - destruct (Fl.ltb cutoff conf) eqn:E.
    + split; [eauto|]. intros [_ H]. exact H.
    + split; [discriminate|].
      intros [(conf' & [= <-] & Hlt) _]. congruence.
  - split; [discriminate|]. intros [(conf' & ? & _) _]. discriminate.
Qed.

(** ** The confidence test *)




(** ** Stride sampling *)

Lemma verdicts_sublist (predictions : Predictions) (cutoff : float)
    (flags : mask_flags) (orig_img : image) (scale_y scale_x : float)
    (img_idx : nat) (positions : list (Z * Z)) (vs : list (option sample)) :
  mapM (sample_at predictions cutoff flags orig_img scale_y scale_x img_idx)
    positions = Some vs ->
  (fun s : sample => (smp_y s, smp_x s)) <$> omap (fun v => v) vs
  `sublist_of` positions.
Proof.
  intros H. apply mapM_Some in H.
  induction H as [|yx v ps vs Hat _ IH]; [constructor|].
  destruct v as [s|]; cbn.
  - apply sample_at_Some in Hat as [Hpos _].
    destruct s as [[[[i y] x] p] c]. cbn in Hpos. injection Hpos as -> -> ->.
    cbn. destruct yx. cbn. by apply sublist_skip.
  - by apply sublist_cons.
Qed.

Lemma image_samples_sublist (predictions : Predictions) (cutoff : float)
    (flags : mask_flags) (stride : Z) (img_idx : nat) (ss : list sample) :
  image_samples predictions cutoff flags stride img_idx = Some ss ->
  exists positions,
    sample_positions (Np.shape (world_points_from_depth predictions)).1.2
      (Np.shape (world_points_from_depth predictions)).2 stride
    = Some positions
    /\ (fun s : sample => (smp_y s, smp_x s)) <$> ss `sublist_of` positions.
Proof.
  unfold image_samples.
  destruct (Np.shape (world_points_from_depth predictions)) as [[n h] w].
  cbn [fst snd].
  destruct (original_images predictions !! img_idx) as [orig_img|];
    [|discriminate]; cbn [mbind option_bind].
  destruct (Py.truediv _ (Z.of_nat h)) as [scale_y|]; [|discriminate].
  cbn [mbind option_bind].
  destruct (Py.truediv _ (Z.of_nat w)) as [scale_x|]; [|discriminate].
  cbn [mbind option_bind].
  destruct (sample_positions h w stride) as [positions|]; [|discriminate].
  cbn [mbind option_bind].
  destruct (mapM _ positions) as [vs|] eqn:Hv; [|discriminate].
  cbn. intros [= <-]. exists positions. split; [reflexivity|].
  eapply verdicts_sublist; eauto.
Qed.

Lemma filter_all {A} (P : A -> Prop) `{forall x, Decision (P x)} (l : list A) :
  Forall P l -> filter P l = l.
Proof.
  induction 1 as [|a l Ha _ IH]; [reflexivity|].
  rewrite filter_cons. destruct (decide (P a)); [|done]. by rewrite IH.
Qed.

Lemma filter_none {A} (P : A -> Prop) `{forall x, Decision (P x)} (l : list A) :
  Forall (fun a => ~ P a) l -> filter P l = [].
Proof.
  induction 1 as [|a l Ha _ IH]; [reflexivity|].
  rewrite filter_cons. destruct (decide (P a)); [done|exact IH].
Qed.

Lemma filter_img_concat (ls : list (list sample)) (k i : nat) :
  (forall j l s, ls !! j = Some l -> s ∈ l -> smp_img s = (k + j)%nat) ->
  filter (fun s => smp_img s = (k + i)%nat) (concat ls) = default [] (ls !! i).
Proof.
  revert k i. induction ls as [|l ls IH]; intros k i Hall; [reflexivity|].
  cbn [concat]. rewrite filter_app.
  assert (forall j l' s, ls !! j = Some l' -> s ∈ l' ->
                         smp_img s = (S k + j)%nat) as Hall'.
  { intros j l' s Hj Hs. rewrite (Hall (S j) l' s Hj Hs). lia. }
  destruct i as [|i].
  - cbn [lookup list_lookup default].
    rewrite (filter_all _ l); cycle 1.
    { apply Forall_forall. intros s Hs. rewrite (Hall 0%nat l s eq_refl Hs). lia. }
    rewrite filter_none; [apply app_nil_r|].
    apply Forall_forall. intros s Hs Himg.
    apply list_elem_of_In, in_concat in Hs as (l' & Hl' & Hs).
    apply list_elem_of_In in Hl', Hs.
    apply list_elem_of_lookup in Hl' as [j Hj].
    rewrite (Hall' j l' s Hj Hs) in Himg. lia.
  - cbn [lookup list_lookup].
    rewrite (filter_none _ l); cycle 1.
    { apply Forall_forall. intros s Hs Himg.
      rewrite (Hall 0%nat l s eq_refl Hs) in Himg. lia. }
    cbn [app]. replace (k + S i)%nat with (S k + i)%nat by lia.
    apply IH. exact Hall'.
Qed.

(** The accepted samples of one image, among those of the run. *)
Lemma accepted_samples_image (predictions : Predictions) (cutoff : float)
    (flags : mask_flags) (stride : Z) (ss : list sample) (img : nat) :
  accepted_samples predictions cutoff flags stride = Some ss ->
  filter (fun s => smp_img s = img) ss = []
  \/ image_samples predictions cutoff flags stride img
     = Some (filter (fun s => smp_img s = img) ss).
Proof.
  unfold accepted_samples.
  destruct (mapM _ _) as [per_image|] eqn:Hper; [|discriminate].
  cbn [mbind option_bind]. intros [= <-].
  apply mapM_Some in Hper.
  pose proof (filter_img_concat per_image 0 img) as Hfilter.
  cbn [Nat.add] in Hfilter. rewrite Hfilter.
  - destruct (per_image !! img) as [l|] eqn:Hl; [right|left; reflexivity].
    destruct (Forall2_lookup_r _ _ _ _ _ Hper Hl) as (i & Hi & Hsome).
    apply lookup_seq in Hi as [-> _]. exact Hsome.
  - intros j l s Hj Hs.
    destruct (Forall2_lookup_r _ _ _ _ _ Hper Hj) as (i & Hi & Hsome).
    apply lookup_seq in Hi as [-> _].
    apply (elem_of_image_samples _ _ _ _ _ _ s Hsome) in Hs as [Himg _].
    exact Himg.
Qed.




Lemma rounded_coord_quantize (v : float) (z : Z) :
  rounded_coord v = Some z -> Np.quantize 100 v = Np.astype_int z.
Proof.
  unfold rounded_coord, Np.quantize.
  replace (Fl.round (inject_Z 100)) with (Fin 100) by (vm_compute; reflexivity).
  destruct (Fl.mul v (Fin 100)); [|discriminate..].
  by intros [= <-].
Qed.

Lemma rounded_quantized (p1 p2 : point) (t : Z * Z * Z) :
  rounded_triple p1 = Some t -> rounded_triple p2 = Some t ->
  quantized p1 100 = quantized p2 100.
Proof.
  destruct p1 as [[x1 y1] z1], p2 as [[x2 y2] z2], t as [[a b] c].
  unfold rounded_triple, quantized.
  destruct (rounded_coord x1) as [a1|] eqn:X1; [|discriminate].
  destruct (rounded_coord y1) as [b1|] eqn:Y1; [|discriminate].
  destruct (rounded_coord z1) as [c1|] eqn:Z1; [|discriminate].
  cbn [mbind option_bind]. intros [= -> -> ->].
  destruct (rounded_coord x2) as [a2|] eqn:X2; [|discriminate].
  destruct (rounded_coord y2) as [b2|] eqn:Y2; [|discriminate].
  destruct (rounded_coord z2) as [c2|] eqn:Z2; [|discriminate].
  cbn [mbind option_bind]. intros [= -> -> ->].
  by rewrite (rounded_coord_quantize _ _ X1), (rounded_coord_quantize _ _ Y1),
    (rounded_coord_quantize _ _ Z1), (rounded_coord_quantize _ _ X2),
    (rounded_coord_quantize _ _ Y2), (rounded_coord_quantize _ _ Z2).
Qed.

(** Two registered keys with the same index are the same key. *)
Lemma point_indices_inj (st : agg_state) (registered : list sample)
    (h1 h2 : Z) (i : nat) :
  agg_inv st registered ->
  point_indices st !! h1 = Some i -> point_indices st !! h2 = Some i ->
  h1 = h2.
Proof.
  intros Hinv H1 H2.
  destruct (inv_index _ _ Hinv _ _ H1) as (e1 & He1 & <-).
  destruct (inv_index _ _ Hinv _ _ H2) as (e2 & He2 & <-).
  congruence.
Qed.

Lemma assigned_key (st : agg_state) (ss : list sample) (s : sample) (id : nat) :
  agg_inv st ss -> assigned ss (image_points2D st) s id ->
  point_indices st !! sample_key s = Some id.
Proof.
  intros Hinv (j & kl & kp & Hs & Hkl & Hkp & _ & _ & <-).
  pose proof (inv_kps _ _ Hinv _ _ Hkl) as Hall.
  destruct (Forall2_lookup_l _ _ _ _ _ Hall Hkp) as (s' & Hs' & _ & _ & Hkey).
  assert (s' = s) as -> by congruence. exact Hkey.
Qed.

(** X25.  What the aggregator does guarantee about the ids: in one run
    every accepted sample is assigned a point id; two accepted samples
    with the same integer triple are assigned the same id; and two
    accepted samples are assigned the same id exactly when the hashes of
    their quantized triples are equal. *)
Theorem dedup_by_hash (predictions : Predictions)
    (threshold_pct : float) (flags : mask_flags) (stride : Z)
    (pts : list (point_entry float)) (kps : list (list keypoint))
    (Hrun : filter_and_prepare_points predictions threshold_pct flags stride
            = Some (pts, kps)) :
  exists cutoff ss,
    conf_cutoff predictions threshold_pct = Some cutoff
    /\ accepted_samples predictions cutoff flags stride = Some ss
    /\ (forall s, s ∈ ss -> exists id, assigned ss kps s id)
    /\ forall s1 s2 id1 id2,
         assigned ss kps s1 id1 -> assigned ss kps s2 id2 ->
         (forall t, rounded_triple (smp_point s1) = Some t ->
                    rounded_triple (smp_point s2) = Some t -> id1 = id2)
         /\ (id1 = id2 <->
             hash_point (smp_point s1) 100 = hash_point (smp_point s2) 100).
Proof.
  destruct (run_inv _ _ _ _ _ _ Hrun)
    as (cutoff & ss & st & Hcut & Hss & Hinv & <- & <-).
  exists cutoff, ss. split; [exact Hcut|]. split; [exact Hss|]. split.
  - intros s Hs.
    assert (s ∈ filter (fun s' => smp_img s' = smp_img s) ss) as Hin
      by (apply list_elem_of_filter; done).
    apply list_elem_of_lookup in Hin as [j Hj].
    pose proof (lookup_lt_Some _ _ _ Hj) as Hlt.
    destruct (image_points2D st !! smp_img s) as [kl|] eqn:Hkl.
    + pose proof (inv_kps _ _ Hinv _ _ Hkl) as Hall.
      destruct (Forall2_lookup_r _ _ _ _ _ Hall Hj) as (kp & Hkp & Hx & Hy & _).
      exists kp.2, j, kl, kp. done.
    + exfalso. apply lookup_ge_None in Hkl.
      pose proof (inv_imgs _ _ Hinv) as Himgs.
      rewrite Forall_forall in Himgs. specialize (Himgs _ Hs). lia.
  - intros s1 s2 id1 id2 H1 H2.
    pose proof (assigned_key _ _ _ _ Hinv H1) as K1.
    pose proof (assigned_key _ _ _ _ Hinv H2) as K2.
    assert (id1 = id2 <->
            hash_point (smp_point s1) 100 = hash_point (smp_point s2) 100)
      as Hiff.
    { split.
      - intros <-. exact (point_indices_inj _ _ _ _ _ Hinv K1 K2).
      - intros Heq. unfold sample_key in K1, K2. rewrite Heq in K1.
        congruence. }
    split; [|exact Hiff].
    intros t Ht1 Ht2. apply Hiff. unfold hash_point. f_equal. f_equal.
    by apply (rounded_quantized _ _ t).
Qed.

Example hash_collision :
  quantized (smp_point Examples.sample_a) 100 = [-1; 0; 0]
  /\ quantized (smp_point Examples.sample_b) 100 = [-2; 0; 0]
  /\ Py.hash_int (-1) = -2 /\ Py.hash_int (-2) = -2
  /\ hash_point (smp_point Examples.sample_a) 100
     = hash_point (smp_point Examples.sample_b) 100.
Proof. vm_compute. repeat split. Qed.

(** The same collision on the binary64 values nearest to -0.01 and
    -0.02. *)
Example hash_collision_centimetres :
  quantized (Fl.round (- (1 # 100)), Fin 0, Fin 0) 100 = [-1; 0; 0]
  /\ quantized (Fl.round (- (2 # 100)), Fin 0, Fin 0) 100 = [-2; 0; 0]
  /\ hash_point (Fl.round (- (1 # 100)), Fin 0, Fin 0) 100
     = hash_point (Fl.round (- (2 # 100)), Fin 0, Fin 0) 100.
Proof. vm_compute. repeat split. Qed.

(** C1.  The aggregator keys its dictionary on the hash of the integer
    triple, and [hash(-1) = hash(-2) = -2]: on a 1x2 grid with the world
    points (-1/128, 0, 0) and (-1/64, 0, 0), whose integer triples are
    (-1, 0, 0) and (-2, 0, 0), the run returns one point with both
    samples in its track.  The two samples get the same point id although
    their integer triples differ, so the deduplication property of the
    design document does not hold of this run. *)
Theorem dedup_exact_fails :
  filter_and_prepare_points Examples.two_cells (Fin 0) Examples.no_masks 1
  = Some (Examples.merged_points, Examples.two_keypoints)
  /\ rounded_triple (smp_point Examples.sample_a) = Some (-1, 0, 0)
  /\ rounded_triple (smp_point Examples.sample_b) = Some (-2, 0, 0)
  /\ Py.hash_int (-1) = Py.hash_int (-2)
  /\ ~ dedup_exact Examples.two_cells (Fin 0) Examples.no_masks 1.
Proof.
  assert (filter_and_prepare_points Examples.two_cells (Fin 0)
            Examples.no_masks 1
          = Some (Examples.merged_points, Examples.two_keypoints)) as Hrun
    by (vm_compute; reflexivity).
  split; [exact Hrun|].
  split; [vm_compute; reflexivity|].
  split; [vm_compute; reflexivity|].
  split; [reflexivity|].
  intros H.
  pose (ss := [Examples.sample_a; Examples.sample_b]).
  destruct (H Examples.merged_points Examples.two_keypoints (Fin 0) ss Hrun
              ltac:(vm_compute; reflexivity) ltac:(vm_compute; reflexivity)
              Examples.sample_a Examples.sample_b 0%nat 0%nat) as [_ Hne].
  - exists 0%nat, [(0, 0, 0%nat); (1, 0, 0%nat)], (0, 0, 0%nat).
    repeat split.
  - exists 1%nat, [(0, 0, 0%nat); (1, 0, 0%nat)], (1, 0, 0%nat).
    repeat split.
  - apply Hne; [|reflexivity]. vm_compute. discriminate.
Qed.

(** ** Confidence monotonicity *)

Lemma points_count (st : agg_state) (ss : list sample) :
  agg_inv st ss ->
  length (points3D st) = size (list_to_set (sample_key <$> ss) : gset Z).
Proof.
  intros Hinv. rewrite (inv_size _ _ Hinv), <- (inv_dom _ _ Hinv).
  symmetry. apply size_dom.
Qed.

(** A sample accepted under a cutoff is accepted under any cutoff its
    confidence passes: the other tests do not read the cutoff. *)
Lemma sample_source_cutoff (predictions : Predictions) (c1 c2 : float)
    (flags : mask_flags) (stride : Z) (s : sample) :
  (forall conf,
      Np.getitem (depth_conf predictions) (smp_img s) (smp_y s) (smp_x s)
        = Some conf ->
      Fl.ltb c2 conf = true -> Fl.ltb c1 conf = true) ->
  sample_source predictions c2 flags stride s ->
  sample_source predictions c1 flags stride s.
Proof.
  intros Hc (o & sy & sx & ps & Hlt & Ho & Hsy & Hsx & Hps & Hin & Hf).
  exists o, sy, sx, ps. repeat (split; [assumption|]).
  apply sample_filter_accept in Hf as [(conf & Hconf & Hgt) Ht].
  apply sample_filter_accept. split; [|exact Ht].
  exists conf. split; [exact Hconf|]. by apply Hc.
Qed.

(** C6.  For fixed inputs, stride and flags, and threshold percentages
    [pct1 <= pct2], the run with the higher percentage never returns more
    3D points than the run with the lower one.  The percentages are those
    of the command line, at most 100 (any percentage will do when the
    maximum confidence is not negative), and the confidence array holds
    float64 values. *)
Theorem confidence_monotone (predictions : Predictions) (pct1 pct2 : float)
    (flags : mask_flags) (stride : Z)
    (pts1 pts2 : list (point_entry float)) (kps1 kps2 : list (list keypoint))
    (Hle : Fl.leb pct1 pct2 = true)
    (Hdom : Fl.leb pct2 (Fin 100) = true
            \/ forall m, Np.max (depth_conf predictions) = Some m ->
                         Fl.leb (Fin 0) m = true)
    (Hdbl : forall v, v ∈ Np.items (depth_conf predictions) ->
                      Fl.is_double v = true)
    (Hrun1 : filter_and_prepare_points predictions pct1 flags stride
             = Some (pts1, kps1))
    (Hrun2 : filter_and_prepare_points predictions pct2 flags stride
             = Some (pts2, kps2)) :
  (length pts2 <= length pts1)%nat.
Proof.
  destruct (run_inv _ _ _ _ _ _ Hrun1)
    as (c1 & ss1 & st1 & Hc1 & Hss1 & Hinv1 & <- & _).
  destruct (run_inv _ _ _ _ _ _ Hrun2)
    as (c2 & ss2 & st2 & Hc2 & Hss2 & Hinv2 & <- & _).
  rewrite (points_count _ _ Hinv1), (points_count _ _ Hinv2).
  apply subseteq_size. intros h Hh.
  apply elem_of_list_to_set, list_elem_of_fmap in Hh as (s & -> & Hs).
  apply elem_of_list_to_set, list_elem_of_fmap. exists s. split; [done|].
  apply (elem_of_accepted_samples _ _ _ _ _ _ Hss1).
  apply (elem_of_accepted_samples _ _ _ _ _ _ Hss2) in Hs.
  eapply sample_source_cutoff; [|exact Hs].
  intros conf Hconf Hgt.
  apply conf_cutoff_max in Hc1 as (m & Hmax & ->).
  apply conf_cutoff_max in Hc2 as (m' & Hmax' & ->).
  assert (m' = m) as -> by congruence.
  destruct (np_max_spec _ _ Hmax) as [_ Hub].
  pose proof (getitem_items _ _ _ _ _ Hconf) as Hin.
  apply (cutoff_order pct1 pct2 m conf Hle); [| |by apply Hdbl|exact Hgt].
  - destruct Hdom as [H100|Hm]; [by left|right; by apply Hm].
  - intros Hm. by apply Hub.
Qed.

(** * The format writers *)

(** ** Strings *)

#[local] Arguments String.append : simpl nomatch.

Lemma append_nil_r (s : string) : (s ++ "")%string = s.
Proof. induction s as [|c s IH]; simpl; [reflexivity|]. f_equal. exact IH. Qed.

Lemma append_assoc (a b c : string) :
  ((a ++ b) ++ c)%string = (a ++ (b ++ c))%string.
Proof. induction a as [|x a IH]; simpl; [reflexivity|]. f_equal. exact IH. Qed.

Lemma mem_char_append (c : ascii) (a b : string) :
  Txt.mem_char c (a ++ b) = Txt.mem_char c a || Txt.mem_char c b.
Proof.
  induction a as [|x a IH]; cbn; [reflexivity|].
  rewrite IH. by rewrite orb_assoc.
Qed.

Lemma lines_append (l rest : string) :
  Txt.mem_char "010" l = false ->
  Txt.lines (l ++ Fmt.nl ++ rest) = l :: Txt.lines rest.
Proof.
  induction l as [|c l IH]; [reflexivity|].
  cbn [Txt.mem_char]. intros Hc. apply orb_false_elim in Hc as [Hc Hl].
  change (Txt.lines (String c (l ++ Fmt.nl ++ rest)) = String c l :: Txt.lines rest).
  cbn [Txt.lines]. rewrite Ascii.eqb_sym, Hc, (IH Hl). reflexivity.
Qed.

Lemma split_nonempty (sep : ascii) (s : string) : Fmt.split sep s <> [].
Proof.
  destruct s as [|c s]; cbn [Fmt.split]; [discriminate|].
  destruct (Ascii.eqb c sep); [discriminate|].
  destruct (Fmt.split sep s); discriminate.
Qed.

Lemma split_append (sep : ascii) (t rest : string) :
  Txt.mem_char sep t = false ->
  Fmt.split sep (t ++ String sep rest) = t :: Fmt.split sep rest.
Proof.
  induction t as [|c t IH]; cbn [Txt.mem_char append Fmt.split].
  - intros _. by rewrite Ascii.eqb_refl.
  - intros Hc. apply orb_false_elim in Hc as [Hc Ht].
    rewrite Ascii.eqb_sym, Hc, (IH Ht). reflexivity.
Qed.

Lemma split_free (sep : ascii) (t : string) :
  Txt.mem_char sep t = false -> Fmt.split sep t = [t].
Proof.
  induction t as [|c t IH]; cbn [Txt.mem_char Fmt.split]; [reflexivity|].
  intros Hc. apply orb_false_elim in Hc as [Hc Ht].
  rewrite Ascii.eqb_sym, Hc, (IH Ht). reflexivity.
Qed.

Lemma concat_cons (sep x : string) (xs : list string) :
  xs <> [] ->
  String.concat sep (x :: xs) = (x ++ sep ++ String.concat sep xs)%string.
Proof. destruct xs; [done|reflexivity]. Qed.

Lemma concat_String (sep : string) (c : ascii) (t : string) (ts : list string) :
  String.concat sep (String c t :: ts) = String c (String.concat sep (t :: ts)).
Proof. destruct ts; reflexivity. Qed.

(** Joining the pieces of a split gives the string back. *)
Lemma concat_split (s : string) :
  String.concat " " (Fmt.split " " s) = s.
Proof.
  induction s as [|c s IH]; cbn [Fmt.split]; [reflexivity|].
  destruct (Ascii.eqb_spec c " ") as [->|Hc].
  - rewrite concat_cons by apply split_nonempty. rewrite IH. reflexivity.
  - destruct (Fmt.split " " s) as [|t ts] eqn:E.
    + by apply split_nonempty in E.
    + rewrite concat_String, IH. reflexivity.
Qed.

Lemma split_concat_app (l : list string) (last : string) :
  Forall (fun t => Txt.mem_char " " t = false) l ->
  Fmt.split " " (String.concat " " (l ++ [last]))
  = l ++ Fmt.split " " last.
Proof.
  induction 1 as [|t l Ht _ IH]; [reflexivity|].
  cbn [app]. rewrite concat_cons by (by destruct l).
  cbn [append]. rewrite (split_append " " t _ Ht), IH. reflexivity.
Qed.

Lemma filter_fields (l : list string) :
  Forall (fun t => t <> EmptyString) l ->
  List.filter (fun t => negb (Txt.is_empty t)) l = l.
Proof.
  induction 1 as [|t l Ht _ IH]; [reflexivity|].
  cbn. destruct t; [done|]. cbn. by rewrite IH.
Qed.

Lemma tokens_concat_app (l : list string) (last : string) :
  Forall field l ->
  Txt.tokens (String.concat " " (l ++ [last])) = l ++ Txt.tokens last.
Proof.
  intros Hl. unfold Txt.tokens. rewrite split_concat_app.
  - rewrite List.filter_app, filter_fields; [reflexivity|].
    eapply Forall_impl; [exact Hl|]. by intros t (? & _).
  - eapply Forall_impl; [exact Hl|]. by intros t (_ & ? & _).
Qed.

Lemma tokens_field (t : string) : field t -> Txt.tokens t = [t].
Proof.
  intros (Hne & Hsp & _). unfold Txt.tokens. rewrite split_free by done.
  cbn. by destruct t.
Qed.

Lemma tokens_concat (l : list string) :
  Forall field l -> Txt.tokens (String.concat " " l) = l.
Proof.
  intros Hl. destruct l as [|t l _] using rev_ind; [reflexivity|].
  apply Forall_app in Hl as [Hl Ht]. apply Forall_inv in Ht.
  rewrite tokens_concat_app by exact Hl.
  rewrite tokens_field by exact Ht. reflexivity.
Qed.

(** Joining non-empty groups of fields, each joined by spaces, joins all
    the fields. *)
Lemma concat_app (sep : string) (l1 l2 : list string) :
  l1 <> [] -> l2 <> [] ->
  String.concat sep (l1 ++ l2)
  = (String.concat sep l1 ++ sep ++ String.concat sep l2)%string.
Proof.
  intros H1 H2. induction l1 as [|x l1 IH]; [done|].
  destruct l1 as [|y l1].
  - cbn [app]. by rewrite concat_cons.
  - cbn [app] in *. rewrite concat_cons by done.
    rewrite (concat_cons sep x (y :: l1)) by done.
    rewrite IH by done. by rewrite !append_assoc.
Qed.

Lemma concat_groups (groups : list (list string)) :
  Forall (fun g => g <> []) groups ->
  String.concat " " (map (String.concat " ") groups)
  = String.concat " " (List.concat groups).
Proof.
  induction 1 as [|g gs Hg Hgs IH]; [reflexivity|].
  destruct gs as [|g' gs].
  - cbn. by rewrite app_nil_r.
  - assert (List.concat (g' :: gs) <> []) as Hne.
    { apply Forall_inv in Hgs. cbn. destruct g'; [done|discriminate]. }
    change (map (String.concat " ") (g :: g' :: gs))
      with (String.concat " " g :: map (String.concat " ") (g' :: gs)).
    rewrite concat_cons by discriminate. rewrite IH.
    change (List.concat (g :: g' :: gs)) with (g ++ List.concat (g' :: gs)).
    by rewrite concat_app.
Qed.

Lemma mem_char_concat (c : ascii) (sep : string) (l : list string) :
  Txt.mem_char c sep = false ->
  Forall (fun t => Txt.mem_char c t = false) l ->
  Txt.mem_char c (String.concat sep l) = false.
Proof.
  intros Hsep. induction 1 as [|t l Ht Hl IH]; [reflexivity|].
  destruct l as [|t' l]; [exact Ht|].
  rewrite concat_cons by discriminate.
  rewrite !mem_char_append, Ht, Hsep, IH. reflexivity.
Qed.

(** ** Decimal integers *)

Lemma uint_chars (c : ascii) (d : uint) :
  Txt.mem_char c "0123456789" = false ->
  Txt.mem_char c (NilEmpty.string_of_uint d) = false.
Proof.
  cbn [Txt.mem_char]. intros Hc.
  repeat (apply orb_false_elim in Hc as [? Hc]).
  induction d; cbn [NilEmpty.string_of_uint Txt.mem_char];
    rewrite ?IHd; repeat match goal with E : Ascii.eqb c _ = false |- _ =>
                           rewrite E; clear E end; reflexivity.
Qed.

Lemma str_int_chars (c : ascii) (z : Z) :
  Txt.mem_char c "-0123456789" = false ->
  Txt.mem_char c (Fmt.str_int z) = false.
Proof.
  intros Hc. cbn [Txt.mem_char] in Hc. apply orb_false_elim in Hc as [Hm Hc].
  assert (forall d, Txt.mem_char c (NilZero.string_of_uint d) = false) as Hu.
  { intros d. destruct d; try (apply (uint_chars c); exact Hc).
    pose proof (uint_chars c (D0 Nil) Hc) as H0. exact H0. }
  unfold Fmt.str_int. destruct (Z.to_int z); cbn [NilZero.string_of_int].
  - apply Hu.
  - cbn [Txt.mem_char]. by rewrite Hm, Hu.
Qed.

Lemma str_int_nonempty (z : Z) : Fmt.str_int z <> EmptyString.
Proof.
  unfold Fmt.str_int. destruct (Z.to_int z) as [d|d]; cbn; [|discriminate].
  destruct d; discriminate.
Qed.

Lemma str_int_field (z : Z) : field (Fmt.str_int z).
Proof.
  split; [apply str_int_nonempty|].
  split; apply str_int_chars; reflexivity.
Qed.

Lemma parse_str_int (z : Z) : Fmt.parse_int (Fmt.str_int z) = Some z.
Proof.
  unfold Fmt.parse_int, Fmt.str_int. rewrite NilZero.isi.
  - cbn. by rewrite DecimalZ.of_to.
  - destruct z; cbn; try discriminate.
    intros [= E]. by apply Unsigned.to_uint_nonnil in E.
  - destruct z; cbn; try discriminate.
    intros [= E]. by apply Unsigned.to_uint_nonnil in E.
Qed.

Lemma not_comment_append (s rest : string) :
  s <> EmptyString -> Txt.mem_char "#" s = false ->
  Txt.is_comment (s ++ rest) = false.
Proof.
  destruct s as [|c s]; [done|]. cbn [Txt.mem_char append Txt.is_comment].
  intros _ Hc. apply orb_false_elim in Hc as [Hc _].
  by rewrite Ascii.eqb_sym.
Qed.

Lemma str_int_not_comment (z : Z) (rest : string) :
  Txt.is_comment (Fmt.str_int z ++ rest) = false.
Proof.
  apply not_comment_append; [apply str_int_nonempty|].
  apply str_int_chars. reflexivity.
Qed.

(** ** Reading the text files back *)

Lemma data_lines_comment (l rest : string) :
  Txt.is_comment l = true -> Txt.mem_char "010" l = false ->
  Txt.data_lines (l ++ Fmt.nl ++ rest) = Txt.data_lines rest.
Proof.
  intros Hc Hl. unfold Txt.data_lines. rewrite lines_append by exact Hl.
  cbn [List.filter]. rewrite Hc. reflexivity.
Qed.

Lemma data_lines_data (l rest : string) :
  Txt.is_comment l = false -> Txt.mem_char "010" l = false ->
  Txt.data_lines (l ++ Fmt.nl ++ rest) = l :: Txt.data_lines rest.
Proof.
  intros Hc Hl. unfold Txt.data_lines. rewrite lines_append by exact Hl.
  cbn [List.filter]. rewrite Hc. reflexivity.
Qed.

Lemma concat_empty_cons (x : string) (xs : list string) :
  String.concat "" (x :: xs) = (x ++ String.concat "" xs)%string.
Proof.
  destruct xs; [symmetry; apply append_nil_r|reflexivity].
Qed.

Lemma field_no_newline (t : string) : field t -> Txt.mem_char "010" t = false.
Proof. by intros (_ & _ & ?). Qed.

(** A line of fields that starts with an integer is a data line. *)
Lemma fields_line (z : Z) (fs : list string) (last rest : string) :
  Forall field fs -> Txt.mem_char "010" last = false ->
  Txt.data_lines
    (String.concat " " (Fmt.str_int z :: fs ++ [last]) ++ Fmt.nl ++ rest)
  = String.concat " " (Fmt.str_int z :: fs ++ [last])
    :: Txt.data_lines rest.
Proof.
  intros Hfs Hlast. apply data_lines_data.
  - rewrite concat_cons by (by destruct fs). apply str_int_not_comment.
  - apply mem_char_concat; [reflexivity|].
    constructor; [apply field_no_newline, str_int_field|].
    apply Forall_app. split; [|by constructor].
    eapply Forall_impl; [exact Hfs|]. apply field_no_newline.
Qed.

Section TextRoundTrip.

Context {F : Type} `{FloatFormat F}.
Hypothesis Hfmt : format_ok.

Lemma str_float_is_field (v : F) : field (str_float v).
Proof. apply (str_float_field Hfmt). Qed.

Lemma decode_camera_line (i : nat) (K : matrix F) (w h : nat) :
  intrinsic_ok K ->
  decode_camera_txt
    (String.concat " "
       [Fmt.str_int (Z.of_nat i + 1); "PINHOLE"%string;
        Fmt.str_int (Z.of_nat w); Fmt.str_int (Z.of_nat h);
        str_float (K 0 0)%nat; str_float (K 1 1)%nat;
        str_float (K 0 2)%nat; str_float (K 1 2)%nat])
  = Some (camera_of i K w h).
Proof.
  intros ((Hfx & _) & (Hfy & _) & (Hcx & _) & (Hcy & _)).
  cbn [fst snd] in *.
  unfold decode_camera_txt. rewrite tokens_concat.
  - rewrite !parse_str_int. cbn [mbind option_bind String.eqb].
    rewrite Hfx, Hfy, Hcx, Hcy. reflexivity.
  - repeat (constructor;
            [first [apply str_int_field | apply str_float_is_field
                   | repeat split; discriminate || reflexivity]|]).
    constructor.
Qed.

Lemma decode_camera_lines (intrinsics : list (matrix F)) (w h i : nat) :
  Forall intrinsic_ok intrinsics ->
  mapM decode_camera_txt (Txt.data_lines (camera_lines i intrinsics w h))
  = Some (cameras_of i intrinsics w h).
Proof.
  intros HK. revert i. induction HK as [|K Ks HK _ IH]; intros i;
    [reflexivity|].
  cbn [camera_lines cameras_of]. unfold camera_line.
  rewrite append_assoc.
  pose proof (fields_line (Z.of_nat i + 1)
             ["PINHOLE"%string; Fmt.str_int (Z.of_nat w);
              Fmt.str_int (Z.of_nat h); str_float (K 0 0)%nat;
              str_float (K 1 1)%nat; str_float (K 0 2)%nat]
             (str_float (K 1 2)%nat)) as Hline.
  cbn [app] in Hline. rewrite Hline; clear Hline.
  - cbn [mapM]. rewrite (decode_camera_line i K w h HK).
    cbn [mbind option_bind]. rewrite IH. reflexivity.
  - repeat (constructor;
            [first [apply str_int_field | apply str_float_is_field
                   | repeat split; discriminate || reflexivity]|]).
    constructor.
  - apply field_no_newline, str_float_is_field.
Qed.

Lemma decode_cameras_txt_write (intrinsics : list (matrix F)) (w h : nat) :
  Forall intrinsic_ok intrinsics ->
  decode_cameras_txt (write_colmap_cameras_txt intrinsics w h)
  = Some (cameras_of 0 intrinsics w h).
Proof.
  intros HK. unfold decode_cameras_txt, write_colmap_cameras_txt.
  rewrite data_lines_comment by reflexivity.
  rewrite data_lines_comment by reflexivity.
  rewrite <- (append_assoc "# Number of cameras: ").
  rewrite data_lines_comment.
  - by apply decode_camera_lines.
  - reflexivity.
  - rewrite mem_char_append.
    by rewrite (field_no_newline _ (str_int_field _)).
Qed.

(** *** Images *)

Lemma keypoint_txt_fields (kp : keypoint) :
  keypoint_txt kp = String.concat " " (keypoint_fields kp).
Proof. by destruct kp as [[x y] p]. Qed.

Lemma points_line_fields (points : list keypoint) :
  String.concat " " (map keypoint_txt points)
  = String.concat " " (List.concat (map keypoint_fields points)).
Proof.
  rewrite (map_ext _ _ keypoint_txt_fields), <- map_map.
  apply concat_groups. apply List.Forall_forall. intros g Hg.
  apply in_map_iff in Hg as (kp & <- & _). discriminate.
Qed.

Lemma keypoint_fields_ok (points : list keypoint) :
  Forall field (List.concat (map keypoint_fields points)).
Proof.
  induction points as [|kp points IH]; [constructor|].
  cbn. repeat (constructor; [apply str_int_field|]). exact IH.
Qed.

Lemma decode_keypoints (points : list keypoint) :
  Forall keypoint_ok points ->
  decode_keypoints_txt (List.concat (map keypoint_fields points))
  = Some (map keypoint_of_entry points).
Proof.
  induction 1 as [|kp points [[Hx _] [Hy _]] _ IH]; [reflexivity|].
  cbn [map List.concat keypoint_fields app decode_keypoints_txt].
  rewrite Hx, Hy, parse_str_int. cbn [mbind option_bind].
  rewrite IH. reflexivity.
Qed.

Lemma points_line_props (points : list keypoint) :
  Txt.is_comment (String.concat " " (map keypoint_txt points)) = false
  /\ Txt.mem_char "010" (String.concat " " (map keypoint_txt points)) = false.
Proof.
  rewrite points_line_fields. split.
  - destruct points as [|[[x y] p] points]; [reflexivity|].
    cbn [map List.concat keypoint_fields app fst snd].
    rewrite concat_cons by discriminate. apply str_int_not_comment.
  - apply mem_char_concat; [reflexivity|].
    eapply Forall_impl; [apply keypoint_fields_ok|].
    apply field_no_newline.
Qed.

Lemma decode_image (q : F * F * F * F) (t : F * F * F) (name : string)
    (points : list keypoint) (i : nat) :
  floats4_ok q -> floats3_ok t -> Forall keypoint_ok points ->
  decode_image_txt
    (String.concat " "
       [Fmt.str_int (Z.of_nat i + 1);
        str_float q.1.1.1; str_float q.1.1.2; str_float q.1.2;
        str_float q.2;
        str_float t.1.1; str_float t.1.2; str_float t.2;
        Fmt.str_int (Z.of_nat i + 1); Fmt.basename name])
    (String.concat " " (map keypoint_txt points))
  = Some {| image_id := Z.of_nat i + 1; qvec := q; tvec := t;
            pose_camera_id := Z.of_nat i + 1;
            image_name := Fmt.basename name;
            points2D := map keypoint_of_entry points |}.
Proof.
  intros ((Hqw & _) & (Hqx & _) & (Hqy & _) & (Hqz & _))
         ((Htx & _) & (Hty & _) & (Htz & _)) Hkps.
  unfold decode_image_txt.
  pose proof (split_concat_app
                [Fmt.str_int (Z.of_nat i + 1);
                 str_float q.1.1.1; str_float q.1.1.2; str_float q.1.2;
                 str_float q.2;
                 str_float t.1.1; str_float t.1.2; str_float t.2;
                 Fmt.str_int (Z.of_nat i + 1)] (Fmt.basename name)) as Hs.
  cbn [app] in Hs. rewrite Hs; clear Hs.
  - rewrite !parse_str_int. cbn [mbind option_bind].
    rewrite Hqw, Hqx, Hqy, Hqz, Htx, Hty, Htz. cbn [mbind option_bind].
    rewrite points_line_fields, tokens_concat by apply keypoint_fields_ok.
    rewrite (decode_keypoints points Hkps). cbn [mbind option_bind].
    rewrite concat_split. by destruct q as [[[] ?] ?], t as [[] ?].
  - repeat (constructor;
            [first [apply str_int_field | apply str_float_is_field]|]).
    constructor.
Qed.

Section TextImages.

Variable quaternions : list (F * F * F * F).
Variable translations : list (F * F * F).
Variable image_points2D : list (list keypoint).
Variable image_names : list string.
Hypothesis Hq : Forall floats4_ok quaternions.
Hypothesis Ht : Forall floats3_ok translations.
Hypothesis Hkps : Forall (Forall keypoint_ok) image_points2D.
Hypothesis Hnames :
  Forall (fun n => Txt.mem_char "010" (Fmt.basename n) = false) image_names.

Lemma decode_image_lines_write (idxs : list nat) (ls : list string) :
  mapM (image_lines quaternions translations image_points2D image_names)
    idxs = Some ls ->
  decode_image_lines (Txt.data_lines (String.concat "" ls))
  = mapM (image_of quaternions translations image_points2D image_names)
      idxs.
Proof.
  revert ls. induction idxs as [|i idxs IH]; intros ls Hls.
  { cbn in Hls. injection Hls as <-. reflexivity. }
  cbn [mapM] in Hls |- *.
  destruct (image_lines _ _ _ _ i) as [line|] eqn:Hline; [|discriminate].
  cbn [mbind option_bind] in Hls.
  destruct (mapM _ idxs) as [ls'|] eqn:Hls'; [|discriminate].
  cbn in Hls. injection Hls as <-.
  specialize (IH ls' eq_refl).
  unfold image_lines in Hline. unfold image_of.
  destruct (quaternions !! i) as [q|] eqn:Eq; [|discriminate].
  destruct (translations !! i) as [t|] eqn:Et;
    [|destruct q as [[[] ?] ?]; discriminate].
  destruct (image_names !! i) as [name|] eqn:En;
    [|destruct q as [[[] ?] ?], t as [[] ?]; discriminate].
  destruct (image_points2D !! i) as [points|] eqn:Ep;
    [|destruct q as [[[] ?] ?], t as [[] ?]; discriminate].
  cbn [mbind option_bind].
  assert (floats4_ok q) as Hqi
    by (eapply Forall_lookup_1 in Hq; eauto).
  assert (floats3_ok t) as Hti
    by (eapply Forall_lookup_1 in Ht; eauto).
  assert (Forall keypoint_ok points) as Hpi
    by (eapply Forall_lookup_1 in Hkps; eauto).
  assert (Txt.mem_char "010" (Fmt.basename name) = false) as Hni
    by (eapply Forall_lookup_1 in Hnames; eauto; exact Hnames).
  pose proof (decode_image q t name points i Hqi Hti Hpi) as Hdec.
  destruct q as [[[qw qx] qy] qz], t as [[tx ty] tz].
  cbn [mbind option_bind fst snd] in Hline, Hdec.
  apply (inj Some) in Hline. subst line.
  rewrite concat_empty_cons, !append_assoc.
  pose proof (fields_line (Z.of_nat i + 1)
                [str_float qw; str_float qx; str_float qy; str_float qz;
                 str_float tx; str_float ty; str_float tz;
                 Fmt.str_int (Z.of_nat i + 1)] (Fmt.basename name))
    as Hl.
  cbn [app] in Hl. rewrite Hl; clear Hl.
  - destruct (points_line_props points) as [Hc Hnl].
    rewrite (data_lines_data _ _ Hc Hnl).
    cbn [decode_image_lines]. rewrite Hdec. cbn [mbind option_bind].
    rewrite IH. reflexivity.
  - repeat (constructor;
            [first [apply str_int_field | apply str_float_is_field]|]).
    constructor.
  - exact Hni.
Qed.

Lemma decode_images_txt_write (txt : string) :
  write_colmap_images_txt quaternions translations image_points2D
    image_names = Some txt ->
  decode_images_txt txt
  = mapM (image_of quaternions translations image_points2D image_names)
      (seq 0 (length quaternions)).
Proof.
  unfold write_colmap_images_txt, decode_images_txt.
  destruct (mapM _ _) as [ls|] eqn:Hls; [|discriminate].
  cbn [mbind option_bind]. intros Htxt.
  apply (inj Some) in Htxt. subst txt.
  rewrite data_lines_comment by reflexivity.
  rewrite data_lines_comment by reflexivity.
  rewrite data_lines_comment by reflexivity.
  match goal with
  | |- context [(?a ++ ?b ++ ?c ++ ?d ++ Fmt.nl ++ ?r)%string] =>
      replace (a ++ b ++ c ++ d ++ Fmt.nl ++ r)%string
        with ((a ++ b ++ c ++ d) ++ Fmt.nl ++ r)%string
        by (by rewrite !append_assoc)
  end.
  rewrite data_lines_comment.
  - by apply decode_image_lines_write.
  - reflexivity.
  - rewrite !mem_char_append.
    rewrite (field_no_newline _ (str_int_field _)).
    rewrite (format_f_line Hfmt). reflexivity.
Qed.

End TextImages.

(** *** Points *)

Lemma track_txt_fields (t : nat * nat) :
  track_txt t = String.concat " " (track_fields t).
Proof. by destruct t. Qed.

Lemma track_line_fields (tr : list (nat * nat)) :
  String.concat " " (map track_txt tr)
  = String.concat " " (List.concat (map track_fields tr)).
Proof.
  rewrite (map_ext _ _ track_txt_fields), <- map_map.
  apply concat_groups. apply List.Forall_forall. intros g Hg.
  apply in_map_iff in Hg as (t & <- & _). discriminate.
Qed.

Lemma track_fields_ok (tr : list (nat * nat)) :
  Forall field (List.concat (map track_fields tr)).
Proof.
  induction tr as [|t tr IH]; [constructor|].
  cbn. repeat (constructor; [apply str_int_field|]). exact IH.
Qed.

Lemma decode_track (tr : list (nat * nat)) :
  decode_track_txt (List.concat (map track_fields tr))
  = Some (map (fun t : nat * nat => (Z.of_nat t.1 + 1, Z.of_nat t.2)) tr).
Proof.
  induction tr as [|t tr IH]; [reflexivity|].
  cbn [map List.concat track_fields app decode_track_txt].
  rewrite !parse_str_int. cbn [mbind option_bind].
  rewrite IH. reflexivity.
Qed.

Lemma point_fields_ok (pt : point_entry F) : Forall field (point_fields pt).
Proof.
  repeat (constructor;
          [first [apply str_int_field | apply str_float_is_field]|]).
  constructor.
Qed.

Lemma point_line_fields (pt : point_entry F) :
  point_line pt
  = (String.concat " "
       (point_fields pt
        ++ [String.concat " " (map track_txt (pt_track pt))])
     ++ Fmt.nl)%string.
Proof.
  unfold point_line, point_fields.
  by destruct (pt_xyz pt) as [[x y] z], (pt_rgb pt) as [[r g] b].
Qed.

Lemma decode_point_line (pt : point_entry F) :
  point_ok pt ->
  decode_point_txt
    (String.concat " "
       (point_fields pt
        ++ [String.concat " " (map track_txt (pt_track pt))]))
  = Some (point_of pt).
Proof.
  intros (((Hx & _) & (Hy & _) & (Hz & _)) & (He & _)).
  unfold decode_point_txt.
  rewrite tokens_concat_app by apply point_fields_ok.
  cbn [point_fields app].
  rewrite !parse_str_int, Hx, Hy, Hz, He. cbn [mbind option_bind].
  rewrite track_line_fields, tokens_concat by apply track_fields_ok.
  rewrite decode_track. cbn [mbind option_bind].
  unfold point_of. by destruct (pt_xyz pt) as [[x y] z].
Qed.

Lemma decode_point_lines (points3D : list (point_entry F)) :
  Forall point_ok points3D ->
  mapM decode_point_txt
    (Txt.data_lines (String.concat "" (map point_line points3D)))
  = Some (map point_of points3D).
Proof.
  induction 1 as [|pt pts Hpt _ IH]; [reflexivity|].
  cbn [map]. rewrite concat_empty_cons, point_line_fields, append_assoc.
  pose proof (decode_point_line pt Hpt) as Hdec.
  set (track := String.concat " " (map track_txt (pt_track pt))) in *.
  change (point_fields pt ++ [track])
    with (Fmt.str_int (Z.of_nat (pt_id pt) + 1)
          :: tl (point_fields pt) ++ [track]) in *.
  rewrite fields_line.
  - cbn [mapM]. rewrite Hdec. cbn [mbind option_bind].
    rewrite IH. reflexivity.
  - apply (Forall_inv_tail (point_fields_ok pt)).
  - unfold track. rewrite track_line_fields.
    apply mem_char_concat; [reflexivity|].
    eapply Forall_impl; [apply track_fields_ok|]. apply field_no_newline.
Qed.

Lemma decode_points3D_txt_write (points3D : list (point_entry F)) :
  Forall point_ok points3D ->
  decode_points3D_txt (write_colmap_points3D_txt points3D)
  = Some (map point_of points3D).
Proof.
  intros Hpts. unfold decode_points3D_txt, write_colmap_points3D_txt.
  rewrite data_lines_comment by reflexivity.
  rewrite <- (append_assoc "#   POINT3D_ID, X, Y, Z, R, G, B, ERROR, ").
  rewrite data_lines_comment by reflexivity.
  match goal with
  | |- context [(?a ++ ?b ++ ?c ++ ?d ++ Fmt.nl ++ ?r)%string] =>
      replace (a ++ b ++ c ++ d ++ Fmt.nl ++ r)%string
        with ((a ++ b ++ c ++ d) ++ Fmt.nl ++ r)%string
        by (by rewrite !append_assoc)
  end.
  rewrite data_lines_comment.
  - by apply decode_point_lines.
  - reflexivity.
  - rewrite !mem_char_append.
    rewrite (field_no_newline _ (str_int_field _)).
    rewrite (format_f_line Hfmt). reflexivity.
Qed.

End TextRoundTrip.

(** ** Reading the binary files back *)

Lemma to_Z_uint8 (v : Z) : Np.to_Z (Np.uint8 v) = v mod 256.
Proof.
  unfold Np.to_Z, Np.uint8.
  assert (0 <= v mod 256 < 256) as Hv by (apply Z.mod_pos_bound; lia).
  destruct (Byte.of_N (Z.to_N (v mod 256))) as [b|] eqn:E.
  - apply Byte.to_of_N in E. rewrite E. lia.
  - apply Byte.of_N_None_iff in E. lia.
Qed.

Lemma length_le_bytes (n : nat) (v : Z) : length (Fmt.le_bytes n v) = n.
Proof. revert v. induction n as [|n IH]; intros v; cbn; [|rewrite IH]; done. Qed.

Lemma le_value_le_bytes (n : nat) (v : Z) :
  0 <= v < 2 ^ (8 * Z.of_nat n) -> Bin.le_value (Fmt.le_bytes n v) = v.
Proof.
  revert v. induction n as [|n IH]; intros v Hv.
  - cbn in *. lia.
  - cbn [Fmt.le_bytes Bin.le_value]. rewrite to_Z_uint8, IH.
    + pose proof (Z.div_mod v 256 ltac:(lia)). lia.
    + replace (8 * Z.of_nat (S n)) with (8 + 8 * Z.of_nat n) in Hv by lia.
      rewrite Z.pow_add_r in Hv by lia. change (2 ^ 8) with 256 in Hv.
      split; [apply Z.div_pos; lia|].
      apply Z.div_lt_upper_bound; lia.
Qed.

Lemma pack_uint_Some (n : nat) (v : Z) (bs : list byte) :
  Fmt.pack_uint n v = Some bs -> length bs = n /\ Bin.le_value bs = v.
Proof.
  unfold Fmt.pack_uint. destruct (_ && _) eqn:E; [|discriminate].
  intros [= <-]. apply andb_true_iff in E as [E1 E2].
  split; [apply length_le_bytes|]. apply le_value_le_bytes. lia.
Qed.

Lemma get_bytes_app (n : nat) (bs rest : list byte) :
  length bs = n -> Bin.get_bytes n (bs ++ rest) = Some (bs, rest).
Proof.
  intros <-. unfold Bin.get_bytes. rewrite length_app.
  destruct (Nat.ltb_spec (length bs + length rest) (length bs)); [lia|].
  by rewrite take_app_length, drop_app_length.
Qed.

Lemma get_uint_pack (n : nat) (v : Z) (bs rest : list byte) :
  Fmt.pack_uint n v = Some bs ->
  Bin.get_uint n (bs ++ rest) = Some (v, rest).
Proof.
  intros Hp. apply pack_uint_Some in Hp as [Hlen Hv].
  unfold Bin.get_uint. rewrite get_bytes_app by exact Hlen.
  cbn. by rewrite Hv.
Qed.

(** Reading back the records written for the items of a list. *)
Lemma get_many_mapM {A B : Type} (enc : A -> option (list byte))
    (dec : Bin.parser B) (model : A -> option B)
    (l : list A) (bss : list (list byte)) (rest : list byte) :
  (forall a bs, a ∈ l -> enc a = Some bs ->
     exists b, model a = Some b /\ forall r, dec (bs ++ r) = Some (b, r)) ->
  mapM enc l = Some bss ->
  exists bl, mapM model l = Some bl
             /\ Bin.get_many dec (length l) (List.concat bss ++ rest)
                = Some (bl, rest).
Proof.
  revert bss. induction l as [|a l IH]; intros bss Hdec Hbss.
  - cbn in Hbss. injection Hbss as <-. exists []. done.
  - cbn [mapM] in Hbss.
    destruct (enc a) as [bs|] eqn:Ha; [|discriminate].
    cbn [mbind option_bind] in Hbss.
    destruct (mapM enc l) as [bss'|] eqn:Hl; [|discriminate].
    cbn in Hbss. injection Hbss as <-.
    destruct (Hdec a bs ltac:(left) Ha) as (b & Hb & Hget).
    destruct (IH bss' (fun a' bs' Hin => Hdec a' bs' (list_elem_of_further _ _ _ Hin))
                eq_refl) as (bl & Hbl & Hmany).
    exists (b :: bl). split.
    + cbn [mapM]. rewrite Hb. cbn [mbind option_bind]. by rewrite Hbl.
    + cbn [length Bin.get_many List.concat]. rewrite <- app_assoc, Hget.
      cbn [mbind option_bind fst snd]. rewrite Hmany. reflexivity.
Qed.

Section BinaryRoundTrip.

Context {F : Type} `{FloatFormat F}.
Hypothesis Hfmt : format_ok.

Lemma get_double_pack (v : F) (rest : list byte) :
  float_ok v -> get_double (pack_double v ++ rest) = Some (v, rest).
Proof.
  intros [_ Hv]. unfold get_double.
  rewrite get_bytes_app by apply (pack_double_length Hfmt).
  cbn. by rewrite Hv.
Qed.

Lemma get_coord_pack (z : Z) (rest : list byte) :
  coord_ok z ->
  get_double (pack_double (float_of_int z) ++ rest)
  = Some (float_of_int z, rest).
Proof.
  intros [_ Hv]. unfold get_double.
  rewrite get_bytes_app by apply (pack_double_length Hfmt).
  cbn. by rewrite Hv.
Qed.

Lemma get_counted_mapM {A B : Type} (enc : A -> option (list byte))
    (dec : Bin.parser B) (model : A -> option B)
    (l : list A) (b_count : list byte) (bss : list (list byte))
    (rest : list byte) :
  (forall a bs, a ∈ l -> enc a = Some bs ->
     exists b, model a = Some b /\ forall r, dec (bs ++ r) = Some (b, r)) ->
  Fmt.pack_uint 8 (Z.of_nat (length l)) = Some b_count ->
  mapM enc l = Some bss ->
  exists bl, mapM model l = Some bl
             /\ get_counted dec (b_count ++ List.concat bss ++ rest)
                = Some (bl, rest).
Proof.
  intros Hdec Hcount Hbss.
  destruct (get_many_mapM enc dec model l bss rest Hdec Hbss)
    as (bl & Hbl & Hmany).
  exists bl. split; [exact Hbl|]. unfold get_counted.
  rewrite (get_uint_pack _ _ _ _ Hcount). cbn [mbind option_bind fst snd].
  rewrite Nat2Z.id. exact Hmany.
Qed.

Lemma whole_app {A : Type} (p : Bin.parser A) (bs : list byte) (a : A) :
  p (bs ++ []) = Some (a, []) -> Bin.whole p bs = Some a.
Proof. rewrite app_nil_r. unfold Bin.whole. by intros ->. Qed.

(** *** Cameras *)

Lemma get_camera_record (i : nat) (K : matrix F) (w h : nat)
    (bs rest : list byte) :
  intrinsic_ok K ->
  camera_record i K w h = Some bs ->
  get_camera (bs ++ rest) = Some (camera_of i K w h, rest).
Proof.
  intros (Hfx & Hfy & Hcx & Hcy). cbn [fst snd] in *.
  unfold camera_record.
  destruct (Fmt.pack_uint 4 (Z.of_nat i + 1)) as [b_id|] eqn:E1;
    [|discriminate]; cbn [mbind option_bind].
  destruct (Fmt.pack_uint 4 1) as [b_model|] eqn:E2;
    [|discriminate]; cbn [mbind option_bind].
  destruct (Fmt.pack_uint 8 (Z.of_nat w)) as [b_w|] eqn:E3;
    [|discriminate]; cbn [mbind option_bind].
  destruct (Fmt.pack_uint 8 (Z.of_nat h)) as [b_h|] eqn:E4;
    [|discriminate]; cbn [mbind option_bind].
  intros Hbs. apply (inj Some) in Hbs. subst bs.
  unfold get_camera. rewrite <- !app_assoc.
  rewrite (get_uint_pack _ _ _ _ E1). cbn [mbind option_bind fst snd].
  rewrite (get_uint_pack _ _ _ _ E2). cbn [mbind option_bind fst snd].
  rewrite (get_uint_pack _ _ _ _ E3). cbn [mbind option_bind fst snd].
  rewrite (get_uint_pack _ _ _ _ E4). cbn [mbind option_bind fst snd].
  rewrite (get_double_pack _ _ Hfx). cbn [mbind option_bind fst snd].
  rewrite (get_double_pack _ _ Hfy). cbn [mbind option_bind fst snd].
  rewrite (get_double_pack _ _ Hcx). cbn [mbind option_bind fst snd].
  rewrite (get_double_pack _ _ Hcy). cbn [mbind option_bind fst snd].
  reflexivity.
Qed.

Lemma get_camera_records (intrinsics : list (matrix F)) (w h i : nat)
    (bs rest : list byte) :
  Forall intrinsic_ok intrinsics ->
  camera_records i intrinsics w h = Some bs ->
  Bin.get_many get_camera (length intrinsics) (bs ++ rest)
  = Some (cameras_of i intrinsics w h, rest).
Proof.
  intros HK. revert i bs. induction HK as [|K Ks HK _ IH]; intros i bs Hbs.
  - cbn in Hbs. injection Hbs as <-. reflexivity.
  - cbn [camera_records] in Hbs.
    destruct (camera_record i K w h) as [b|] eqn:Hb; [|discriminate].
    cbn [mbind option_bind] in Hbs.
    destruct (camera_records (S i) Ks w h) as [bs'|] eqn:Hbs';
      [|discriminate].
    cbn in Hbs. injection Hbs as <-.
    cbn [length Bin.get_many cameras_of]. rewrite <- app_assoc.
    rewrite (get_camera_record i K w h b _ HK Hb).
    cbn [mbind option_bind fst snd]. rewrite (IH (S i) bs' Hbs').
    reflexivity.
Qed.

Lemma decode_cameras_bin_write (intrinsics : list (matrix F)) (w h : nat)
    (bs : list byte) :
  Forall intrinsic_ok intrinsics ->
  write_colmap_cameras_bin intrinsics w h = Some bs ->
  decode_cameras_bin bs = Some (cameras_of 0 intrinsics w h).
Proof.
  intros HK. unfold write_colmap_cameras_bin.
  destruct (Fmt.pack_uint 8 _) as [b_count|] eqn:Hc; [|discriminate].
  cbn [mbind option_bind].
  destruct (camera_records 0 intrinsics w h) as [bs'|] eqn:Hbs;
    [|discriminate].
  cbn [mbind option_bind]. intros [= <-].
  apply whole_app. unfold get_counted. rewrite <- app_assoc.
  rewrite (get_uint_pack _ _ _ _ Hc). cbn [mbind option_bind fst snd].
  rewrite Nat2Z.id. by apply get_camera_records.
Qed.

Lemma mapM_total {A B : Type} (f : A -> B) (l : list A) (bl : list B) :
  mapM (fun a => Some (f a)) l = Some bl -> bl = map f l.
Proof.
  revert bl. induction l as [|a l IH]; intros bl; cbn [mapM].
  - by intros [= <-].
  - cbn [mbind option_bind]. destruct (mapM _ l) as [bl'|]; [|discriminate].
    cbn. intros [= <-]. by rewrite (IH bl' eq_refl).
Qed.

(** *** Images *)

Lemma get_keypoint_bin (kp : keypoint) (bs rest : list byte) :
  keypoint_ok kp -> keypoint_bin kp = Some bs ->
  get_keypoint (bs ++ rest) = Some (keypoint_of_entry kp, rest).
Proof.
  destruct kp as [[x y] p]. intros [Hx Hy]. cbn [fst snd] in *.
  unfold keypoint_bin.
  destruct (Fmt.pack_uint 8 _) as [b_id|] eqn:E; [|discriminate].
  cbn [mbind option_bind]. intros Hbs. apply (inj Some) in Hbs. subst bs.
  unfold get_keypoint. rewrite <- !app_assoc.
  rewrite (get_coord_pack _ _ Hx). cbn [mbind option_bind fst snd].
  rewrite (get_coord_pack _ _ Hy). cbn [mbind option_bind fst snd].
  rewrite (get_uint_pack _ _ _ _ E). reflexivity.
Qed.

Lemma get_keypoints_bin (points : list keypoint) (b_count : list byte)
    (bss : list (list byte)) (rest : list byte) :
  Forall keypoint_ok points ->
  Fmt.pack_uint 8 (Z.of_nat (length points)) = Some b_count ->
  mapM keypoint_bin points = Some bss ->
  get_counted get_keypoint (b_count ++ List.concat bss ++ rest)
  = Some (map keypoint_of_entry points, rest).
Proof.
  intros Hok Hc Hbss.
  destruct (get_counted_mapM keypoint_bin get_keypoint
              (fun kp => Some (keypoint_of_entry kp)) points b_count bss rest)
    as (bl & Hbl & Hget); [|exact Hc|exact Hbss|].
  - intros kp bs Hin Hbs. exists (keypoint_of_entry kp).
    split; [reflexivity|]. intros r. apply get_keypoint_bin; [|exact Hbs].
    rewrite Forall_forall in Hok. by apply Hok.
  - apply mapM_total in Hbl as ->. exact Hget.
Qed.

Section BinaryImages.

Variable quaternions : list (F * F * F * F).
Variable translations : list (F * F * F).
Variable image_points2D : list (list keypoint).
Variable image_names : list string.
Hypothesis Hq : Forall floats4_ok quaternions.
Hypothesis Ht : Forall floats3_ok translations.
Hypothesis Hkps : Forall (Forall keypoint_ok) image_points2D.

Lemma get_image_record (i : nat) (bs : list byte) :
  image_record quaternions translations image_points2D image_names i
    = Some bs ->
  exists im,
    image_of quaternions translations image_points2D image_names i
      = Some im
    /\ forall r, get_image (bs ++ r) = Some (im, r).
Proof.
  unfold image_record, image_of.
  destruct (quaternions !! i) as [q|] eqn:Eq; [|discriminate].
  destruct (translations !! i) as [t|] eqn:Et;
    [|destruct q as [[[] ?] ?]; discriminate].
  destruct (image_names !! i) as [name|] eqn:En;
    [|destruct q as [[[] ?] ?], t as [[] ?]; discriminate].
  destruct (image_points2D !! i) as [points|] eqn:Ep;
    [|destruct q as [[[] ?] ?], t as [[] ?]; discriminate].
  assert (floats4_ok q) as (Hqw & Hqx & Hqy & Hqz)
    by (eapply Forall_lookup_1 in Hq; eauto).
  assert (floats3_ok t) as (Htx & Hty & Htz)
    by (eapply Forall_lookup_1 in Ht; eauto).
  assert (Forall keypoint_ok points) as Hpi
    by (eapply Forall_lookup_1 in Hkps; eauto).
  destruct q as [[[qw qx] qy] qz], t as [[tx ty] tz].
  cbn [mbind option_bind fst snd] in *.
  destruct (Fmt.pack_uint 4 (Z.of_nat i + 1)) as [b_id|] eqn:E1;
    [|discriminate]; cbn [mbind option_bind].
  destruct (Fmt.pack_uint 4 (Z.of_nat (length _))) as [b_len|] eqn:E2;
    [|discriminate]; cbn [mbind option_bind].
  destruct (Fmt.pack_uint 8 _) as [b_count|] eqn:E3;
    [|discriminate]; cbn [mbind option_bind].
  destruct (mapM keypoint_bin points) as [b_points|] eqn:E4;
    [|discriminate]; cbn [mbind option_bind].
  intros Hbs. apply (inj Some) in Hbs. subst bs.
  eexists. split; [reflexivity|]. intros r.
  unfold get_image. rewrite <- !app_assoc.
  rewrite (get_uint_pack _ _ _ _ E1). cbn [mbind option_bind fst snd].
  rewrite (get_double_pack _ _ Hqw). cbn [mbind option_bind fst snd].
  rewrite (get_double_pack _ _ Hqx). cbn [mbind option_bind fst snd].
  rewrite (get_double_pack _ _ Hqy). cbn [mbind option_bind fst snd].
  rewrite (get_double_pack _ _ Hqz). cbn [mbind option_bind fst snd].
  rewrite (get_double_pack _ _ Htx). cbn [mbind option_bind fst snd].
  rewrite (get_double_pack _ _ Hty). cbn [mbind option_bind fst snd].
  rewrite (get_double_pack _ _ Htz). cbn [mbind option_bind fst snd].
  rewrite (get_uint_pack _ _ _ _ E1). cbn [mbind option_bind fst snd].
  rewrite (get_uint_pack _ _ _ _ E2). cbn [mbind option_bind fst snd].
  rewrite Nat2Z.id, get_bytes_app by reflexivity.
  cbn [mbind option_bind fst snd].
  rewrite (get_keypoints_bin points b_count b_points r Hpi E3 E4).
  cbn [mbind option_bind fst snd].
  rewrite string_of_list_byte_of_string. reflexivity.
Qed.

Lemma decode_images_bin_write (bs : list byte) :
  write_colmap_images_bin quaternions translations image_points2D
    image_names = Some bs ->
  exists ims,
    mapM (image_of quaternions translations image_points2D image_names)
      (seq 0 (length quaternions)) = Some ims
    /\ decode_images_bin bs = Some ims.
Proof.
  unfold write_colmap_images_bin.
  destruct (Fmt.pack_uint 8 _) as [b_count|] eqn:Hc; [|discriminate].
  cbn [mbind option_bind].
  destruct (mapM _ _) as [records|] eqn:Hr; [|discriminate].
  cbn [mbind option_bind]. intros [= <-].
  destruct (get_counted_mapM
              (image_record quaternions translations image_points2D
                 image_names) get_image
              (image_of quaternions translations image_points2D
                 image_names)
              (seq 0 (length quaternions)) b_count records [])
    as (ims & Hims & Hget); [| |exact Hr|].
  - intros i b _ Hb. by apply get_image_record.
  - by rewrite length_seq.
  - exists ims. split; [exact Hims|]. apply whole_app.
    rewrite <- app_assoc. exact Hget.
Qed.

End BinaryImages.

(** *** Points *)

Lemma get_track_bin (t : nat * nat) (bs rest : list byte) :
  track_bin t = Some bs ->
  get_track_entry (bs ++ rest)
  = Some ((Z.of_nat t.1 + 1, Z.of_nat t.2), rest).
Proof.
  destruct t as [img idx]. unfold track_bin.
  destruct (Fmt.pack_uint 4 (Z.of_nat img + 1)) as [b_img|] eqn:E1;
    [|discriminate]; cbn [mbind option_bind].
  destruct (Fmt.pack_uint 4 (Z.of_nat idx)) as [b_idx|] eqn:E2;
    [|discriminate]; cbn [mbind option_bind].
  intros Hbs. apply (inj Some) in Hbs. subst bs.
  unfold get_track_entry. rewrite <- !app_assoc.
  rewrite (get_uint_pack _ _ _ _ E1). cbn [mbind option_bind fst snd].
  rewrite (get_uint_pack _ _ _ _ E2). reflexivity.
Qed.

Lemma get_point_record (pt : point_entry F) (bs rest : list byte) :
  point_ok pt -> point_record pt = Some bs ->
  get_point (bs ++ rest) = Some (point_of pt, rest).
Proof.
  intros ((Hx & Hy & Hz) & He). unfold point_record, point_of.
  destruct (pt_xyz pt) as [[x y] z], (pt_rgb pt) as [[r g] b].
  cbn [fst snd] in *.
  destruct (Fmt.pack_uint 8 (Z.of_nat (pt_id pt) + 1)) as [b_id|] eqn:E1;
    [|discriminate]; cbn [mbind option_bind].
  destruct (Fmt.pack_uint 1 (Np.to_Z r)) as [b_r|] eqn:E2;
    [|discriminate]; cbn [mbind option_bind].
  destruct (Fmt.pack_uint 1 (Np.to_Z g)) as [b_g|] eqn:E3;
    [|discriminate]; cbn [mbind option_bind].
  destruct (Fmt.pack_uint 1 (Np.to_Z b)) as [b_b|] eqn:E4;
    [|discriminate]; cbn [mbind option_bind].
  destruct (Fmt.pack_uint 8 (Z.of_nat (length _))) as [b_len|] eqn:E5;
    [|discriminate]; cbn [mbind option_bind].
  destruct (mapM track_bin (pt_track pt)) as [b_track|] eqn:E6;
    [|discriminate]; cbn [mbind option_bind].
  intros Hbs. apply (inj Some) in Hbs. subst bs.
  unfold get_point. rewrite <- !app_assoc.
  rewrite (get_uint_pack _ _ _ _ E1). cbn [mbind option_bind fst snd].
  rewrite (get_double_pack _ _ Hx). cbn [mbind option_bind fst snd].
  rewrite (get_double_pack _ _ Hy). cbn [mbind option_bind fst snd].
  rewrite (get_double_pack _ _ Hz). cbn [mbind option_bind fst snd].
  rewrite (get_uint_pack _ _ _ _ E2). cbn [mbind option_bind fst snd].
  rewrite (get_uint_pack _ _ _ _ E3). cbn [mbind option_bind fst snd].
  rewrite (get_uint_pack _ _ _ _ E4). cbn [mbind option_bind fst snd].
  rewrite (get_double_pack _ _ He). cbn [mbind option_bind fst snd].
  destruct (get_counted_mapM track_bin get_track_entry
              (fun t : nat * nat =>
                 Some (Z.of_nat t.1 + 1, Z.of_nat t.2))
              (pt_track pt) b_len b_track rest)
    as (bl & Hbl & Hget); [|exact E5|exact E6|].
  - intros t bs _ Hbs. eexists. split; [reflexivity|].
    intros r0. by apply get_track_bin.
  - apply mapM_total in Hbl as ->. rewrite Hget. reflexivity.
Qed.

Lemma decode_points3D_bin_write (points3D : list (point_entry F))
    (bs : list byte) :
  Forall point_ok points3D ->
  write_colmap_points3D_bin points3D = Some bs ->
  decode_points3D_bin bs = Some (map point_of points3D).
Proof.
  intros Hok. unfold write_colmap_points3D_bin.
  destruct (Fmt.pack_uint 8 _) as [b_count|] eqn:Hc; [|discriminate].
  cbn [mbind option_bind].
  destruct (mapM point_record points3D) as [records|] eqn:Hr;
    [|discriminate].
  cbn [mbind option_bind]. intros [= <-].
  destruct (get_counted_mapM point_record get_point
              (fun pt => Some (point_of pt)) points3D b_count records [])
    as (pl & Hpl & Hget); [|exact Hc|exact Hr|].
  - intros pt b Hin Hb. eexists. split; [reflexivity|].
    intros r. apply get_point_record; [|exact Hb].
    rewrite Forall_forall in Hok. by apply Hok.
  - apply mapM_total in Hpl as ->. apply whole_app.
    rewrite <- app_assoc. exact Hget.
Qed.

End BinaryRoundTrip.

(** * The classifier heuristics and the pose converter *)

Lemma gt_exceeds (v : float) (c : Q) : Np.gt v c = true <-> exceeds v c.
Proof.
  destruct v; cbn; [apply Qltb_lt| | |]; split; try done.
Qed.

(** C9.  A point is classified as sky exactly when its second (up)
    coordinate exceeds 1.0 and its blue channel exceeds 1.2 times the red
    channel and 1.2 times the green channel.  A point at up-coordinate 2.0
    with colour (10, 10, 200) is sky, and with the sky filter enabled the
    aggregator skips it; the same point with colour (10, 10, 11) is not
    sky. *)
Theorem sky_predicate :
  (forall (p : point) (r g b : byte),
      is_sky_point p (r, g, b) = true <->
      exceeds p.1.2 1
      /\ ((12 # 10) * inject_Z (Np.to_Z r) < inject_Z (Np.to_Z b))%Q
      /\ ((12 # 10) * inject_Z (Np.to_Z g) < inject_Z (Np.to_Z b))%Q)
  /\ (forall px pz : float,
        is_sky_point (px, Fin 2, pz) (Np.uint8 10, Np.uint8 10, Np.uint8 200)
        = true)
  /\ (forall px pz : float,
        is_sky_point (px, Fin 2, pz) (Np.uint8 10, Np.uint8 10, Np.uint8 11)
        = false)
  /\ (forall predictions flags orig_img scale_y scale_x img_idx y x qx qz,
        mask_sky flags = true ->
        Np.getitem (world_points_from_depth predictions) img_idx y x
          = Some (Fin qx, Fin 2, Fin qz) ->
        sample_rgb orig_img scale_y scale_x y x
          = Some (Np.uint8 10, Np.uint8 10, Np.uint8 200) ->
        sample_tests predictions flags orig_img scale_y scale_x img_idx y x
          = Some None).
Proof.
  split; [|split; [|split]].
  - intros [[px py] pz] r g b. unfold is_sky_point. cbn [fst snd].
    rewrite !andb_true_iff, !Qltb_lt, gt_exceeds. tauto.
  - intros px pz. reflexivity.
  - intros px pz. reflexivity.
  - intros predictions flags orig_img scale_y scale_x img_idx y x qx qz
           Hsky Hp Hrgb.
    unfold sample_tests. rewrite Hp. cbn [mbind option_bind Np.isfinite andb negb].
    rewrite Hrgb. cbn [mbind option_bind]. rewrite Hsky. reflexivity.
Qed.

Lemma sky_predicate_witness :
  sample_tests Examples.sky_scene
    {| mask_sky := true; mask_black_bg := false; mask_white_bg := false |}
    (Examples.blue_image 1 1) (Fin 1) (Fin 1) 0 0 0
  = Some None.
Proof.
  destruct sky_predicate as (_ & _ & _ & Hskip).
  apply (Hskip Examples.sky_scene _ (Examples.blue_image 1 1) (Fin 1) (Fin 1)
           0%nat 0 0 0%Q 0%Q); reflexivity.
Defined.

Lemma extrinsic_fold {F : Type} `{Rotation F} (extrinsics : list (matrix F))
    (qs : list (F * F * F * F)) (ts : list (F * F * F)) :
  fold_left
    (fun (acc : list (F * F * F * F) * list (F * F * F)) (E : matrix F) =>
       let R := rotation_part E in
       let t := translation_part E in
       let '(q0, q1, q2, q3) := as_quat R in
       let quat := (q3, q0, q1, q2) in
       (acc.1 ++ [quat], acc.2 ++ [t]))
    extrinsics (qs, ts)
  = (qs ++ map (fun E => let '(q0, q1, q2, q3) := as_quat (rotation_part E) in
                         (q3, q0, q1, q2)) extrinsics,
     ts ++ map translation_part extrinsics).
Proof.
  revert qs ts. induction extrinsics as [|E Es IH]; intros qs ts.
  - cbn. by rewrite !app_nil_r.
  - cbn [fold_left map]. destruct (as_quat (rotation_part E)) as [[[q0 q1] q2] q3].
    cbn [fst snd]. rewrite IH, <- !app_assoc. reflexivity.
Qed.

(** C8.  For every list of camera-to-world extrinsics the pose converter
    returns one quaternion and one translation per extrinsic; the
    quaternion is the one the rotation library computes for the rotation
    block, reordered from the library's (x, y, z, w) to (w, x, y, z); the
    translation is the fourth column, unchanged. *)
Theorem pose_conversion {F : Type} `{Rotation F} (extrinsics : list (matrix F)) :
  length (extrinsic_to_colmap_format extrinsics).1 = length extrinsics
  /\ length (extrinsic_to_colmap_format extrinsics).2 = length extrinsics
  /\ forall (i : nat) (E : matrix F) (x y z w : F),
       extrinsics !! i = Some E ->
       as_quat (rotation_part E) = (x, y, z, w) ->
       (extrinsic_to_colmap_format extrinsics).1 !! i = Some (w, x, y, z)
       /\ (extrinsic_to_colmap_format extrinsics).2 !! i
          = Some (E 0 3, E 1 3, E 2 3)%nat.
Proof.
  unfold extrinsic_to_colmap_format. rewrite extrinsic_fold. cbn [fst snd app].
  rewrite !length_map. split; [reflexivity|]. split; [reflexivity|].
  intros i E x y z w HE Hq. split.
  - change (map ?f extrinsics) with (f <$> extrinsics).
    rewrite list_lookup_fmap, HE. cbn. by rewrite Hq.
  - change (map ?f extrinsics) with (f <$> extrinsics).
    rewrite list_lookup_fmap, HE. reflexivity.
Qed.

Lemma pose_conversion_witness :
  (extrinsic_to_colmap_format (H := Examples.identity_rotation)
     (extrinsic Examples.two_cells)).1 !! 0%nat
  = Some (Fin 1, Fin 0, Fin 0, Fin 0)
  /\ (extrinsic_to_colmap_format (H := Examples.identity_rotation)
        (extrinsic Examples.two_cells)).2 !! 0%nat
     = Some (Fin 0, Fin 0, Fin 0).
Proof.
  destruct (pose_conversion (H := Examples.identity_rotation)
              (extrinsic Examples.two_cells)) as (_ & _ & Hi).
  apply (Hi 0%nat (fun r c => Fin (if (r =? c)%nat then 1 else 0))
            (Fin 0) (Fin 0) (Fin 0) (Fin 1)); reflexivity.
Defined.

(** * Cross-format equivalence *)

(** C2.  Whatever cameras, poses, keypoints and points both writer
    families are given, the three text files and the three binary files
    decode to the same Camera, ImagePose and Point3D collections, field for
    field: the 1-based ids, the dimensions, the parameters, the poses, the
    keypoints and the track entries.  The values are compared modulo
    float64 precision: every float written is one that both forms give
    back ([float_ok], [coord_ok]); the binary writers are assumed to
    return (every integer fits its field) and no file name contains a
    newline. *)
Theorem cross_format_equivalence {F : Type} `{FloatFormat F}
    (Hfmt : format_ok)
    (intrinsics : list (matrix F)) (quaternions : list (F * F * F * F))
    (translations : list (F * F * F))
    (image_points2D : list (list keypoint)) (image_names : list string)
    (points3D : list (point_entry F)) (width height : nat)
    (HK : Forall intrinsic_ok intrinsics)
    (Hq : Forall floats4_ok quaternions)
    (Ht : Forall floats3_ok translations)
    (Hkps : Forall (Forall keypoint_ok) image_points2D)
    (Hnames :
       Forall (fun n => Txt.mem_char "010" (Fmt.basename n) = false)
         image_names)
    (Hpts : Forall point_ok points3D)
    (images_txt : string) (cameras_bin images_bin points_bin : list byte)
    (Hit : write_colmap_images_txt quaternions translations image_points2D
             image_names = Some images_txt)
    (Hcb : write_colmap_cameras_bin intrinsics width height
           = Some cameras_bin)
    (Hib : write_colmap_images_bin quaternions translations image_points2D
             image_names = Some images_bin)
    (Hpb : write_colmap_points3D_bin points3D = Some points_bin) :
  exists cameras images points,
    decode_cameras_txt (write_colmap_cameras_txt intrinsics width height)
      = Some cameras
    /\ decode_cameras_bin cameras_bin = Some cameras
    /\ decode_images_txt images_txt = Some images
    /\ decode_images_bin images_bin = Some images
    /\ decode_points3D_txt (write_colmap_points3D_txt points3D) = Some points
    /\ decode_points3D_bin points_bin = Some points
    /\ cameras = cameras_of 0 intrinsics width height
    /\ mapM (image_of quaternions translations image_points2D image_names)
         (seq 0 (length quaternions)) = Some images
    /\ points = map point_of points3D.
Proof.
  destruct (decode_images_bin_write Hfmt quaternions translations
              image_points2D image_names Hq Ht Hkps images_bin Hib)
    as (images & Himages & Hdec_ib).
  exists (cameras_of 0 intrinsics width height), images,
    (map point_of points3D).
  split; [by apply decode_cameras_txt_write|].
  split; [by apply decode_cameras_bin_write|].
  split.
  { rewrite (decode_images_txt_write Hfmt quaternions translations
               image_points2D image_names Hq Ht Hkps Hnames images_txt Hit).
    exact Himages. }
  split; [exact Hdec_ib|].
  split; [by apply decode_points3D_txt_write|].
  split; [by apply decode_points3D_bin_write|].
  done.
Qed.

(** ** The example float format *)

Lemma fraction_format_ok : format_ok (H := Examples.fraction_format).
Proof.
  split.
  - intros [q| | |]; cbn [str_float Examples.fraction_format
                           Examples.str_fraction];
      [|repeat split; discriminate..].
    rewrite concat_cons by discriminate. cbn [String.concat].
    split; [|split].
    + pose proof (str_int_nonempty (Qnum q)).
      destruct (Fmt.str_int (Qnum q)); [done|discriminate].
    + rewrite !mem_char_append.
      rewrite !(str_int_chars " ") by reflexivity. reflexivity.
    + rewrite !mem_char_append.
      rewrite !(str_int_chars "010") by reflexivity. reflexivity.
  - intros [q| | |]; cbn [pack_double Examples.fraction_format
                           Examples.pack_fraction];
      rewrite length_app, !length_le_bytes; reflexivity.
  - intros d q. cbn [format_f Examples.fraction_format].
    unfold Examples.format_scaled.
    rewrite concat_cons by discriminate. cbn [String.concat].
    rewrite !mem_char_append.
    rewrite !(str_int_chars "010") by reflexivity. reflexivity.
Qed.

(** * The orchestrator *)

Lemma cameras_of_dimensions {F : Type} (intrinsics : list (matrix F))
    (i w h : nat) :
  length (cameras_of i intrinsics w h) = length intrinsics
  /\ forall c, c ∈ cameras_of i intrinsics w h ->
       cam_width c = Z.of_nat w /\ cam_height c = Z.of_nat h.
Proof.
  revert i. induction intrinsics as [|K Ks IH]; intros i.
  - split; [reflexivity|]. intros c Hc. by apply elem_of_nil in Hc.
  - destruct (IH (S i)) as [Hlen Hall]. cbn [cameras_of length].
    split; [by rewrite Hlen|].
    intros c Hc. apply elem_of_cons in Hc as [->|Hc]; [done|by apply Hall].
Qed.

(** C10.  In every run the cameras file, text or binary, holds one
    camera per intrinsic matrix, and every camera carries the same width
    and height: the width and height of the depth grid of the predictions,
    whatever the sizes of the original images are. *)
Theorem shared_camera_dimensions `{Rotation float} `{FloatFormat float}
    (Hfmt : format_ok) (args : Args) (predictions : Predictions)
    (image_names : list string) (files : colmap_files)
    (HK : Forall intrinsic_ok (intrinsic predictions))
    (Hmain : main args predictions image_names = Some files) :
  exists cameras : list (Camera float),
    match files with
    | TextFiles cameras_txt _ _ => decode_cameras_txt cameras_txt
    | BinaryFiles cameras_bin _ _ => decode_cameras_bin cameras_bin
    end = Some cameras
    /\ length cameras = length (intrinsic predictions)
    /\ forall c, c ∈ cameras ->
         cam_width c = Z.of_nat (depth predictions).2
         /\ cam_height c = Z.of_nat (depth predictions).1.2.
Proof.
  unfold main in Hmain.
  destruct (extrinsic_to_colmap_format (extrinsic predictions))
    as [quaternions translations].
  destruct (filter_and_prepare_points _ _ _ _) as [[pts kps]|];
    [|discriminate].
  cbn [mbind option_bind] in Hmain.
  destruct (depth predictions) as [[n height] width]. cbn [fst snd].
  exists (cameras_of 0 (intrinsic predictions) width height).
  destruct (cameras_of_dimensions (intrinsic predictions) 0 width height)
    as [Hlen Hall].
  split; [|split; [exact Hlen|exact Hall]].
  destruct (arg_binary args).
  - destruct (write_colmap_cameras_bin _ width height) as [cameras|] eqn:Hc;
      [|discriminate].
    cbn [mbind option_bind] in Hmain.
    destruct (write_colmap_images_bin _ _ _ _) as [images|]; [|discriminate].
    cbn [mbind option_bind] in Hmain.
    destruct (write_colmap_points3D_bin _) as [points|]; [|discriminate].
    cbn in Hmain. injection Hmain as <-.
    by apply decode_cameras_bin_write.
  - destruct (write_colmap_images_txt _ _ _ _) as [images|]; [|discriminate].
    cbn in Hmain. injection Hmain as <-.
    by apply decode_cameras_txt_write.
Qed.

(** * Further properties of the binary64 arithmetic *)

Lemma round_between (q B b : Q) :
  Fl.round B = Fin b -> (0 <= q <= B)%Q ->
  exists r, Fl.round q = Fin r /\ (0 <= r <= b)%Q.
Proof.
  intros HB [Hq0 HqB].
  pose proof (round_mono 0 q Hq0) as Hlo.
  pose proof (round_mono q B HqB) as Hhi.
  rewrite HB in Hhi. change (Fl.round 0) with (Fin 0) in Hlo.
  destruct (Fl.round q) as [r| | |]; try discriminate.
  exists r. split; [reflexivity|].
  apply leb_Fin in Hlo, Hhi. done.
Qed.

Lemma nearest_exact (q : Q) (n : Z) :
  (q == inject_Z n * 2 ^ Fl.ulp_exp q)%Q -> (Fl.nearest q == q)%Q.
Proof.
  intros Hq. unfold Fl.nearest.
  pose proof (pow2_pos (Fl.ulp_exp q)) as He.
  assert (q / 2 ^ Fl.ulp_exp q == inject_Z n)%Q as Hn.
  { rewrite Hq at 1. field. lra. }
  rewrite (rint_comp _ _ Hn), rint_Z. symmetry. exact Hq.
Qed.

Lemma Qred_Z (z : Z) : Qred (inject_Z z) = inject_Z z.
Proof.
  unfold Qred, inject_Z.
  pose proof (Z.ggcd_gcd z 1) as Hg.
  pose proof (Z.ggcd_correct_divisors z 1) as Hd.
  destruct (Z.ggcd z 1) as [g [n d]]. cbn [fst snd] in *.
  rewrite Z.gcd_1_r in Hg. subst g. destruct Hd as [-> Hd].
  assert (d = 1) as -> by lia. f_equal. lia.
Qed.

(** An integer of at most 53 bits is a binary64 value. *)
Lemma round_Z_exact (z : Z) :
  0 <= z < 2 ^ 53 -> Fl.round (inject_Z z) = Fin (inject_Z z).
Proof.
  intros [Hz0 Hz]. destruct (Z.eq_dec z 0) as [->|Hne]; [reflexivity|].
  assert (0 < inject_Z z)%Q as Hpos
    by (change 0%Q with (inject_Z 0); rewrite <- Zlt_Qlt; lia).
  unfold Fl.round.
  destruct (Qcompare_spec (inject_Z z) 0) as [H|H|_]; [exfalso; lra..|].
  destruct (ilog2_spec _ Hpos) as [Hlo Hhi].
  assert (0 <= Fl.ilog2 (inject_Z z) <= 52) as Hlog.
  { split.
    - assert (2 ^ 0 < 2 ^ (Fl.ilog2 (inject_Z z) + 1))%Q as H.
      { eapply Qle_lt_trans; [|exact Hhi].
        change (2 ^ 0)%Q with (inject_Z 1). rewrite <- Zle_Qle. lia. }
      apply pow2_lt_inv in H. lia.
    - assert (2 ^ Fl.ilog2 (inject_Z z) < 2 ^ 53)%Q as H.
      { eapply Qle_lt_trans; [exact Hlo|].
        rewrite <- pow2_Z by lia. rewrite <- Zlt_Qlt. exact Hz. }
      apply pow2_lt_inv in H. lia. }
  assert (Fl.ulp_exp (inject_Z z) = Fl.ilog2 (inject_Z z) - 52) as He
    by (unfold Fl.ulp_exp, Fl.prec, Fl.emin; lia).
  assert (Fl.nearest (inject_Z z) == inject_Z z)%Q as Hn.
  { apply (nearest_exact _ (z * 2 ^ (52 - Fl.ilog2 (inject_Z z)))).
    rewrite He, inject_Z_mult, pow2_Z by lia.
    rewrite <- Qmult_assoc, <- pow2_split.
    replace (52 - Fl.ilog2 (inject_Z z) + (Fl.ilog2 (inject_Z z) - 52))
      with 0 by lia.
    change (2 ^ 0)%Q with 1%Q. ring. }
  unfold Fl.round_pos.
  destruct (Qle_bool (2 ^ Fl.emax) (Fl.nearest (inject_Z z))) eqn:E.
  - exfalso. apply Qle_bool_iff in E. rewrite Hn in E.
    assert (inject_Z z < 2 ^ 53)%Q
      by (rewrite <- pow2_Z by lia; rewrite <- Zlt_Qlt; exact Hz).
    pose proof (pow2_le 53 Fl.emax ltac:(unfold Fl.emax; lia)). lra.
  - f_equal. rewrite (Qred_complete _ _ Hn).
    apply Qred_Z.
Qed.

(** * Further properties of the aggregator *)

(** ** Strides and thresholds that leave nothing *)

Lemma foldlM_None_head {A S : Type} (f : S -> A -> option S) (a : A)
    (l : list A) (s : S) :
  f s a = None -> foldlM f (a :: l) s = None.
Proof. intros H. cbn. rewrite H. reflexivity. Qed.

Lemma process_image_zero_stride (predictions : Predictions) (cutoff : float)
    (flags : mask_flags) (st : agg_state) (img_idx : nat) :
  process_image predictions cutoff flags 0 st img_idx = None.
Proof.
  unfold process_image.
  destruct (Np.shape _) as [[n h] w].
  destruct (original_images predictions !! img_idx) as [orig_img|];
    [|reflexivity]; cbn [mbind option_bind].
  destruct (Py.truediv _ (Z.of_nat h)) as [scale_y|]; [|reflexivity].
  cbn [mbind option_bind].
  destruct (Py.truediv _ (Z.of_nat w)) as [scale_x|]; [|reflexivity].
  reflexivity.
Qed.

(** X1.  A stride of zero makes the aggregator raise as soon as there is
    one image to process, whatever the threshold and the flags are: the
    [range] of the sampling loops rejects a zero step. *)
Theorem zero_stride_raises (predictions : Predictions) (threshold_pct : float)
    (flags : mask_flags)
    (Himages : (Np.shape (world_points_from_depth predictions)).1.1 <> 0%nat) :
  filter_and_prepare_points predictions threshold_pct flags 0 = None.
Proof.
  unfold filter_and_prepare_points.
  destruct (conf_cutoff predictions threshold_pct) as [cutoff|];
    [|reflexivity].
  cbn [mbind option_bind]. unfold aggregate.
  destruct ((Np.shape (world_points_from_depth predictions)).1.1) as [|n];
    [done|].
  cbn [seq]. rewrite foldlM_None_head; [reflexivity|].
  apply process_image_zero_stride.
Qed.

Lemma items_nil {A} (a : Np.ndarray A) :
  ((Np.shape a).1.1 = 0 \/ (Np.shape a).1.2 = 0 \/ (Np.shape a).2 = 0)%nat ->
  Np.items a = [].
Proof.
  intros H. destruct (Np.items a) as [|v l] eqn:E; [reflexivity|].
  assert (v ∈ Np.items a) as Hin by (rewrite E; left).
  apply elem_of_items in Hin as (i & y & x & Hlt & _). lia.
Qed.

(** X3.  When the confidence array is empty (no image, or a grid
    without rows or without columns) the aggregator raises before any
    loop: an empty array has no maximum. *)
Theorem empty_confidence_raises (predictions : Predictions)
    (threshold_pct : float) (flags : mask_flags) (stride : Z)
    (Hempty : ((Np.shape (depth_conf predictions)).1.1 = 0
               \/ (Np.shape (depth_conf predictions)).1.2 = 0
               \/ (Np.shape (depth_conf predictions)).2 = 0)%nat) :
  filter_and_prepare_points predictions threshold_pct flags stride = None.
Proof.
  unfold filter_and_prepare_points, conf_cutoff, Np.max.
  rewrite (items_nil _ Hempty). reflexivity.
Qed.

(** ** The origin of the points *)

Lemma sum_lengths_app {A} (l1 l2 : list (list A)) :
  sum_lengths (l1 ++ l2) = (sum_lengths l1 + sum_lengths l2)%nat.
Proof.
  unfold sum_lengths. induction l1 as [|l l1 IH]; [reflexivity|].
  cbn. rewrite IH. lia.
Qed.

Lemma sum_lengths_concat {A} (ls : list (list A)) :
  sum_lengths ls = length (concat ls).
Proof.
  unfold sum_lengths. induction ls as [|l ls IH]; [reflexivity|].
  cbn. rewrite length_app, IH. reflexivity.
Qed.

Lemma sum_lengths_insert {A} (ls : list (list A)) (i : nat) (l : list A)
    (a : A) :
  ls !! i = Some l ->
  sum_lengths (<[i := l ++ [a]]> ls) = S (sum_lengths ls).
Proof.
  intros Hi. rewrite <- (take_drop_middle ls i l Hi) at 2.
  rewrite insert_take_drop by (eapply lookup_lt_Some; eauto).
  rewrite !sum_lengths_app. cbn. rewrite length_app. cbn. lia.
Qed.

Lemma register_Some (st : agg_state) (registered : list sample) (s : sample) :
  agg_inv st registered ->
  (smp_img s < length (image_points2D st))%nat ->
  exists st', register st s = Some st'
              /\ length (image_points2D st') = length (image_points2D st).
Proof.
  intros Hinv Hlt. unfold register, record_sample.
  apply lookup_lt_is_Some in Hlt as [kl Hkl]. rewrite Hkl.
  cbn [mbind option_bind].
  destruct (point_indices st !! hash_point (smp_point s) 100) as [pi|] eqn:Hidx.
  - destruct (inv_index _ _ Hinv _ _ Hidx) as (e & He & _). rewrite He.
    cbn. eexists. split; [reflexivity|]. cbn. apply length_insert.
  - cbn. eexists. split; [reflexivity|]. cbn. apply length_insert.
Qed.

Lemma foldlM_register_Some (ss registered : list sample) (st : agg_state) :
  agg_inv st registered ->
  Forall (fun s => (smp_img s < length (image_points2D st))%nat) ss ->
  exists st', foldlM register ss st = Some st'.
Proof.
  revert registered st. induction ss as [|s ss IH]; intros registered st Hinv Hall.
  - eexists. reflexivity.
  - apply Forall_cons in Hall as [Hs Hall].
    destruct (register_Some st registered s Hinv Hs) as (st1 & Hreg & Hlen).
    cbn. rewrite Hreg. cbn.
    apply (IH (registered ++ [s])).
    + eapply register_inv; eauto.
    + rewrite Hlen. exact Hall.
Qed.

Lemma filter_key_snoc (registered : list sample) (s : sample) (h : Z) :
  filter (fun s' => sample_key s' = h) (registered ++ [s]) =
  filter (fun s' => sample_key s' = h) registered
  ++ (if decide (sample_key s = h) then [s] else []).
Proof. rewrite filter_app. f_equal. Qed.

Lemma first_sample_other (registered : list sample) (s0 : sample)
    (e : point_entry float) :
  first_sample registered e ->
  sample_key s0 <> hash_point (pt_xyz e) 100 ->
  first_sample (registered ++ [s0]) e.
Proof.
  intros (l1 & s & l2 & -> & Hl1 & Hid & Hxyz & Hrgb & Herr & Htr) Hne.
  exists l1, s, (l2 ++ [s0]). split; [by rewrite <- app_assoc|].
  split; [exact Hl1|]. split; [exact Hid|].
  split; [exact Hxyz|]. split; [exact Hrgb|].
  split; [exact Herr|].
  rewrite filter_key_snoc, Htr.
  rewrite Hxyz in Hne. fold (sample_key s) in Hne.
  destruct (decide (sample_key s0 = sample_key s)); [done|].
  by rewrite app_nil_r.
Qed.

Lemma register_origin (st st' : agg_state) (registered : list sample)
    (s : sample) :
  agg_inv st registered -> agg_origin st registered ->
  register st s = Some st' ->
  agg_origin st' (registered ++ [s]).
Proof.
  intros Hinv Horg Hreg. destruct s as [[[[img y] x] pt] rgb].
  unfold register, record_sample in Hreg.
  cbn [smp_img smp_y smp_x smp_point smp_rgb fst snd] in Hreg.
  destruct (image_points2D st !! img) as [kl|] eqn:Hkl; [|discriminate].
  cbn [mbind option_bind] in Hreg.
  set (s := (img, y, x, pt, rgb)).
  assert (sample_key s = hash_point pt 100) as Hkey by reflexivity.
  destruct (point_indices st !! hash_point pt 100) as [pi|] eqn:Hidx.
  - destruct (points3D st !! pi) as [e|] eqn:He; [|discriminate].
    cbn in Hreg. injection Hreg as <-.
    destruct (inv_index _ _ Hinv _ _ Hidx) as (e0 & He0 & Hh).
    assert (e0 = e) as -> by congruence.
    set (e' := {| pt_id := pt_id e; pt_track := _ |}).
    assert (forall p e1, <[pi := e']> (points3D st) !! p = Some e1 ->
              (p = pi /\ e1 = e') \/ (p <> pi /\ points3D st !! p = Some e1))
      as Hpts.
    { intros p e1 H.
      apply list_lookup_insert_Some in H as [(-> & <- & _)|[Hne H]];
        [left|right]; done. }
    constructor; cbn [points3D point_indices image_points2D].
    + intros p e1 H. destruct (Hpts _ _ H) as [[-> ->]|[Hne Hp]].
      * cbn. rewrite Hh. exact Hidx.
      * exact (org_key _ _ Horg _ _ Hp).
    + intros p e1 H. destruct (Hpts _ _ H) as [[-> ->]|[Hne Hp]].
      * destruct (org_first _ _ Horg _ _ He)
          as (l1 & s1 & l2 & -> & Hl1 & Hid & Hxyz & Hrgb & Herr & Htr).
        exists l1, s1, (l2 ++ [s]). split; [by rewrite <- app_assoc|].
        split; [exact Hl1|]. cbn. split; [exact Hid|].
        split; [exact Hxyz|]. split; [exact Hrgb|].
        split; [exact Herr|].
        rewrite filter_key_snoc, fmap_app, Htr, fmap_app.
        assert (sample_key s = sample_key s1) as Heq.
        { rewrite Hkey, <- Hh, Hxyz. reflexivity. }
        destruct (decide (sample_key s = sample_key s1)); [|done].
        reflexivity.
      * apply first_sample_other; [exact (org_first _ _ Horg _ _ Hp)|].
        rewrite Hkey. intros Heq.
        pose proof (org_key _ _ Horg _ _ Hp) as Hk. rewrite <- Heq in Hk.
        congruence.
    + rewrite (sum_lengths_insert _ _ _ _ Hkl), (org_kps _ _ Horg).
      rewrite length_app. cbn. lia.
    + rewrite (Permutation_length
                 (all_tracks_insert _ _ e e' (img, length kl) He eq_refl)).
      cbn. rewrite (org_tracks _ _ Horg), length_app. cbn. lia.
  - cbn in Hreg. injection Hreg as <-.
    assert (Forall (fun s' => sample_key s' <> sample_key s) registered)
      as Hfresh.
    { apply Forall_forall. intros s' Hs' Heq.
      apply not_elem_of_dom in Hidx. apply Hidx.
      rewrite (inv_dom _ _ Hinv). apply elem_of_list_to_set.
      apply list_elem_of_fmap. exists s'. split; [|exact Hs'].
      rewrite Heq. reflexivity. }
    constructor; cbn [points3D point_indices image_points2D].
    + intros p e1 H. apply lookup_app_Some in H as [Hp|[Hge H]].
      * pose proof (org_key _ _ Horg _ _ Hp) as Hk.
        rewrite lookup_insert_ne; [exact Hk|].
        intros Heq. rewrite <- Heq in Hk. congruence.
      * apply list_lookup_singleton_Some in H as [Hz <-]. cbn.
        rewrite lookup_insert_eq. f_equal. lia.
    + intros p e1 H. apply lookup_app_Some in H as [Hp|[Hge H]].
      * apply first_sample_other; [exact (org_first _ _ Horg _ _ Hp)|].
        rewrite Hkey. intros Heq.
        pose proof (org_key _ _ Horg _ _ Hp) as Hk. rewrite <- Heq in Hk.
        congruence.
      * apply list_lookup_singleton_Some in H as [Hz <-].
        exists registered, s, []. split; [reflexivity|].
        split; [exact Hfresh|]. cbn.
        split; [exact (points_count _ _ Hinv)|].
        repeat (split; [reflexivity|]).
        rewrite filter_key_snoc.
        destruct (decide (sample_key s = sample_key s)); [|done].
        assert (filter (fun s' => sample_key s' = sample_key s) registered = [])
          as ->; [|reflexivity].
        clear -Hfresh. induction Hfresh as [|a l Ha _ IH]; [reflexivity|].
        rewrite filter_cons. destruct (decide _); [done|exact IH].
    + rewrite (sum_lengths_insert _ _ _ _ Hkl), (org_kps _ _ Horg).
      rewrite length_app. cbn. lia.
    + rewrite all_tracks_app, length_app, (org_tracks _ _ Horg), length_app.
      reflexivity.
Qed.

Lemma foldlM_register_origin (ss registered : list sample)
    (st st' : agg_state) :
  agg_inv st registered -> agg_origin st registered ->
  foldlM register ss st = Some st' ->
  agg_origin st' (registered ++ ss).
Proof.
  revert registered st.
  induction ss as [|s ss IH]; intros registered st Hinv Horg H.
  - cbn in H. injection H as <-. by rewrite app_nil_r.
  - cbn in H. destruct (register st s) as [st1|] eqn:Hreg; [|discriminate].
    cbn in H. rewrite (cons_middle s registered ss), app_assoc.
    eapply IH; [| |exact H].
    + eapply register_inv; eauto.
    + eapply register_origin; eauto.
Qed.

Lemma sum_lengths_replicate {A} (n : nat) :
  sum_lengths (replicate n (@nil A)) = 0%nat.
Proof. unfold sum_lengths. induction n as [|n IH]; [reflexivity|exact IH]. Qed.

Lemma agg_origin_init (n : nat) :
  agg_origin {| points3D := []; point_indices := ∅;
                image_points2D := replicate n [] |} [].
Proof.
  constructor; cbn [points3D point_indices image_points2D].
  - intros p e H. by rewrite lookup_nil in H.
  - intros p e H. by rewrite lookup_nil in H.
  - apply sum_lengths_replicate.
  - reflexivity.
Qed.

Lemma register_length (st st' : agg_state) (s : sample) :
  register st s = Some st' ->
  length (image_points2D st') = length (image_points2D st).
Proof.
  unfold register, record_sample.
  destruct (image_points2D st !! smp_img s) as [kl|]; [|discriminate].
  cbn [mbind option_bind].
  destruct (point_indices st !! _) as [pi|].
  - destruct (points3D st !! pi) as [e|]; [|discriminate].
    cbn. intros [= <-]. cbn. apply length_insert.
  - cbn. intros [= <-]. cbn. apply length_insert.
Qed.

Lemma foldlM_register_length (ss : list sample) (st st' : agg_state) :
  foldlM register ss st = Some st' ->
  length (image_points2D st') = length (image_points2D st).
Proof.
  revert st. induction ss as [|s ss IH]; intros st H.
  - cbn in H. by injection H as <-.
  - cbn in H. destruct (register st s) as [st1|] eqn:Hreg; [|discriminate].
    cbn in H. rewrite (IH _ H). eapply register_length; eauto.
Qed.

(** What a successful run establishes, with the origin of the points. *)
Lemma run_origin (predictions : Predictions) (threshold_pct : float)
    (flags : mask_flags) (stride : Z)
    (pts : list (point_entry float)) (kps : list (list keypoint)) :
  filter_and_prepare_points predictions threshold_pct flags stride
    = Some (pts, kps) ->
  exists cutoff ss st,
    conf_cutoff predictions threshold_pct = Some cutoff
    /\ accepted_samples predictions cutoff flags stride = Some ss
    /\ agg_inv st ss /\ agg_origin st ss
    /\ length (image_points2D st) = (depth predictions).1.1
    /\ points3D st = pts /\ image_points2D st = kps.
Proof.
  unfold filter_and_prepare_points. intros H.
  destruct (conf_cutoff predictions threshold_pct) as [cutoff|] eqn:Hcut;
    [|discriminate].
  cbn [mbind option_bind] in H. rewrite aggregate_samples in H.
  destruct (accepted_samples predictions cutoff flags stride) as [ss|] eqn:Hss;
    [|discriminate].
  cbn [mbind option_bind] in H.
  destruct (foldlM register ss _) as [st|] eqn:Hfold; [|discriminate].
  cbn in H. injection H as <- <-.
  exists cutoff, ss, st.
  split; [reflexivity|]. split; [exact Hss|].
  split; [apply (foldlM_register_inv ss [] _ st (agg_inv_init _) Hfold)|].
  split;
    [apply (foldlM_register_origin ss [] _ st (agg_inv_init _)
              (agg_origin_init _) Hfold)|].
  split; [|split; reflexivity].
  rewrite (foldlM_register_length _ _ _ Hfold). cbn. apply length_replicate.
Qed.

Lemma first_sample_elem (ss : list sample) (e : point_entry float) :
  first_sample ss e ->
  exists s, s ∈ ss /\ pt_xyz e = smp_point s /\ pt_rgb e = smp_rgb s
            /\ pt_track e <> [].
Proof.
  intros (l1 & s & l2 & -> & _ & _ & Hxyz & Hrgb & _ & Htr).
  exists s. split; [apply elem_of_app; right; left|].
  split; [exact Hxyz|]. split; [exact Hrgb|].
  intros Hnil. rewrite Hnil in Htr. cbn in Htr.
  rewrite filter_app, filter_cons in Htr.
  destruct (decide (sample_key s = sample_key s)); [|done].
  rewrite fmap_app in Htr. cbn in Htr.
  symmetry in Htr. apply app_eq_nil in Htr as [_ Htr]. discriminate.
Qed.

Lemma length_concat_nonempty {A} (ls : list (list A)) :
  Forall (fun l => l <> []) ls -> (length ls <= length (concat ls))%nat.
Proof.
  induction 1 as [|l ls Hl _ IH]; [reflexivity|].
  cbn. rewrite length_app. destruct l; [done|]. cbn. lia.
Qed.

(** X6.  A run returns one keypoint list per depth map.  The number of
    keypoints over all images is the number of track entries over all
    points, and the number of accepted samples.  Every point has a
    non-empty track, so there are at most as many points as keypoints. *)
Theorem observation_count (predictions : Predictions)
    (threshold_pct : float) (flags : mask_flags) (stride : Z)
    (pts : list (point_entry float)) (kps : list (list keypoint))
    (Hrun : filter_and_prepare_points predictions threshold_pct flags stride
            = Some (pts, kps)) :
  length kps = (depth predictions).1.1
  /\ sum_lengths kps = sum_lengths (map pt_track pts)
  /\ Forall (fun e => pt_track e <> []) pts
  /\ (length pts <= sum_lengths kps)%nat
  /\ exists cutoff ss,
       conf_cutoff predictions threshold_pct = Some cutoff
       /\ accepted_samples predictions cutoff flags stride = Some ss
       /\ sum_lengths kps = length ss.
Proof.
  destruct (run_origin _ _ _ _ _ _ Hrun)
    as (cutoff & ss & st & Hcut & Hss & Hinv & Horg & Hlen & <- & <-).
  assert (Forall (fun e => pt_track e <> []) (points3D st)) as Hne.
  { apply Forall_forall. intros e He. apply list_elem_of_lookup in He as [p Hp].
    destruct (first_sample_elem _ _ (org_first _ _ Horg _ _ Hp))
      as (s & _ & _ & _ & H). exact H. }
  assert (sum_lengths (image_points2D st)
          = sum_lengths (map pt_track (points3D st))) as Heq.
  { rewrite (org_kps _ _ Horg), sum_lengths_concat.
    symmetry. exact (org_tracks _ _ Horg). }
  split; [exact Hlen|]. split; [exact Heq|]. split; [exact Hne|]. split.
  - rewrite Heq, sum_lengths_concat.
    rewrite <- (length_map pt_track (points3D st)).
    apply length_concat_nonempty. apply Forall_fmap.
    exact Hne.
  - exists cutoff, ss. split; [exact Hcut|]. split; [exact Hss|].
    exact (org_kps _ _ Horg).
Qed.

(** X7.  Every point of the output has the coordinates and the colour
    of the first accepted sample with its hash, in processing order, and
    the error 1.0.  Its id is the number of distinct hashes among the
    samples before that one, and its track lists, in order, the images of
    all the accepted samples with its hash: a later sample of a cell only
    extends the track. *)
Theorem first_sample_wins (predictions : Predictions)
    (threshold_pct : float) (flags : mask_flags) (stride : Z)
    (pts : list (point_entry float)) (kps : list (list keypoint))
    (Hrun : filter_and_prepare_points predictions threshold_pct flags stride
            = Some (pts, kps)) :
  exists cutoff ss,
    conf_cutoff predictions threshold_pct = Some cutoff
    /\ accepted_samples predictions cutoff flags stride = Some ss
    /\ forall e, e ∈ pts -> first_sample ss e.
Proof.
  destruct (run_origin _ _ _ _ _ _ Hrun)
    as (cutoff & ss & st & Hcut & Hss & Hinv & Horg & _ & <- & _).
  exists cutoff, ss. split; [exact Hcut|]. split; [exact Hss|].
  intros e He. apply list_elem_of_lookup in He as [p Hp].
  exact (org_first _ _ Horg _ _ Hp).
Qed.

Lemma point_sample_tests (predictions : Predictions) (cutoff : float)
    (flags : mask_flags) (stride : Z) (ss : list sample)
    (e : point_entry float) :
  accepted_samples predictions cutoff flags stride = Some ss ->
  first_sample ss e ->
  exists orig_img scale_y scale_x img_idx y x,
    sample_tests predictions flags orig_img scale_y scale_x img_idx y x
    = Some (Some (pt_xyz e, pt_rgb e)).
Proof.
  intros Hss Hfirst.
  destruct (first_sample_elem _ _ Hfirst) as (s & Hs & -> & -> & _).
  apply (elem_of_accepted_samples _ _ _ _ _ _ Hss) in Hs
    as (o & sy & sx & ps & _ & _ & _ & _ & _ & _ & Hf).
  apply sample_filter_accept in Hf as [_ Hf]. eauto 10.
Qed.

(** X8.  The output never holds a point with a non-finite coordinate,
    nor a point that an enabled filter classifies as sky, as black
    background or as white background. *)
Theorem points_pass_tests (predictions : Predictions)
    (threshold_pct : float) (flags : mask_flags) (stride : Z)
    (pts : list (point_entry float)) (kps : list (list keypoint))
    (Hrun : filter_and_prepare_points predictions threshold_pct flags stride
            = Some (pts, kps)) :
  forall e, e ∈ pts ->
    (exists qx qy qz, pt_xyz e = (Fin qx, Fin qy, Fin qz))
    /\ (mask_sky flags = true -> is_sky_point (pt_xyz e) (pt_rgb e) = false)
    /\ (mask_black_bg flags = true ->
        is_black_bg_point (pt_rgb e) 30 = false)
    /\ (mask_white_bg flags = true ->
        is_white_bg_point (pt_rgb e) 230 = false).
Proof.
  destruct (run_origin _ _ _ _ _ _ Hrun)
    as (cutoff & ss & st & Hcut & Hss & Hinv & Horg & _ & <- & _).
  intros e He. apply list_elem_of_lookup in He as [p Hp].
  destruct (point_sample_tests _ _ _ _ _ _ Hss (org_first _ _ Horg _ _ Hp))
    as (o & sy & sx & i & y & x & Ht).
  apply sample_tests_accept in Ht as (_ & Hfin & _ & Hsky & Hblack & Hwhite).
  split; [exact Hfin|].
  split; [intros Hm; by rewrite Hm in Hsky|].
  split; [intros Hm; by rewrite Hm in Hblack|].
  intros Hm; by rewrite Hm in Hwhite.
Qed.

(** ** Well-shaped predictions *)

Lemma range_negative (stop step : Z) :
  0 <= stop -> step < 0 -> Py.range stop step = Some [].
Proof.
  intros Hs Hn. unfold Py.range, Py.range_len.
  destruct (Z.eqb_spec step 0); [lia|].
  destruct (Z.ltb_spec 0 step); [lia|].
  destruct (Z.ltb_spec stop 0); [lia|]. reflexivity.
Qed.

Lemma sample_positions_negative (h w : nat) (stride : Z) :
  stride < 0 -> sample_positions h w stride = Some [].
Proof.
  intros Hn. unfold sample_positions.
  rewrite !range_negative by lia. reflexivity.
Qed.

(** The positions of a defined sampling are inside the grid. *)
Lemma sample_positions_bounds (h w : nat) (stride : Z) (ps : list (Z * Z))
    (y x : Z) :
  sample_positions h w stride = Some ps -> (y, x) ∈ ps ->
  0 < stride /\ 0 <= y < Z.of_nat h /\ 0 <= x < Z.of_nat w
  /\ (stride | y) /\ (stride | x).
Proof.
  intros Hps Hin.
  destruct (Z.lt_trichotomy stride 0) as [Hn|[->|Hp]].
  - rewrite sample_positions_negative in Hps by exact Hn.
    injection Hps as <-. by apply elem_of_nil in Hin.
  - discriminate.
  - unfold sample_positions in Hps.
    destruct (Py.range (Z.of_nat h) stride) as [ys|] eqn:Hys; [|discriminate].
    destruct (Py.range (Z.of_nat w) stride) as [xs|] eqn:Hxs; [|discriminate].
    cbn in Hps. injection Hps as <-.
    apply elem_of_bind_pairs in Hin as [Hy Hx].
    apply (range_elem stride Hp _ _ _ Hys) in Hy.
    apply (range_elem stride Hp _ _ _ Hxs) in Hx. tauto.
Qed.

Lemma sample_positions_Some (h w : nat) (stride : Z) :
  stride <> 0 -> exists ps, sample_positions h w stride = Some ps.
Proof.
  intros Hne. unfold sample_positions, Py.range.
  destruct (Z.eqb_spec stride 0); [done|]. cbn. eauto.
Qed.

Lemma int_of_Q_nonneg (q : Q) : (0 <= q)%Q -> 0 <= Py.int_of_Q q.
Proof.
  intros Hq. unfold Py.int_of_Q. apply Z.quot_pos; [|lia].
  unfold Qle in Hq. cbn in Hq. lia.
Qed.

Lemma round_2_63 : Fl.round (2 ^ 63) = Fin (2 ^ 63).
Proof. vm_compute. reflexivity. Qed.

Lemma round_2_126 : Fl.round (2 ^ 126) = Fin (2 ^ 126).
Proof. vm_compute. reflexivity. Qed.

Lemma size_ok_Q (n : Z) : 0 <= n < 2 ^ 63 -> (0 <= inject_Z n <= 2 ^ 63)%Q.
Proof.
  intros [H0 H]. rewrite <- (pow2_Z 63) by lia.
  change 0%Q with (inject_Z 0). rewrite <- !Zle_Qle. lia.
Qed.

(** The scale factor of a non-empty grid is a number between 0 and
    2^63. *)
Lemma truediv_Some (a b : nat) :
  (1 <= b)%nat -> size_ok a ->
  exists q, Py.truediv (Z.of_nat a) (Z.of_nat b) = Some (Fin q)
            /\ (0 <= q <= 2 ^ 63)%Q.
Proof.
  intros Hb Ha. unfold Py.truediv, size_ok in *.
  destruct (Z.eqb_spec (Z.of_nat b) 0); [lia|].
  destruct (size_ok_Q (Z.of_nat a) ltac:(lia)) as [Ha0 Ha1].
  assert (1 <= inject_Z (Z.of_nat b))%Q as Hb1
    by (change 1%Q with (inject_Z 1); rewrite <- Zle_Qle; lia).
  destruct (round_between (inject_Z (Z.of_nat a) / inject_Z (Z.of_nat b))
              _ _ round_2_63) as (r & -> & Hr); [|eauto].
  split.
  - apply Qle_shift_div_l; lra.
  - apply Qle_shift_div_r; [lra|].
    assert (0 <= 2 ^ 63 * (inject_Z (Z.of_nat b) - 1))%Q; [|lra].
    apply Qmult_le_0_compat; [|lra]. apply Qlt_le_weak, pow2_pos.
Qed.

Lemma orig_coord_Some (i : Z) (scale : Q) (size : nat) :
  0 <= i < 2 ^ 63 -> (0 <= scale <= 2 ^ 63)%Q -> (1 <= size)%nat ->
  exists j, orig_coord i (Fin scale) size = Some j /\ 0 <= j < Z.of_nat size.
Proof.
  intros Hi Hs Hsize. unfold orig_coord, Py.mul_int_float, Py.float_of_int.
  destruct (round_between (inject_Z i) _ _ round_2_63 (size_ok_Q i Hi))
    as (f & -> & Hf).
  cbn [mbind option_bind]. unfold Fl.mul.
  destruct (round_between (f * scale) _ _ round_2_126) as (r & -> & Hr).
  { split; [apply Qmult_le_0_compat; lra|].
    assert (2 ^ 126 == 2 ^ 63 * 2 ^ 63)%Q as -> by reflexivity.
    apply Qle_trans with (2 ^ 63 * scale)%Q.
    - apply Qmult_le_compat_r; lra.
    - apply Qmult_le_l; [apply pow2_pos|lra]. }
  cbn [Py.int_of_float mbind option_bind].
  pose proof (int_of_Q_nonneg r ltac:(lra)).
  eexists. split; [reflexivity|]. lia.
Qed.

Lemma sample_rgb_Some (orig_img : image) (scale_y scale_x : Q) (y x : Z) :
  (1 <= img_h orig_img)%nat -> (1 <= img_w orig_img)%nat ->
  (0 <= scale_y <= 2 ^ 63)%Q -> (0 <= scale_x <= 2 ^ 63)%Q ->
  0 <= y < 2 ^ 63 -> 0 <= x < 2 ^ 63 ->
  is_Some (sample_rgb orig_img (Fin scale_y) (Fin scale_x) y x).
Proof.
  intros Hh Hw Hsy Hsx Hy Hx. unfold sample_rgb.
  destruct (orig_coord_Some y scale_y (img_h orig_img) Hy Hsy Hh)
    as (oy & -> & Hoy).
  destruct (orig_coord_Some x scale_x (img_w orig_img) Hx Hsx Hw)
    as (ox & -> & Hox).
  cbn [mbind option_bind]. rewrite !index_nonneg by lia. cbn. eauto.
Qed.

Lemma getitem_Some {A} (a : Np.ndarray A) (i : nat) (y x : Z) :
  (i < (Np.shape a).1.1)%nat ->
  0 <= y < Z.of_nat (Np.shape a).1.2 -> 0 <= x < Z.of_nat (Np.shape a).2 ->
  Np.getitem a i y x = Some (Np.item a i (Z.to_nat y) (Z.to_nat x)).
Proof.
  intros Hi Hy Hx. unfold Np.getitem.
  destruct (Np.shape a) as [[n h] w]. cbn [fst snd] in *.
  rewrite !index_nonneg by lia. cbn. rewrite Nat2Z.id. reflexivity.
Qed.

Lemma sample_filter_Some (predictions : Predictions) (cutoff : float)
    (flags : mask_flags) (orig_img : image) (scale_y scale_x : Q)
    (img_idx : nat) (y x : Z) :
  Np.shape (depth_conf predictions)
    = Np.shape (world_points_from_depth predictions) ->
  (img_idx < (Np.shape (world_points_from_depth predictions)).1.1)%nat ->
  0 <= y < Z.of_nat (Np.shape (world_points_from_depth predictions)).1.2 ->
  0 <= x < Z.of_nat (Np.shape (world_points_from_depth predictions)).2 ->
  y < 2 ^ 63 -> x < 2 ^ 63 ->
  (1 <= img_h orig_img)%nat -> (1 <= img_w orig_img)%nat ->
  (0 <= scale_y <= 2 ^ 63)%Q -> (0 <= scale_x <= 2 ^ 63)%Q ->
  is_Some (sample_filter predictions cutoff flags orig_img (Fin scale_y)
             (Fin scale_x) img_idx y x).
Proof.
  intros Hshape Hi Hy Hx Hy' Hx' Hh Hw Hsy Hsx. unfold sample_filter.
  rewrite getitem_Some by (rewrite ?Hshape; done). cbn [mbind option_bind].
  destruct (Fl.ltb _ _); [|eauto].
  unfold sample_tests. rewrite getitem_Some by done.
  cbn [mbind option_bind].
  destruct (Np.item _ _ _ _) as [[px py] pz].
  destruct (negb _); [eauto|].
  destruct (sample_rgb_Some orig_img scale_y scale_x y x) as [rgb ->];
    [lia|lia|assumption|assumption|lia|lia|].
  cbn [mbind option_bind].
  destruct (_ && _); [eauto|]. destruct (_ && _); [eauto|].
  destruct (_ && _); eauto.
Qed.

Lemma image_samples_Some (predictions : Predictions) (cutoff : float)
    (flags : mask_flags) (stride : Z) (img_idx : nat) :
  well_shaped predictions -> stride <> 0 ->
  (img_idx < (Np.shape (world_points_from_depth predictions)).1.1)%nat ->
  is_Some (image_samples predictions cutoff flags stride img_idx).
Proof.
  intros Hws Hstride Hi. unfold image_samples.
  pose proof (ws_conf _ Hws) as Hshape. pose proof (ws_grid _ Hws) as Hgrid.
  pose proof (ws_sizes _ Hws) as [Hsh Hsw].
  destruct (ws_images _ Hws _ Hi) as (im & Him & Hh & Hw & Hih & Hiw).
  destruct (Np.shape (world_points_from_depth predictions)) as [[n h] w] eqn:E.
  cbn [fst snd] in *. rewrite Him. cbn [mbind option_bind].
  destruct (truediv_Some (img_h im) h ltac:(lia) Hih) as (sy & -> & Hsy).
  destruct (truediv_Some (img_w im) w ltac:(lia) Hiw) as (sx & -> & Hsx).
  cbn [mbind option_bind].
  destruct (sample_positions_Some h w stride Hstride) as [ps Hps].
  rewrite Hps. cbn [mbind option_bind].
  assert (is_Some (mapM (sample_at predictions cutoff flags im (Fin sy)
                           (Fin sx) img_idx) ps)) as [vs ->]; [|cbn; eauto].
  apply mapM_is_Some. apply Forall_forall. intros [y x] Hin.
  destruct (sample_positions_bounds _ _ _ _ _ _ Hps Hin)
    as (_ & Hy & Hx & _).
  unfold compose, sample_at. cbn [fst snd]. unfold size_ok in *.
  destruct (sample_filter_Some predictions cutoff flags im sy sx img_idx y x)
    as [v ->]; rewrite ?E; cbn [fst snd]; try done; try lia.
Qed.

Lemma accepted_samples_Some (predictions : Predictions) (cutoff : float)
    (flags : mask_flags) (stride : Z) :
  well_shaped predictions -> stride <> 0 ->
  is_Some (accepted_samples predictions cutoff flags stride).
Proof.
  intros Hws Hstride. unfold accepted_samples.
  assert (is_Some (mapM (image_samples predictions cutoff flags stride)
                     (seq 0 (Np.shape (world_points_from_depth predictions)).1.1)))
    as [per ->]; [|cbn; eauto].
  apply mapM_is_Some. apply Forall_forall. intros i Hi.
  apply elem_of_seq in Hi. apply image_samples_Some; [done|done|lia].
Qed.

Lemma np_max_Some (a : Np.ndarray float) :
  (1 <= (Np.shape a).1.1 /\ 1 <= (Np.shape a).1.2 /\ 1 <= (Np.shape a).2)%nat ->
  is_Some (Np.max a).
Proof.
  intros H. unfold Np.max.
  destruct (Np.items a) as [|c cs] eqn:E; [|eauto].
  assert (Np.item a 0 0 0 ∈ Np.items a) as Hin.
  { apply elem_of_items. exists 0%nat, 0%nat, 0%nat. split; [lia|done]. }
  rewrite E in Hin. by apply elem_of_nil in Hin.
Qed.

Lemma aggregate_Some (predictions : Predictions) (cutoff : float)
    (flags : mask_flags) (stride : Z) :
  well_shaped predictions -> stride <> 0 ->
  is_Some (aggregate predictions cutoff flags stride).
Proof.
  intros Hws Hstride. rewrite aggregate_samples.
  destruct (accepted_samples_Some predictions cutoff flags stride Hws Hstride)
    as [ss Hss].
  rewrite Hss. cbn [mbind option_bind].
  destruct (foldlM_register_Some ss [] _ (agg_inv_init (depth predictions).1.1))
    as [st ->]; [|cbn; eauto].
  apply Forall_forall. intros s Hs. cbn. rewrite length_replicate.
  apply (elem_of_accepted_samples _ _ _ _ _ _ Hss) in Hs as (? & ? & ? & ? & Hlt & _).
  pose proof (ws_depth _ Hws). lia.
Qed.

Lemma aggregation_total (predictions : Predictions) (threshold_pct : float)
    (flags : mask_flags) (stride : Z) :
  well_shaped predictions -> stride <> 0 ->
  exists pts kps,
    filter_and_prepare_points predictions threshold_pct flags stride
    = Some (pts, kps).
Proof.
  intros Hshape Hstride.
  unfold filter_and_prepare_points, conf_cutoff.
  destruct (np_max_Some (depth_conf predictions)) as [m ->].
  { rewrite (ws_conf _ Hshape). exact (ws_grid _ Hshape). }
  cbn [mbind option_bind]. rewrite fdiv_100. cbn [mbind option_bind].
  destruct (aggregate_Some predictions
              (Fl.mul (Fl.div threshold_pct (Fin 100)) m) flags stride
              Hshape Hstride) as [[pts kps] ->].
  eauto.
Qed.

(** X4.  On well-shaped predictions (matching shapes, non-empty grids
    and images, extents below 2^63) and with a non-zero stride the
    aggregator returns: no index leaves its array, no division is by
    zero, every colour lookup stays inside the original image and every
    entry of the dictionary points to an existing point. *)
Theorem aggregation_returns (predictions : Predictions) (threshold_pct : float)
    (flags : mask_flags) (stride : Z)
    (Hshape : well_shaped predictions) (Hstride : stride <> 0) :
  exists pts kps,
    filter_and_prepare_points predictions threshold_pct flags stride
    = Some (pts, kps).
Proof. by apply aggregation_total. Qed.

Lemma accepted_samples_negative (predictions : Predictions) (cutoff : float)
    (flags : mask_flags) (stride : Z) (ss : list sample) :
  stride < 0 ->
  accepted_samples predictions cutoff flags stride = Some ss -> ss = [].
Proof.
  intros Hn Hss. destruct ss as [|s ss]; [reflexivity|exfalso].
  assert (s ∈ s :: ss) as Hs by left.
  apply (elem_of_accepted_samples _ _ _ _ _ _ Hss) in Hs
    as (o & sy & sx & ps & _ & _ & _ & _ & Hps & Hin & _).
  destruct (sample_positions_bounds _ _ _ _ _ _ Hps Hin) as [Hp _]. lia.
Qed.

(** X2.  With a negative stride the sampling loops visit nothing: a run
    that returns has no point and an empty keypoint list for every depth
    map; and on well-shaped predictions the run does return. *)
Theorem negative_stride_empty (predictions : Predictions) (threshold_pct : float)
    (flags : mask_flags) (stride : Z) (Hneg : stride < 0) :
  (forall pts kps,
      filter_and_prepare_points predictions threshold_pct flags stride
      = Some (pts, kps) ->
      pts = [] /\ kps = replicate (depth predictions).1.1 [])
  /\ (well_shaped predictions ->
      filter_and_prepare_points predictions threshold_pct flags stride
      = Some ([], replicate (depth predictions).1.1 [])).
Proof.
  assert (forall pts kps,
      filter_and_prepare_points predictions threshold_pct flags stride
      = Some (pts, kps) ->
      pts = [] /\ kps = replicate (depth predictions).1.1 []) as Hempty.
  { intros pts kps H. unfold filter_and_prepare_points in H.
    destruct (conf_cutoff predictions threshold_pct) as [cutoff|];
      [|discriminate].
    cbn [mbind option_bind] in H. rewrite aggregate_samples in H.
    destruct (accepted_samples predictions cutoff flags stride) as [ss|] eqn:Hss;
      [|discriminate].
    rewrite (accepted_samples_negative _ _ _ _ _ Hneg Hss) in H.
    cbn in H. by injection H as <- <-. }
  split; [exact Hempty|]. intros Hws.
  destruct (aggregation_total predictions threshold_pct flags stride Hws
              ltac:(lia)) as (pts & kps & Hrun).
  destruct (Hempty _ _ Hrun) as [-> ->]. exact Hrun.
Qed.

(** A cutoff taken at 100 percent or more of a maximum that is not
    negative is not exceeded by any confidence. *)
Lemma full_cutoff (pct m conf : float) :
  Fl.leb (Fin 100) pct = true -> Fl.leb (Fin 0) m = true ->
  Fl.is_double m = true -> Fl.leb conf m = true ->
  Fl.ltb (Fl.mul (Fl.div pct (Fin 100)) m) conf = false.
Proof.
  intros Hpct Hm Hdbl Hconf.
  apply (div_mono _ _ 100 ltac:(reflexivity)) in Hpct.
  replace (Fl.div (Fin 100) (Fin 100)) with (Fin 1) in Hpct
    by (vm_compute; reflexivity).
  generalize dependent (Fl.div pct (Fin 100)). intros t Ht.
  destruct m as [q| | |]; try discriminate.
  - apply leb_Fin in Hm.
    destruct (Qlt_le_dec 0 q) as [Hq|Hq].
    + apply leb_ltb_false. eapply leb_trans; [exact Hconf|].
      pose proof (mul_mono_pos (Fin 1) t q Hq Ht) as Hmono.
      destruct (is_double_round q Hdbl) as (r & Hr & Hrq).
      unfold Fl.mul at 1 in Hmono.
      rewrite (round_comp (1 * q) q) in Hmono by ring.
      rewrite Hr in Hmono. eapply leb_trans; [|exact Hmono].
      apply leb_Fin. lra.
    + assert (q == 0)%Q as Hq0 by lra.
      destruct (mul_zero t q Hq0) as [-> | ->]; [|apply ltb_nan_l].
      destruct conf as [c| | |]; try done.
      apply leb_Fin in Hconf. apply ltb_Fin_false. lra.
  - destruct t as [x| | |]; try discriminate.
    + apply leb_Fin in Ht. unfold Fl.mul. rewrite (sign_pos x) by lra.
      apply ltb_pinf_l.
    + apply ltb_pinf_l.
Qed.

Lemma fmax_nan (a b : float) :
  Fl.isnan a = true \/ Fl.isnan b = true -> Fl.isnan (Np.fmax a b) = true.
Proof.
  unfold Np.fmax. destruct (Fl.isnan a) eqn:Ea; [done|].
  destruct (Fl.isnan b) eqn:Eb; [done|]. intros [?|?]; done.
Qed.

Lemma fold_fmax_nan (cs : list float) (c : float) :
  (exists v, v ∈ c :: cs /\ Fl.isnan v = true) ->
  Fl.isnan (fold_left Np.fmax cs c) = true.
Proof.
  revert c. induction cs as [|d cs IH]; intros c (v & Hv & Hn).
  - apply list_elem_of_singleton in Hv as ->. exact Hn.
  - cbn. apply IH.
    apply elem_of_cons in Hv as [->|Hv].
    { exists (Np.fmax c d). split; [left|]. apply fmax_nan. by left. }
    apply elem_of_cons in Hv as [->|Hv].
    { exists (Np.fmax c d). split; [left|]. apply fmax_nan. by right. }
    exists v. split; [by right|exact Hn].
Qed.

(** A run whose cutoff no confidence exceeds returns nothing. *)
Lemma no_sample_empty (predictions : Predictions) (threshold_pct cutoff : float)
    (flags : mask_flags) (stride : Z)
    (pts : list (point_entry float)) (kps : list (list keypoint)) :
  conf_cutoff predictions threshold_pct = Some cutoff ->
  (forall conf, conf ∈ Np.items (depth_conf predictions) ->
                Fl.ltb cutoff conf = false) ->
  filter_and_prepare_points predictions threshold_pct flags stride
    = Some (pts, kps) ->
  pts = [] /\ kps = replicate (depth predictions).1.1 [].
Proof.
  intros Hcut Hnone Hrun. unfold filter_and_prepare_points in Hrun.
  rewrite Hcut in Hrun. cbn [mbind option_bind] in Hrun.
  rewrite aggregate_samples in Hrun.
  destruct (accepted_samples predictions _ flags stride) as [ss|] eqn:Hss;
    [|discriminate].
  assert (ss = []) as ->.
  { destruct ss as [|s ss]; [reflexivity|exfalso].
    assert (s ∈ s :: ss) as Hs by left.
    apply (elem_of_accepted_samples _ _ _ _ _ _ Hss) in Hs
      as (o & sy & sx & ps & _ & _ & _ & _ & _ & _ & Hf).
    apply sample_filter_accept in Hf as [(conf & Hconf & Hgt) _].
    rewrite (Hnone conf (getitem_items _ _ _ _ _ Hconf)) in Hgt.
    discriminate. }
  cbn in Hrun. by injection Hrun as <- <-.
Qed.

(** X5.  With a threshold of 100 percent or more and a maximum
    confidence that is not negative (a float64 value), no sample passes
    the (strict) confidence test: a run that returns has no point and an
    empty keypoint list for every depth map. *)
Theorem full_threshold_empty (predictions : Predictions) (threshold_pct : float)
    (flags : mask_flags) (stride : Z) (max_conf : float)
    (pts : list (point_entry float)) (kps : list (list keypoint))
    (Hpct : Fl.leb (Fin 100) threshold_pct = true)
    (Hmax : Np.max (depth_conf predictions) = Some max_conf)
    (Hpos : Fl.leb (Fin 0) max_conf = true)
    (Hdbl : Fl.is_double max_conf = true)
    (Hrun : filter_and_prepare_points predictions threshold_pct flags stride
            = Some (pts, kps)) :
  pts = [] /\ kps = replicate (depth predictions).1.1 [].
Proof.
  assert (conf_cutoff predictions threshold_pct
          = Some (Fl.mul (Fl.div threshold_pct (Fin 100)) max_conf)) as Hcut
    by (apply conf_cutoff_max; eauto).
  apply (no_sample_empty predictions threshold_pct _ flags stride pts kps
           Hcut); [|exact Hrun].
  intros conf Hconf.
  destruct (np_max_spec _ _ Hmax) as [_ Hub].
  destruct (leb_not_nan _ _ Hpos) as [_ Hnan].
  by apply full_cutoff; [| | |apply Hub].
Qed.

(** X26.  A single NaN among the confidences, or a NaN threshold,
    empties the output: the maximum and with it the cutoff are NaN, and
    no confidence compares greater than a NaN.  A run that returns has no
    point and an empty keypoint list for every depth map. *)
Theorem nan_confidence_empty (predictions : Predictions)
    (threshold_pct : float) (flags : mask_flags) (stride : Z)
    (pts : list (point_entry float)) (kps : list (list keypoint))
    (Hnan : Fl.isnan threshold_pct = true
            \/ exists v, v ∈ Np.items (depth_conf predictions)
                         /\ Fl.isnan v = true)
    (Hrun : filter_and_prepare_points predictions threshold_pct flags stride
            = Some (pts, kps)) :
  pts = [] /\ kps = replicate (depth predictions).1.1 [].
Proof.
  destruct (conf_cutoff predictions threshold_pct) as [cutoff|] eqn:Hcut;
    [|unfold filter_and_prepare_points in Hrun; by rewrite Hcut in Hrun].
  apply (no_sample_empty predictions threshold_pct cutoff flags stride);
    [exact Hcut| |exact Hrun].
  intros conf _.
  apply conf_cutoff_max in Hcut as (m & Hmax & ->).
  assert (Fl.mul (Fl.div threshold_pct (Fin 100)) m = NaN) as ->;
    [|apply ltb_nan_l].
  destruct Hnan as [Hpct|Hitem].
  - destruct threshold_pct; try discriminate. reflexivity.
  - assert (m = NaN) as ->; [|apply mul_nan_r].
    unfold Np.max in Hmax.
    destruct (Np.items (depth_conf predictions)) as [|c cs];
      [discriminate|].
    injection Hmax as <-. pose proof (fold_fmax_nan cs c Hitem) as Hm.
    by destruct (fold_left Np.fmax cs c).
Qed.

(** ** The keypoints of an image *)

Lemma sample_positions_NoDup (h w : nat) (stride : Z) (ps : list (Z * Z)) :
  sample_positions h w stride = Some ps -> NoDup ps.
Proof.
  intros Hps.
  destruct (Z.lt_trichotomy stride 0) as [Hn|[->|Hp]].
  - rewrite sample_positions_negative in Hps by exact Hn.
    injection Hps as <-. constructor.
  - discriminate.
  - unfold sample_positions in Hps.
    destruct (Py.range (Z.of_nat h) stride) as [ys|] eqn:Hys; [|discriminate].
    destruct (Py.range (Z.of_nat w) stride) as [xs|] eqn:Hxs; [|discriminate].
    cbn in Hps. injection Hps as <-.
    apply NoDup_bind_pairs; eapply range_NoDup; eauto.
Qed.

(** X11.  The keypoints of an image lie at pairwise distinct grid
    positions, in the order of the sampling loops: their positions form
    a subsequence of the visited positions. *)
Theorem keypoints_scan_order (predictions : Predictions)
    (threshold_pct : float) (flags : mask_flags) (stride : Z)
    (pts : list (point_entry float)) (kps : list (list keypoint))
    (Hrun : filter_and_prepare_points predictions threshold_pct flags stride
            = Some (pts, kps)) :
  forall img kl,
    kps !! img = Some kl ->
    NoDup (kp_pos <$> kl)
    /\ forall positions,
         sample_positions (Np.shape (world_points_from_depth predictions)).1.2
           (Np.shape (world_points_from_depth predictions)).2 stride
         = Some positions ->
         kp_pos <$> kl `sublist_of` positions.
Proof.
  destruct (run_inv _ _ _ _ _ _ Hrun)
    as (cutoff & ss & st & Hcut & Hss & Hinv & <- & <-).
  intros img kl Hkl. unfold kp_pos.
  rewrite (keypoints_positions st kl _ (inv_kps _ _ Hinv _ _ Hkl)).
  destruct (accepted_samples_image _ _ _ _ _ img Hss) as [->|Himg].
  { split; [constructor|]. intros positions _. apply sublist_nil_l. }
  destruct (image_samples_sublist _ _ _ _ _ _ Himg) as (ps & Hps & Hsub).
  split.
  - eapply sublist_NoDup; [|exact Hsub].
    eapply sample_positions_NoDup; eauto.
  - intros positions Hps'. rewrite Hps in Hps'. by injection Hps' as <-.
Qed.

(** ** Runs that accept fewer samples *)

Lemma sample_tests_intro (predictions : Predictions) (flags : mask_flags)
    (orig_img : image) (scale_y scale_x : float) (img_idx : nat) (y x : Z)
    (p : point) (c : color) :
  Np.getitem (world_points_from_depth predictions) img_idx y x = Some p ->
  (exists qx qy qz, p = (Fin qx, Fin qy, Fin qz)) ->
  sample_rgb orig_img scale_y scale_x y x = Some c ->
  mask_sky flags && is_sky_point p c = false ->
  mask_black_bg flags && is_black_bg_point c 30 = false ->
  mask_white_bg flags && is_white_bg_point c 230 = false ->
  sample_tests predictions flags orig_img scale_y scale_x img_idx y x
    = Some (Some (p, c)).
Proof.
  intros Hp (qx & qy & qz & ->) Hc Hsky Hblack Hwhite.
  unfold sample_tests. rewrite Hp. cbn [mbind option_bind Np.isfinite andb negb].
  rewrite Hc. cbn [mbind option_bind]. rewrite Hsky, Hblack, Hwhite.
  reflexivity.
Qed.

Lemma andb_false_mono (a a' b : bool) :
  (a = true -> a' = true) -> a' && b = false -> a && b = false.
Proof. destruct a, a', b; cbn; intros H; try done. by specialize (H eq_refl). Qed.

Lemma sample_source_masks (predictions : Predictions) (cutoff : float)
    (f1 f2 : mask_flags) (stride : Z) (s : sample) :
  masks_le f1 f2 ->
  sample_source predictions cutoff f2 stride s ->
  sample_source predictions cutoff f1 stride s.
Proof.
  intros (Hsky & Hblack & Hwhite)
         (o & sy & sx & ps & Hlt & Ho & Hsy & Hsx & Hps & Hin & Hf).
  exists o, sy, sx, ps. repeat (split; [assumption|]).
  apply sample_filter_accept in Hf as [Hconf Ht].
  apply sample_filter_accept. split; [exact Hconf|].
  apply sample_tests_accept in Ht as (Hp & Hfin & Hc & H1 & H2 & H3).
  apply sample_tests_intro; try assumption.
  - eapply andb_false_mono; eauto.
  - eapply andb_false_mono; eauto.
  - eapply andb_false_mono; eauto.
Qed.

Lemma sample_positions_elem (h w : nat) (stride : Z) (ps : list (Z * Z))
    (y x : Z) :
  0 < stride -> sample_positions h w stride = Some ps ->
  (y, x) ∈ ps <->
  0 <= y < Z.of_nat h /\ 0 <= x < Z.of_nat w /\ (stride | y) /\ (stride | x).
Proof.
  intros Hp Hps. unfold sample_positions in Hps.
  destruct (Py.range (Z.of_nat h) stride) as [ys|] eqn:Hys; [|discriminate].
  destruct (Py.range (Z.of_nat w) stride) as [xs|] eqn:Hxs; [|discriminate].
  cbn in Hps. injection Hps as <-.
  rewrite elem_of_bind_pairs.
  rewrite (range_elem stride Hp _ _ _ Hys), (range_elem stride Hp _ _ _ Hxs).
  tauto.
Qed.

Lemma sample_source_stride (predictions : Predictions) (cutoff : float)
    (flags : mask_flags) (stride k : Z) (s : sample) :
  1 <= stride -> 1 <= k ->
  sample_source predictions cutoff flags (k * stride) s ->
  sample_source predictions cutoff flags stride s.
Proof.
  intros Hs Hk (o & sy & sx & ps & Hlt & Ho & Hsy & Hsx & Hps & Hin & Hf).
  destruct (sample_positions_Some
              (Np.shape (world_points_from_depth predictions)).1.2
              (Np.shape (world_points_from_depth predictions)).2 stride
              ltac:(lia)) as [ps1 Hps1].
  exists o, sy, sx, ps1. repeat (split; [assumption|]).
  split; [|exact Hf].
  assert (0 < k * stride) as Hpos by nia.
  apply (sample_positions_elem _ _ _ _ _ _ Hpos Hps) in Hin
    as (Hy & Hx & Hdy & Hdx).
  assert (0 < stride) as Hpos1 by lia.
  apply (sample_positions_elem _ _ _ _ _ _ Hpos1 Hps1).
  split; [exact Hy|]. split; [exact Hx|].
  split; (etrans; [|eassumption]); exists k; reflexivity.
Qed.

Lemma keypoints_NoDup (predictions : Predictions) (cutoff : float)
    (flags : mask_flags) (stride : Z) (ss : list sample) (img : nat) :
  accepted_samples predictions cutoff flags stride = Some ss ->
  NoDup ((fun s : sample => (smp_y s, smp_x s))
           <$> filter (fun s => smp_img s = img) ss).
Proof.
  intros Hss.
  destruct (accepted_samples_image _ _ _ _ _ img Hss) as [->|Himg];
    [constructor|].
  destruct (image_samples_sublist _ _ _ _ _ _ Himg) as (ps & Hps & Hsub).
  eapply sublist_NoDup; [|exact Hsub].
  eapply sample_positions_NoDup; eauto.
Qed.

(** Two runs on the same predictions, the second accepting only samples
    the first accepts. *)
Lemma run_subset (predictions : Predictions) (pct1 pct2 : float)
    (f1 f2 : mask_flags) (stride1 stride2 : Z)
    (pts1 pts2 : list (point_entry float)) (kps1 kps2 : list (list keypoint)) :
  (forall c1 c2 s,
      conf_cutoff predictions pct1 = Some c1 ->
      conf_cutoff predictions pct2 = Some c2 ->
      sample_source predictions c2 f2 stride2 s ->
      sample_source predictions c1 f1 stride1 s) ->
  filter_and_prepare_points predictions pct1 f1 stride1 = Some (pts1, kps1) ->
  filter_and_prepare_points predictions pct2 f2 stride2 = Some (pts2, kps2) ->
  (length pts2 <= length pts1)%nat
  /\ forall img kl1 kl2,
       kps1 !! img = Some kl1 -> kps2 !! img = Some kl2 ->
       (forall pos, pos ∈ kp_pos <$> kl2 -> pos ∈ kp_pos <$> kl1)
       /\ (length kl2 <= length kl1)%nat.
Proof.
  intros Hsub Hrun1 Hrun2.
  destruct (run_inv _ _ _ _ _ _ Hrun1)
    as (c1 & ss1 & st1 & Hc1 & Hss1 & Hinv1 & <- & <-).
  destruct (run_inv _ _ _ _ _ _ Hrun2)
    as (c2 & ss2 & st2 & Hc2 & Hss2 & Hinv2 & <- & <-).
  assert (forall s, s ∈ ss2 -> s ∈ ss1) as Hin.
  { intros s Hs. apply (elem_of_accepted_samples _ _ _ _ _ _ Hss1).
    apply (elem_of_accepted_samples _ _ _ _ _ _ Hss2) in Hs. eauto. }
  split.
  - rewrite (points_count _ _ Hinv1), (points_count _ _ Hinv2).
    apply subseteq_size. intros h Hh.
    apply elem_of_list_to_set, list_elem_of_fmap in Hh as (s & -> & Hs).
    apply elem_of_list_to_set, list_elem_of_fmap. exists s. split; [done|].
    by apply Hin.
  - intros img kl1 kl2 Hkl1 Hkl2.
    unfold kp_pos.
    rewrite (keypoints_positions st1 kl1 _ (inv_kps _ _ Hinv1 _ _ Hkl1)).
    rewrite (keypoints_positions st2 kl2 _ (inv_kps _ _ Hinv2 _ _ Hkl2)).
    assert (forall pos,
              pos ∈ (fun s : sample => (smp_y s, smp_x s))
                      <$> filter (fun s => smp_img s = img) ss2 ->
              pos ∈ (fun s : sample => (smp_y s, smp_x s))
                      <$> filter (fun s => smp_img s = img) ss1) as Hpos.
    { intros pos Hp. apply list_elem_of_fmap in Hp as (s & -> & Hs).
      apply list_elem_of_filter in Hs as [Himg Hs].
      apply list_elem_of_fmap. exists s. split; [reflexivity|].
      apply list_elem_of_filter. split; [exact Himg|by apply Hin]. }
    split; [exact Hpos|].
    pose proof (keypoints_NoDup _ _ _ _ _ img Hss2) as Hnd.
    pose proof (submseteq_length _ _ (NoDup_submseteq _ _ Hnd Hpos)) as Hlen.
    rewrite !length_fmap in Hlen.
    rewrite <- (Forall2_length _ _ _ (inv_kps _ _ Hinv1 _ _ Hkl1)) in Hlen.
    rewrite <- (Forall2_length _ _ _ (inv_kps _ _ Hinv2 _ _ Hkl2)) in Hlen.
    exact Hlen.
Qed.

(** X12.  Enabling more filters never adds anything: the run with more
    filters returns at most as many points, and in every image its
    keypoints are at most as many and lie at positions where the run with
    fewer filters has a keypoint too. *)
Theorem mask_monotone (predictions : Predictions) (threshold_pct : float)
    (f1 f2 : mask_flags) (stride : Z)
    (pts1 pts2 : list (point_entry float)) (kps1 kps2 : list (list keypoint))
    (Hle : masks_le f1 f2)
    (Hrun1 : filter_and_prepare_points predictions threshold_pct f1 stride
             = Some (pts1, kps1))
    (Hrun2 : filter_and_prepare_points predictions threshold_pct f2 stride
             = Some (pts2, kps2)) :
  (length pts2 <= length pts1)%nat
  /\ forall img kl1 kl2,
       kps1 !! img = Some kl1 -> kps2 !! img = Some kl2 ->
       (forall pos, pos ∈ kp_pos <$> kl2 -> pos ∈ kp_pos <$> kl1)
       /\ (length kl2 <= length kl1)%nat.
Proof.
  apply (run_subset predictions threshold_pct threshold_pct f1 f2 stride stride
           pts1 pts2 kps1 kps2); [|exact Hrun1|exact Hrun2].
  intros c1 c2 s Hc1 Hc2 Hs. assert (c1 = c2) as -> by congruence.
  eapply sample_source_masks; eauto.
Qed.

(** X13.  Replacing a stride [S >= 1] by a multiple [k * S] never adds
    anything: the coarser run returns at most as many points, and in every
    image its keypoints are at most as many and lie at positions where the
    finer run has a keypoint too. *)
Theorem stride_multiple_monotone (predictions : Predictions)
    (threshold_pct : float) (flags : mask_flags) (stride k : Z)
    (pts1 pts2 : list (point_entry float)) (kps1 kps2 : list (list keypoint))
    (Hstride : 1 <= stride) (Hk : 1 <= k)
    (Hrun1 : filter_and_prepare_points predictions threshold_pct flags stride
             = Some (pts1, kps1))
    (Hrun2 : filter_and_prepare_points predictions threshold_pct flags
               (k * stride) = Some (pts2, kps2)) :
  (length pts2 <= length pts1)%nat
  /\ forall img kl1 kl2,
       kps1 !! img = Some kl1 -> kps2 !! img = Some kl2 ->
       (forall pos, pos ∈ kp_pos <$> kl2 -> pos ∈ kp_pos <$> kl1)
       /\ (length kl2 <= length kl1)%nat.
Proof.
  apply (run_subset predictions threshold_pct threshold_pct flags flags
           stride (k * stride) pts1 pts2 kps1 kps2); [|exact Hrun1|exact Hrun2].
  intros c1 c2 s Hc1 Hc2 Hs. assert (c1 = c2) as -> by congruence.
  eapply sample_source_stride; eauto.
Qed.

(** ** Cells and colours *)

(** X9.  No two points of the output have the same hash, hence no two
    have the same quantized triple: the output holds at most one point
    per cell of side 1/100. *)
Theorem distinct_point_cells (predictions : Predictions)
    (threshold_pct : float) (flags : mask_flags) (stride : Z)
    (pts : list (point_entry float)) (kps : list (list keypoint))
    (Hrun : filter_and_prepare_points predictions threshold_pct flags stride
            = Some (pts, kps)) :
  forall p q e1 e2,
    pts !! p = Some e1 -> pts !! q = Some e2 ->
    (hash_point (pt_xyz e1) 100 = hash_point (pt_xyz e2) 100 -> p = q)
    /\ (quantized (pt_xyz e1) 100 = quantized (pt_xyz e2) 100 -> p = q).
Proof.
  destruct (run_origin _ _ _ _ _ _ Hrun)
    as (cutoff & ss & st & _ & _ & _ & Horg & _ & <- & _).
  intros p q e1 e2 H1 H2.
  assert (hash_point (pt_xyz e1) 100 = hash_point (pt_xyz e2) 100 -> p = q)
    as Hhash.
  { intros Heq. pose proof (org_key _ _ Horg _ _ H1) as K1.
    pose proof (org_key _ _ Horg _ _ H2) as K2.
    rewrite Heq in K1. congruence. }
  split; [exact Hhash|].
  intros Heq. apply Hhash. unfold hash_point. by rewrite Heq.
Qed.

Lemma truediv_same (n : nat) :
  (1 <= n)%nat -> Py.truediv (Z.of_nat n) (Z.of_nat n) = Some (Fin 1).
Proof.
  intros Hn. unfold Py.truediv.
  destruct (Z.eqb_spec (Z.of_nat n) 0); [lia|].
  rewrite (round_comp _ 1); [reflexivity|].
  assert (0 < inject_Z (Z.of_nat n))%Q
    by (change 0%Q with (inject_Z 0); rewrite <- Zlt_Qlt; lia).
  field. lra.
Qed.

(** With a scale factor of one a grid coordinate below 2^53 is mapped
    to itself. *)
Lemma orig_coord_same (i : Z) (n : nat) :
  0 <= i < Z.of_nat n -> Z.of_nat n <= 2 ^ 53 ->
  orig_coord i (Fin 1) n = Some i.
Proof.
  intros Hi Hn. unfold orig_coord, Py.mul_int_float, Py.float_of_int.
  rewrite round_Z_exact by lia. cbn [mbind option_bind]. unfold Fl.mul.
  rewrite (round_comp _ (inject_Z i)) by ring.
  rewrite round_Z_exact by lia. cbn [Py.int_of_float mbind option_bind].
  unfold Py.int_of_Q. cbn [inject_Z Qnum Qden]. rewrite Z.quot_1_r.
  f_equal. lia.
Qed.

(** X10.  When every original image has the size of the grid (a grid
    of at most 2^53 rows and columns), every point of the output has the
    coordinates and the colour found at one and the same pixel of one
    image. *)
Theorem point_colour_same_pixel (predictions : Predictions)
    (threshold_pct : float) (flags : mask_flags) (stride : Z)
    (pts : list (point_entry float)) (kps : list (list keypoint))
    (Hsize : forall im, im ∈ original_images predictions ->
               img_h im = (Np.shape (world_points_from_depth predictions)).1.2
               /\ img_w im = (Np.shape (world_points_from_depth predictions)).2)
    (Hbits :
       Z.of_nat (Np.shape (world_points_from_depth predictions)).1.2 <= 2 ^ 53
       /\ Z.of_nat (Np.shape (world_points_from_depth predictions)).2 <= 2 ^ 53)
    (Hrun : filter_and_prepare_points predictions threshold_pct flags stride
            = Some (pts, kps)) :
  forall e, e ∈ pts ->
    exists (img : nat) (im : image) (y x : nat),
      original_images predictions !! img = Some im
      /\ (img < (Np.shape (world_points_from_depth predictions)).1.1
          /\ y < (Np.shape (world_points_from_depth predictions)).1.2
          /\ x < (Np.shape (world_points_from_depth predictions)).2)%nat
      /\ Np.item (world_points_from_depth predictions) img y x = pt_xyz e
      /\ pixel im y x = pt_rgb e.
Proof.
  destruct (run_origin _ _ _ _ _ _ Hrun)
    as (cutoff & ss & st & _ & Hss & _ & Horg & _ & <- & _).
  intros e He. apply list_elem_of_lookup in He as [p Hp].
  destruct (first_sample_elem _ _ (org_first _ _ Horg _ _ Hp))
    as (s & Hs & -> & -> & _).
  apply (elem_of_accepted_samples _ _ _ _ _ _ Hss) in Hs
    as (o & sy & sx & ps & Hlt & Ho & Hsy & Hsx & Hps & Hin & Hf).
  destruct (sample_positions_bounds _ _ _ _ _ _ Hps Hin)
    as (_ & Hy & Hx & _).
  apply sample_filter_accept in Hf as [_ Hf].
  apply sample_tests_accept in Hf as (Hget & _ & Hrgb & _).
  destruct (Hsize o) as [Hh Hw]; [eapply list_elem_of_lookup_2; eauto|].
  destruct Hbits as [Hbh Hbw].
  exists (smp_img s), o, (Z.to_nat (smp_y s)), (Z.to_nat (smp_x s)).
  split; [exact Ho|]. split; [lia|]. split.
  - rewrite getitem_Some in Hget by done. by injection Hget.
  - rewrite Hh, truediv_same in Hsy by lia.
    rewrite Hw, truediv_same in Hsx by lia.
    injection Hsy as <-. injection Hsx as <-.
    unfold sample_rgb in Hrgb.
    rewrite !orig_coord_same in Hrgb by (rewrite ?Hh, ?Hw; lia).
    cbn [mbind option_bind] in Hrgb.
    rewrite !index_nonneg in Hrgb by lia.
    cbn in Hrgb. by injection Hrgb.
Qed.

(** * Further properties of the classifier heuristics *)

Lemma to_Z_range (b : byte) : 0 <= Np.to_Z b < 256.
Proof.
  unfold Np.to_Z. pose proof (Byte.to_N_bounded b) as H.
  split; [apply N2Z.is_nonneg|].
  apply N2Z.inj_le in H. change (Z.of_N 255) with 255 in H. lia.
Qed.

Lemma mean3_lt (a b c t : Z) :
  Np.Qltb (Np.mean3 a b c) (inject_Z t) = true <-> a + b + c < 3 * t.
Proof.
  rewrite Qltb_lt. unfold Np.mean3, Qlt, Qdiv. cbn. lia.
Qed.

Lemma mean3_gt (a b c t : Z) :
  Np.Qltb (inject_Z t) (Np.mean3 a b c) = true <-> 3 * t < a + b + c.
Proof.
  rewrite Qltb_lt. unfold Np.mean3, Qlt, Qdiv. cbn. lia.
Qed.

Lemma var3_lt (a b c t : Z) :
  Np.Qltb (Np.var3 a b c) (inject_Z t) = true
  <-> 2 * (a * a + b * b + c * c - a * b - b * c - c * a) < 9 * t.
Proof.
  rewrite Qltb_lt.
  assert (Np.var3 a b c ==
          inject_Z (2 * (a * a + b * b + c * c - a * b - b * c - c * a)) / 9)%Q
    as ->.
  { unfold Np.var3, Np.mean3, Z.sub.
    rewrite ?inject_Z_mult, ?inject_Z_plus, ?inject_Z_opp, ?inject_Z_mult.
    change (inject_Z 2) with 2%Q. field. }
  unfold Qlt, Qdiv. cbn. lia.
Qed.

Lemma black_bg_sum (r g b : byte) :
  is_black_bg_point (r, g, b) 30 = true
  <-> Np.to_Z r + Np.to_Z g + Np.to_Z b < 90.
Proof.
  unfold is_black_bg_point. change 30%Q with (inject_Z 30).
  rewrite mean3_lt. lia.
Qed.

Lemma white_bg_iff (r g b : byte) :
  is_white_bg_point (r, g, b) 230 = true
  <-> 690 < Np.to_Z r + Np.to_Z g + Np.to_Z b
      /\ Np.to_Z r * Np.to_Z r + Np.to_Z g * Np.to_Z g + Np.to_Z b * Np.to_Z b
         - Np.to_Z r * Np.to_Z g - Np.to_Z g * Np.to_Z b
         - Np.to_Z b * Np.to_Z r <= 1012.
Proof.
  unfold is_white_bg_point.
  change 230%Q with (inject_Z 230). change (15 * 15)%Q with (inject_Z 225).
  rewrite andb_true_iff, mean3_gt, var3_lt. lia.
Qed.

(** X14.  With the thresholds the aggregator passes, a colour is a
    black background exactly when its channels sum to less than 90 (a mean
    below 30), and a white background exactly when they sum to more than
    690 (a mean above 230) and [r^2 + g^2 + b^2 - rg - gb - br <= 1012]
    (a standard deviation below 15). *)
Theorem background_tests (r g b : byte) :
  (is_black_bg_point (r, g, b) 30 = true
   <-> Np.to_Z r + Np.to_Z g + Np.to_Z b < 90)
  /\ (is_white_bg_point (r, g, b) 230 = true
      <-> 690 < Np.to_Z r + Np.to_Z g + Np.to_Z b
          /\ Np.to_Z r * Np.to_Z r + Np.to_Z g * Np.to_Z g
             + Np.to_Z b * Np.to_Z b
             - Np.to_Z r * Np.to_Z g - Np.to_Z g * Np.to_Z b
             - Np.to_Z b * Np.to_Z r <= 1012).
Proof. split; [apply black_bg_sum|apply white_bg_iff]. Qed.

Lemma spread_bound (a b c : Z) :
  690 < a + b + c -> b < 256 -> c < 256 ->
  a * a + b * b + c * c - a * b - b * c - c * a <= 1012 ->
  210 <= a.
Proof.
  intros Hs Hb Hc Hq.
  destruct (Z_lt_le_dec a 210) as [Ha|Ha]; [exfalso|exact Ha].
  assert (4 * (a * a + b * b + c * c - a * b - b * c - c * a)
          = (b + c - 2 * a) * (b + c - 2 * a) + 3 * ((b - c) * (b - c)))
    as Heq by ring.
  assert (0 <= (b - c) * (b - c)) by apply Z.square_nonneg.
  assert (64 <= b + c - 2 * a) as Hu by lia.
  assert (64 * 64 <= (b + c - 2 * a) * (b + c - 2 * a))
    by (apply Z.mul_le_mono_nonneg; lia).
  lia.
Qed.

(** X15.  A colour classified as white background has every channel at
    210 or more, and is never classified as black background. *)
Theorem white_bg_channels (r g b : byte)
    (Hwhite : is_white_bg_point (r, g, b) 230 = true) :
  210 <= Np.to_Z r /\ 210 <= Np.to_Z g /\ 210 <= Np.to_Z b
  /\ is_black_bg_point (r, g, b) 30 = false.
Proof.
  apply white_bg_iff in Hwhite as [Hs Hq].
  pose proof (to_Z_range r). pose proof (to_Z_range g).
  pose proof (to_Z_range b).
  split; [|split; [|split]].
  - apply (spread_bound _ (Np.to_Z g) (Np.to_Z b)); lia.
  - apply (spread_bound _ (Np.to_Z b) (Np.to_Z r)); lia.
  - apply (spread_bound _ (Np.to_Z r) (Np.to_Z g)); lia.
  - destruct (is_black_bg_point (r, g, b) 30) eqn:E; [|reflexivity].
    apply black_bg_sum in E. lia.
Qed.

(** * Further properties of the writers *)

(** ** The layout of the binary files *)

Lemma pack_uint_length (n : nat) (v : Z) (bs : list byte) :
  Fmt.pack_uint n v = Some bs -> length bs = n.
Proof. intros H. by apply pack_uint_Some in H as [? _]. Qed.

Lemma mapM_concat_length {A : Type} (enc : A -> option (list byte))
    (size : A -> nat) (l : list A) (bss : list (list byte)) :
  (forall a bs, a ∈ l -> enc a = Some bs -> length bs = size a) ->
  mapM enc l = Some bss ->
  length (List.concat bss) = sum_list (size <$> l).
Proof.
  revert bss. induction l as [|a l IH]; intros bss Hsize Hbss.
  - cbn in Hbss. by injection Hbss as <-.
  - cbn [mapM] in Hbss.
    destruct (enc a) as [bs|] eqn:Ha; [|discriminate].
    cbn [mbind option_bind] in Hbss.
    destruct (mapM enc l) as [bss'|] eqn:Hl; [|discriminate].
    cbn in Hbss. injection Hbss as <-.
    cbn. rewrite length_app, (Hsize a bs ltac:(left) Ha).
    rewrite (IH bss'); [reflexivity| |reflexivity].
    intros a' bs' Hin. apply Hsize. by right.
Qed.

Lemma length_list_byte_of_string (s : string) :
  length (list_byte_of_string s) = String.length s.
Proof.
  unfold list_byte_of_string. rewrite length_map.
  induction s as [|c s IH]; [reflexivity|]. cbn. by rewrite IH.
Qed.

Section BinarySizes.

Context {F : Type} `{FloatFormat F}.
Hypothesis Hfmt : format_ok.

Lemma camera_record_length (i : nat) (K : matrix F) (w h : nat)
    (bs : list byte) :
  camera_record i K w h = Some bs -> length bs = 56%nat.
Proof.
  unfold camera_record.
  destruct (Fmt.pack_uint 4 (Z.of_nat i + 1)) as [b1|] eqn:H1; [|discriminate].
  destruct (Fmt.pack_uint 4 1) as [b2|] eqn:H2; [|discriminate].
  destruct (Fmt.pack_uint 8 (Z.of_nat w)) as [b3|] eqn:H3; [|discriminate].
  destruct (Fmt.pack_uint 8 (Z.of_nat h)) as [b4|] eqn:H4; [|discriminate].
  cbn. intros [= <-].
  rewrite !length_app, !(pack_double_length Hfmt).
  rewrite (pack_uint_length _ _ _ H1), (pack_uint_length _ _ _ H2),
    (pack_uint_length _ _ _ H3), (pack_uint_length _ _ _ H4).
  reflexivity.
Qed.

Lemma camera_records_length (intrinsics : list (matrix F)) (i w h : nat)
    (bs : list byte) :
  camera_records i intrinsics w h = Some bs ->
  length bs = (56 * length intrinsics)%nat.
Proof.
  revert i bs. induction intrinsics as [|K Ks IH]; intros i bs Hbs.
  - cbn in Hbs. by injection Hbs as <-.
  - cbn [camera_records] in Hbs.
    destruct (camera_record i K w h) as [b|] eqn:Hb; [|discriminate].
    cbn [mbind option_bind] in Hbs.
    destruct (camera_records (S i) Ks w h) as [bs'|] eqn:Hbs'; [|discriminate].
    cbn in Hbs. injection Hbs as <-.
    rewrite length_app, (camera_record_length _ _ _ _ _ Hb), (IH _ _ Hbs').
    cbn [length]. lia.
Qed.

(** X16.  The binary cameras file is the 8-byte count followed by one
    record of 56 bytes per camera. *)
Theorem cameras_bin_size (intrinsics : list (matrix F)) (w h : nat)
    (bs : list byte)
    (Hwrite : write_colmap_cameras_bin intrinsics w h = Some bs) :
  length bs = (8 + 56 * length intrinsics)%nat.
Proof.
  unfold write_colmap_cameras_bin in Hwrite.
  destruct (Fmt.pack_uint 8 _) as [b|] eqn:Hb; [|discriminate].
  cbn [mbind option_bind] in Hwrite.
  destruct (camera_records 0 intrinsics w h) as [bs'|] eqn:Hbs'; [|discriminate].
  cbn in Hwrite. injection Hwrite as <-.
  rewrite length_app, (pack_uint_length _ _ _ Hb),
    (camera_records_length _ _ _ _ _ Hbs').
  reflexivity.
Qed.

Lemma keypoint_bin_length (kp : keypoint) (bs : list byte) :
  keypoint_bin kp = Some bs -> length bs = 24%nat.
Proof.
  destruct kp as [[x y] p]. unfold keypoint_bin.
  destruct (Fmt.pack_uint 8 _) as [b|] eqn:Hb; [|discriminate].
  cbn. intros [= <-].
  rewrite !length_app, !(pack_double_length Hfmt), (pack_uint_length _ _ _ Hb).
  reflexivity.
Qed.

Lemma sum_list_const {A} (l : list A) (c : nat) :
  sum_list ((fun _ => c) <$> l) = (c * length l)%nat.
Proof. induction l as [|a l IH]; cbn; [lia|]. rewrite IH. lia. Qed.

(** X17.  The binary record of an image takes 76 bytes, the bytes of
    the base name of its file (stored after their count, with no
    terminator) and 24 bytes per keypoint. *)
Theorem image_record_size (quaternions : list (F * F * F * F))
    (translations : list (F * F * F))
    (image_points2D : list (list keypoint)) (image_names : list string)
    (i : nat) (name : string) (points : list keypoint) (bs : list byte)
    (Hname : image_names !! i = Some name)
    (Hpoints : image_points2D !! i = Some points)
    (Hwrite : image_record quaternions translations image_points2D
                image_names i = Some bs) :
  length bs
  = (76 + String.length (Fmt.basename name) + 24 * length points)%nat.
Proof.
  unfold image_record in Hwrite.
  destruct (quaternions !! i) as [[[[qw qx] qy] qz]|]; [|discriminate].
  cbn [mbind option_bind] in Hwrite.
  destruct (translations !! i) as [[[tx ty] tz]|]; [|discriminate].
  cbn [mbind option_bind] in Hwrite.
  rewrite Hname in Hwrite. cbn [mbind option_bind] in Hwrite.
  rewrite Hpoints in Hwrite. cbn [mbind option_bind] in Hwrite.
  destruct (Fmt.pack_uint 4 (Z.of_nat i + 1)) as [b1|] eqn:H1; [|discriminate].
  cbn [mbind option_bind] in Hwrite.
  destruct (Fmt.pack_uint 4 (Z.of_nat (length _))) as [b2|] eqn:H2;
    [|discriminate].
  cbn [mbind option_bind] in Hwrite.
  destruct (Fmt.pack_uint 8 _) as [b3|] eqn:H3; [|discriminate].
  cbn [mbind option_bind] in Hwrite.
  destruct (mapM keypoint_bin points) as [bps|] eqn:Hbps; [|discriminate].
  cbn in Hwrite. injection Hwrite as <-.
  rewrite !length_app, !(pack_double_length Hfmt).
  rewrite (pack_uint_length _ _ _ H1), (pack_uint_length _ _ _ H2),
    (pack_uint_length _ _ _ H3).
  rewrite (mapM_concat_length keypoint_bin (fun _ => 24%nat) points bps)
    by (eauto using keypoint_bin_length).
  rewrite sum_list_const, length_list_byte_of_string. lia.
Qed.

Lemma track_bin_length (t : nat * nat) (bs : list byte) :
  track_bin t = Some bs -> length bs = 8%nat.
Proof.
  destruct t as [img idx]. unfold track_bin.
  destruct (Fmt.pack_uint 4 (Z.of_nat img + 1)) as [b1|] eqn:H1; [|discriminate].
  destruct (Fmt.pack_uint 4 (Z.of_nat idx)) as [b2|] eqn:H2; [|discriminate].
  cbn. intros [= <-].
  rewrite length_app, (pack_uint_length _ _ _ H1), (pack_uint_length _ _ _ H2).
  reflexivity.
Qed.

Lemma point_record_length (pt : point_entry F) (bs : list byte) :
  point_record pt = Some bs ->
  length bs = (51 + 8 * length (pt_track pt))%nat.
Proof.
  unfold point_record.
  destruct (pt_xyz pt) as [[x y] z]. destruct (pt_rgb pt) as [[r g] b].
  destruct (Fmt.pack_uint 8 (Z.of_nat (pt_id pt) + 1)) as [b1|] eqn:H1;
    [|discriminate].
  cbn [mbind option_bind].
  destruct (Fmt.pack_uint 1 (Np.to_Z r)) as [b2|] eqn:H2; [|discriminate].
  cbn [mbind option_bind].
  destruct (Fmt.pack_uint 1 (Np.to_Z g)) as [b3|] eqn:H3; [|discriminate].
  cbn [mbind option_bind].
  destruct (Fmt.pack_uint 1 (Np.to_Z b)) as [b4|] eqn:H4; [|discriminate].
  cbn [mbind option_bind].
  destruct (Fmt.pack_uint 8 (Z.of_nat _)) as [b5|] eqn:H5; [|discriminate].
  cbn [mbind option_bind].
  destruct (mapM track_bin (pt_track pt)) as [bts|] eqn:Hbts; [|discriminate].
  cbn. intros [= <-].
  rewrite !length_app, !(pack_double_length Hfmt).
  rewrite (pack_uint_length _ _ _ H1), (pack_uint_length _ _ _ H2),
    (pack_uint_length _ _ _ H3), (pack_uint_length _ _ _ H4),
    (pack_uint_length _ _ _ H5).
  rewrite (mapM_concat_length track_bin (fun _ => 8%nat) (pt_track pt) bts)
    by (eauto using track_bin_length).
  rewrite sum_list_const. lia.
Qed.

Lemma sum_list_tracks (points3D : list (point_entry F)) :
  sum_list ((fun pt => 51 + 8 * length (pt_track pt))%nat <$> points3D)
  = (51 * length points3D + 8 * sum_lengths (map pt_track points3D))%nat.
Proof.
  unfold sum_lengths.
  induction points3D as [|pt pts IH]; [reflexivity|].
  cbn. cbn in IH. rewrite IH. lia.
Qed.

(** X18.  The binary points file is the 8-byte count followed, for
    every point, by 51 bytes and 8 bytes per track entry. *)
Theorem points3D_bin_size (points3D : list (point_entry F)) (bs : list byte)
    (Hwrite : write_colmap_points3D_bin points3D = Some bs) :
  length bs
  = (8 + 51 * length points3D
     + 8 * sum_lengths (map pt_track points3D))%nat.
Proof.
  unfold write_colmap_points3D_bin in Hwrite.
  destruct (Fmt.pack_uint 8 _) as [b|] eqn:Hb; [|discriminate].
  cbn [mbind option_bind] in Hwrite.
  destruct (mapM point_record points3D) as [records|] eqn:Hrec; [|discriminate].
  cbn in Hwrite. injection Hwrite as <-.
  rewrite length_app, (pack_uint_length _ _ _ Hb).
  rewrite (mapM_concat_length point_record
             (fun pt => 51 + 8 * length (pt_track pt))%nat points3D records)
    by (eauto using point_record_length).
  rewrite sum_list_tracks. lia.
Qed.

End BinarySizes.

(** ** Index errors of the text writer *)

Section ImagesText.

Context {F : Type} `{FloatFormat F}.

Lemma image_lines_is_Some (quaternions : list (F * F * F * F))
    (translations : list (F * F * F))
    (image_points2D : list (list keypoint)) (image_names : list string)
    (i : nat) :
  is_Some (image_lines quaternions translations image_points2D image_names i)
  <-> (i < length quaternions /\ i < length translations
       /\ i < length image_names /\ i < length image_points2D)%nat.
Proof.
  unfold image_lines. rewrite <- !lookup_lt_is_Some.
  destruct (quaternions !! i) as [[[[qw qx] qy] qz]|]; cbn;
    [|split; [intros [? ?]; done|intros [[? ?] _]; done]].
  destruct (translations !! i) as [[[tx ty] tz]|]; cbn;
    [|split; [intros [? ?]; done|intros (_ & [? ?] & _); done]].
  destruct (image_names !! i) as [name|]; cbn;
    [|split; [intros [? ?]; done|intros (_ & _ & [? ?] & _); done]].
  destruct (image_points2D !! i) as [points|]; cbn;
    [|split; [intros [? ?]; done|intros (_ & _ & _ & [? ?]); done]].
  split; eauto.
Qed.

Lemma Forall_seq_lt (n m : nat) :
  Forall (fun i => (i < m)%nat) (seq 0 n) <-> (n <= m)%nat.
Proof.
  rewrite Forall_forall. split.
  - intros Hall. destruct n as [|n]; [lia|].
    specialize (Hall n). rewrite elem_of_seq in Hall. lia.
  - intros Hle i Hi. apply elem_of_seq in Hi. lia.
Qed.

Lemma images_txt_is_Some (quaternions : list (F * F * F * F))
    (translations : list (F * F * F))
    (image_points2D : list (list keypoint)) (image_names : list string) :
  is_Some (write_colmap_images_txt quaternions translations image_points2D
             image_names)
  <-> (length quaternions <= length translations
       /\ length quaternions <= length image_names
       /\ length quaternions <= length image_points2D)%nat.
Proof.
  unfold write_colmap_images_txt.
  set (f := image_lines quaternions translations image_points2D image_names).
  assert (is_Some (mapM f (seq 0 (length quaternions)))
          <-> (length quaternions <= length translations
               /\ length quaternions <= length image_names
               /\ length quaternions <= length image_points2D)%nat) as Hiff.
  { rewrite mapM_is_Some, <- !(Forall_seq_lt (length quaternions)).
    rewrite !Forall_forall. unfold compose, f. split.
    - intros Hall. repeat split; intros i Hi;
        apply Hall, image_lines_is_Some in Hi; lia.
    - intros (Ht & Hn & Hk) i Hi. apply image_lines_is_Some.
      pose proof (Ht i Hi). pose proof (Hn i Hi). pose proof (Hk i Hi).
      apply elem_of_seq in Hi. lia. }
  rewrite <- Hiff. destruct (mapM f _) as [lines|]; cbn.
  - split; eauto.
  - split; intros [? ?]; done.
Qed.

(** X19.  The text writer of the images returns exactly when every
    pose has a translation, a file name and a keypoint list at its index;
    otherwise an index is out of range. *)
Theorem images_txt_defined (quaternions : list (F * F * F * F))
    (translations : list (F * F * F))
    (image_points2D : list (list keypoint)) (image_names : list string) :
  is_Some (write_colmap_images_txt quaternions translations image_points2D
             image_names)
  <-> (length quaternions <= length translations
       /\ length quaternions <= length image_names
       /\ length quaternions <= length image_points2D)%nat.
Proof. apply images_txt_is_Some. Qed.

End ImagesText.

(** * Further properties of the orchestrator *)

Lemma extrinsic_lengths {F : Type} `{Rotation F} (extrinsics : list (matrix F))
    (qs : list (F * F * F * F)) (ts : list (F * F * F)) :
  extrinsic_to_colmap_format extrinsics = (qs, ts) ->
  length qs = length extrinsics /\ length ts = length extrinsics.
Proof.
  unfold extrinsic_to_colmap_format. rewrite extrinsic_fold. cbn [app].
  intros [= <- <-]. by rewrite !length_map.
Qed.

(** X20.  In text mode the orchestrator completes exactly when the
    aggregation does and every extrinsic matrix has a file name and a
    depth map at its index. *)
Theorem main_text_defined `{Rotation float} `{FloatFormat float}
    (args : Args) (predictions : Predictions) (image_names : list string)
    (Htext : arg_binary args = false) :
  is_Some (main args predictions image_names)
  <-> is_Some (filter_and_prepare_points predictions
                 (arg_conf_threshold args) (arg_masks args) (arg_stride args))
      /\ (length (extrinsic predictions) <= length image_names)%nat
      /\ (length (extrinsic predictions) <= (depth predictions).1.1)%nat.
Proof.
  unfold main.
  destruct (extrinsic_to_colmap_format (extrinsic predictions))
    as [quaternions translations] eqn:Hext.
  apply extrinsic_lengths in Hext as [Hq Ht].
  destruct (filter_and_prepare_points _ _ _ _) as [[pts kps]|] eqn:Hrun;
    cbn [mbind option_bind]; [|split; [intros [? ?]; done|intros [[? ?] _]; done]].
  destruct (run_origin _ _ _ _ _ _ Hrun)
    as (_ & _ & st & _ & _ & _ & _ & Hlen & _ & <-).
  destruct (depth predictions) as [[n height] width]. cbn [fst snd] in *.
  rewrite Htext.
  pose proof (images_txt_is_Some quaternions translations
                (image_points2D st) image_names) as Himg.
  rewrite Hq, Ht, Hlen in Himg.
  destruct (write_colmap_images_txt _ _ _ _) as [images|]; cbn.
  - split; [intros _|eauto]. split; [eauto|].
    apply (proj1 Himg ltac:(eauto)).
  - split; [intros [? ?]; done|]. intros (_ & Hn & Hd).
    destruct (proj2 Himg) as [? ?]; [lia|done].
Qed.

Lemma mapM_ext_in {A B : Type} (f g : A -> option B) (l : list A) :
  (forall a, a ∈ l -> f a = g a) -> mapM f l = mapM g l.
Proof.
  induction l as [|a l IH]; intros Hfg; [reflexivity|].
  cbn. rewrite (Hfg a) by left. rewrite IH; [reflexivity|].
  intros a' Ha'. apply Hfg. by right.
Qed.

Section Names.

Context {F : Type} `{FloatFormat F}.

Variables names1 names2 : list string.
Hypothesis Hnames : Fmt.basename <$> names1 = Fmt.basename <$> names2.

Lemma basename_lookup (i : nat) :
  Fmt.basename <$> names1 !! i = Fmt.basename <$> names2 !! i.
Proof. by rewrite <- !list_lookup_fmap, Hnames. Qed.

Lemma image_lines_basename (quaternions : list (F * F * F * F))
    (translations : list (F * F * F))
    (image_points2D : list (list keypoint)) (i : nat) :
  image_lines quaternions translations image_points2D names1 i
  = image_lines quaternions translations image_points2D names2 i.
Proof.
  unfold image_lines. pose proof (basename_lookup i) as Hi.
  destruct (quaternions !! i) as [[[[qw qx] qy] qz]|]; [|reflexivity].
  destruct (translations !! i) as [[[tx ty] tz]|]; [|reflexivity].
  cbn [mbind option_bind].
  destruct (names1 !! i) as [n1|], (names2 !! i) as [n2|]; try done.
  cbn in Hi. injection Hi as Hi. cbn [mbind option_bind]. by rewrite Hi.
Qed.

Lemma image_record_basename (quaternions : list (F * F * F * F))
    (translations : list (F * F * F))
    (image_points2D : list (list keypoint)) (i : nat) :
  image_record quaternions translations image_points2D names1 i
  = image_record quaternions translations image_points2D names2 i.
Proof.
  unfold image_record. pose proof (basename_lookup i) as Hi.
  destruct (quaternions !! i) as [[[[qw qx] qy] qz]|]; [|reflexivity].
  destruct (translations !! i) as [[[tx ty] tz]|]; [|reflexivity].
  cbn [mbind option_bind].
  destruct (names1 !! i) as [n1|], (names2 !! i) as [n2|]; try done.
  cbn in Hi. injection Hi as Hi. cbn [mbind option_bind]. by rewrite Hi.
Qed.

Lemma images_txt_basename (quaternions : list (F * F * F * F))
    (translations : list (F * F * F))
    (image_points2D : list (list keypoint)) :
  write_colmap_images_txt quaternions translations image_points2D names1
  = write_colmap_images_txt quaternions translations image_points2D names2.
Proof.
  unfold write_colmap_images_txt.
  rewrite (mapM_ext_in _ (image_lines quaternions translations image_points2D
                            names2)); [reflexivity|].
  intros i _. apply image_lines_basename.
Qed.

Lemma images_bin_basename (quaternions : list (F * F * F * F))
    (translations : list (F * F * F))
    (image_points2D : list (list keypoint)) :
  write_colmap_images_bin quaternions translations image_points2D names1
  = write_colmap_images_bin quaternions translations image_points2D names2.
Proof.
  unfold write_colmap_images_bin.
  rewrite (mapM_ext_in _ (image_record quaternions translations image_points2D
                            names2)); [reflexivity|].
  intros i _. apply image_record_basename.
Qed.

End Names.

(** X22.  The files written depend on the image paths only through
    their base names: two lists of paths with the same base names give
    the same files, in text and in binary mode. *)
Theorem main_basename_only `{Rotation float} `{FloatFormat float}
    (args : Args) (predictions : Predictions) (names1 names2 : list string)
    (Hnames : Fmt.basename <$> names1 = Fmt.basename <$> names2) :
  main args predictions names1 = main args predictions names2.
Proof.
  unfold main.
  destruct (extrinsic_to_colmap_format (extrinsic predictions))
    as [quaternions translations].
  destruct (filter_and_prepare_points _ _ _ _) as [[pts kps]|]; [|reflexivity].
  cbn [mbind option_bind].
  destruct (depth predictions) as [[n height] width].
  rewrite (images_txt_basename names1 names2 Hnames).
  rewrite (images_bin_basename names1 names2 Hnames).
  reflexivity.
Qed.

(** ** Binary mode: every integer fits its field *)

Lemma pack_uint_is_Some (n : nat) (v : Z) :
  0 <= v < 2 ^ (8 * Z.of_nat n) -> is_Some (Fmt.pack_uint n v).
Proof.
  intros Hv. unfold Fmt.pack_uint.
  destruct (Z.leb_spec 0 v); [|lia].
  destruct (Z.ltb_spec v (2 ^ (8 * Z.of_nat n))); [|lia]. cbn. eauto.
Qed.

Lemma ceil_div_le (a s : Z) : 0 <= a -> 1 <= s -> ceil_div a s <= a.
Proof.
  intros Ha Hs. unfold ceil_div.
  destruct (Z.eq_dec a 0) as [->|Hne].
  - rewrite Z.div_small; lia.
  - apply Z.div_le_upper_bound; [lia|]. nia.
Qed.

Lemma sample_positions_count (h w : nat) (stride : Z) (ps : list (Z * Z)) :
  sample_positions h w stride = Some ps ->
  Z.of_nat (length ps) <= Z.of_nat h * Z.of_nat w.
Proof.
  intros Hps.
  destruct (Z.lt_trichotomy stride 0) as [Hn|[->|Hp]].
  - rewrite sample_positions_negative in Hps by exact Hn.
    injection Hps as <-. cbn. nia.
  - discriminate.
  - rewrite (sample_positions_length h w stride ps ltac:(lia) Hps).
    pose proof (ceil_div_le (Z.of_nat h) stride ltac:(lia) ltac:(lia)).
    pose proof (ceil_div_le (Z.of_nat w) stride ltac:(lia) ltac:(lia)).
    pose proof (ceil_div_nonneg (Z.of_nat h) stride ltac:(lia) ltac:(lia)).
    pose proof (ceil_div_nonneg (Z.of_nat w) stride ltac:(lia) ltac:(lia)).
    nia.
Qed.

Lemma keypoints_count (predictions : Predictions) (cutoff : float)
    (flags : mask_flags) (stride : Z) (ss : list sample) (img : nat) :
  accepted_samples predictions cutoff flags stride = Some ss ->
  Z.of_nat (length (filter (fun s => smp_img s = img) ss))
  <= Z.of_nat (Np.shape (world_points_from_depth predictions)).1.2
     * Z.of_nat (Np.shape (world_points_from_depth predictions)).2.
Proof.
  intros Hss.
  destruct (accepted_samples_image _ _ _ _ _ img Hss) as [->|Himg];
    [cbn; nia|].
  destruct (image_samples_sublist _ _ _ _ _ _ Himg) as (ps & Hps & Hsub).
  apply sublist_length in Hsub. rewrite length_fmap in Hsub.
  pose proof (sample_positions_count _ _ _ _ Hps). lia.
Qed.

Lemma sum_lengths_bound {A} (ls : list (list A)) (c : nat) :
  Forall (fun l => (length l <= c)%nat) ls ->
  (sum_lengths ls <= length ls * c)%nat.
Proof.
  unfold sum_lengths. induction 1 as [|l ls Hl _ IH]; cbn; lia.
Qed.

(** The sizes of the containers a run returns. *)
Lemma run_sizes (predictions : Predictions) (threshold_pct : float)
    (flags : mask_flags) (stride : Z)
    (pts : list (point_entry float)) (kps : list (list keypoint)) :
  filter_and_prepare_points predictions threshold_pct flags stride
    = Some (pts, kps) ->
  let cells :=
    Z.of_nat (Np.shape (world_points_from_depth predictions)).1.2
    * Z.of_nat (Np.shape (world_points_from_depth predictions)).2 in
  length kps = (depth predictions).1.1
  /\ Forall (fun kl : list keypoint =>
               Z.of_nat (length kl) <= cells
               /\ Forall (fun kp : keypoint => (kp.2 < length pts)%nat) kl) kps
  /\ Z.of_nat (length pts) <= Z.of_nat (depth predictions).1.1 * cells
  /\ Forall (fun e =>
               (pt_id e < length pts)%nat
               /\ Z.of_nat (length (pt_track e))
                  <= Z.of_nat (depth predictions).1.1 * cells
               /\ Forall (fun t : nat * nat =>
                            (t.1 < (depth predictions).1.1)%nat
                            /\ Z.of_nat t.2 < cells) (pt_track e)) pts.
Proof.
  intros Hrun cells.
  destruct (run_origin _ _ _ _ _ _ Hrun)
    as (cutoff & ss & st & _ & Hss & Hinv & Horg & Hlen & <- & <-).
  assert (forall img kl, image_points2D st !! img = Some kl ->
                         Z.of_nat (length kl) <= cells) as Hkl.
  { intros img kl Hkl.
    rewrite (Forall2_length _ _ _ (inv_kps _ _ Hinv _ _ Hkl)).
    eapply keypoints_count; eauto. }
  assert (0 <= cells) as Hcells by (unfold cells; nia).
  assert (Z.of_nat (sum_lengths (image_points2D st))
          <= Z.of_nat (depth predictions).1.1 * cells) as Hsum.
  { rewrite <- Hlen.
    pose proof (sum_lengths_bound (image_points2D st) (Z.to_nat cells)) as Hb.
    assert ((sum_lengths (image_points2D st)
             <= length (image_points2D st) * Z.to_nat cells)%nat) as Hle.
    { apply Hb. apply Forall_forall. intros kl Hin.
      apply list_elem_of_lookup in Hin as [img Hin].
      pose proof (Hkl _ _ Hin). lia. }
    nia. }
  assert (Z.of_nat (length (all_tracks (points3D st)))
          <= Z.of_nat (depth predictions).1.1 * cells) as Htracks.
  { rewrite (org_tracks _ _ Horg), <- (org_kps _ _ Horg). exact Hsum. }
  split; [exact Hlen|]. split; [|split].
  - apply Forall_forall. intros kl Hin.
    apply list_elem_of_lookup in Hin as [img Hin].
    split; [eauto|]. apply Forall_forall. intros [[x y] p] Hkp.
    apply list_elem_of_lookup in Hkp as [k Hk].
    destruct (inv_cover _ _ Hinv _ _ _ _ _ _ Hin Hk) as (e & He & _).
    cbn. eapply lookup_lt_Some; eauto.
  - etrans; [|exact Htracks].
    apply Nat2Z.inj_le.
    unfold all_tracks. rewrite <- (length_fmap pt_track (points3D st)).
    apply length_concat_nonempty. apply Forall_fmap, Forall_forall.
    intros e He. apply list_elem_of_lookup in He as [p Hp].
    destruct (first_sample_elem _ _ (org_first _ _ Horg _ _ Hp))
      as (s & _ & _ & _ & Hne). exact Hne.
  - apply Forall_forall. intros e He.
    apply list_elem_of_lookup in He as [p Hp].
    split; [|split].
    + rewrite (inv_ids _ _ Hinv _ _ Hp). eapply lookup_lt_Some; eauto.
    + etrans; [|exact Htracks]. apply Nat2Z.inj_le.
      rewrite <- (take_drop_middle _ _ _ Hp), all_tracks_app.
      rewrite length_app. unfold all_tracks at 2. cbn.
      rewrite length_app. lia.
    + apply Forall_forall. intros [img k] Ht.
      destruct (inv_track _ _ Hinv _ _ _ _ Hp Ht) as (kl & x & y & Hkl' & Hk).
      cbn. split.
      * rewrite <- Hlen. eapply lookup_lt_Some; eauto.
      * apply lookup_lt_Some in Hk. pose proof (Hkl _ _ Hkl'). lia.
Qed.

Section BinaryDefined.

Context {F : Type} `{FloatFormat F}.

Lemma camera_records_is_Some (intrinsics : list (matrix F)) (i w h : nat) :
  Z.of_nat i + Z.of_nat (length intrinsics) < 2 ^ 32 ->
  Z.of_nat w < 2 ^ 64 -> Z.of_nat h < 2 ^ 64 ->
  is_Some (camera_records i intrinsics w h).
Proof.
  revert i. induction intrinsics as [|K Ks IH]; intros i Hi Hw Hh;
    [cbn; eauto|].
  cbn [camera_records length] in *. unfold camera_record.
  destruct (pack_uint_is_Some 4 (Z.of_nat i + 1)) as [b1 ->]; [cbn; lia|].
  destruct (pack_uint_is_Some 4 1) as [b2 ->]; [cbn; lia|].
  destruct (pack_uint_is_Some 8 (Z.of_nat w)) as [b3 ->]; [cbn; lia|].
  destruct (pack_uint_is_Some 8 (Z.of_nat h)) as [b4 ->]; [cbn; lia|].
  cbn [mbind option_bind].
  destruct (IH (S i)) as [bs ->]; [lia|lia|lia|]. cbn. eauto.
Qed.

Lemma cameras_bin_is_Some (intrinsics : list (matrix F)) (w h : nat) :
  Z.of_nat (length intrinsics) < 2 ^ 32 ->
  Z.of_nat w < 2 ^ 64 -> Z.of_nat h < 2 ^ 64 ->
  is_Some (write_colmap_cameras_bin intrinsics w h).
Proof.
  intros Hn Hw Hh. unfold write_colmap_cameras_bin.
  destruct (pack_uint_is_Some 8 (Z.of_nat (length intrinsics))) as [b ->];
    [cbn; lia|].
  cbn [mbind option_bind].
  destruct (camera_records_is_Some intrinsics 0 w h) as [bs ->];
    [lia|lia|lia|].
  cbn. eauto.
Qed.

Lemma keypoint_bin_is_Some (kp : keypoint) :
  Z.of_nat kp.2 + 1 < 2 ^ 64 -> is_Some (keypoint_bin kp).
Proof.
  destruct kp as [[x y] p]. cbn. intros Hp. unfold keypoint_bin.
  destruct (pack_uint_is_Some 8 (Z.of_nat p + 1)) as [b ->]; [cbn; lia|].
  cbn. eauto.
Qed.

Lemma image_record_is_Some (quaternions : list (F * F * F * F))
    (translations : list (F * F * F))
    (image_points2D : list (list keypoint)) (image_names : list string)
    (i : nat) (name : string) (points : list keypoint) :
  (i < length quaternions)%nat -> (i < length translations)%nat ->
  image_names !! i = Some name -> image_points2D !! i = Some points ->
  Z.of_nat i + 1 < 2 ^ 32 ->
  Z.of_nat (String.length (Fmt.basename name)) < 2 ^ 32 ->
  Z.of_nat (length points) < 2 ^ 64 ->
  Forall (fun kp : keypoint => Z.of_nat kp.2 + 1 < 2 ^ 64) points ->
  is_Some (image_record quaternions translations image_points2D image_names i).
Proof.
  intros Hq Ht Hname Hpoints Hi Hlen Hcount Hrefs. unfold image_record.
  apply lookup_lt_is_Some in Hq as [[[[qw qx] qy] qz] ->].
  apply lookup_lt_is_Some in Ht as [[[tx ty] tz] ->].
  cbn [mbind option_bind]. rewrite Hname, Hpoints. cbn [mbind option_bind].
  destruct (pack_uint_is_Some 4 (Z.of_nat i + 1)) as [b1 ->]; [cbn; lia|].
  cbn [mbind option_bind].
  destruct (pack_uint_is_Some 4
              (Z.of_nat (length (list_byte_of_string (Fmt.basename name)))))
    as [b2 ->]; [rewrite length_list_byte_of_string; cbn; lia|].
  cbn [mbind option_bind].
  destruct (pack_uint_is_Some 8 (Z.of_nat (length points))) as [b3 ->];
    [cbn; lia|].
  cbn [mbind option_bind].
  assert (is_Some (mapM keypoint_bin points)) as [bps ->]; [|cbn; eauto].
  apply mapM_is_Some. eapply Forall_impl; [exact Hrefs|].
  intros kp Hkp. by apply keypoint_bin_is_Some.
Qed.

Lemma track_bin_is_Some (t : nat * nat) :
  Z.of_nat t.1 + 1 < 2 ^ 32 -> Z.of_nat t.2 < 2 ^ 32 ->
  is_Some (track_bin t).
Proof.
  destruct t as [img idx]. cbn. intros Hi Hk. unfold track_bin.
  destruct (pack_uint_is_Some 4 (Z.of_nat img + 1)) as [b1 ->]; [cbn; lia|].
  destruct (pack_uint_is_Some 4 (Z.of_nat idx)) as [b2 ->]; [cbn; lia|].
  cbn. eauto.
Qed.

Lemma point_record_is_Some (pt : point_entry F) :
  Z.of_nat (pt_id pt) + 1 < 2 ^ 64 ->
  Z.of_nat (length (pt_track pt)) < 2 ^ 64 ->
  Forall (fun t : nat * nat =>
            Z.of_nat t.1 + 1 < 2 ^ 32 /\ Z.of_nat t.2 < 2 ^ 32) (pt_track pt) ->
  is_Some (point_record pt).
Proof.
  intros Hid Hlen Htr. unfold point_record.
  destruct (pt_xyz pt) as [[x y] z]. destruct (pt_rgb pt) as [[r g] b].
  destruct (pack_uint_is_Some 8 (Z.of_nat (pt_id pt) + 1)) as [b1 ->];
    [cbn; lia|].
  cbn [mbind option_bind].
  pose proof (to_Z_range r). pose proof (to_Z_range g).
  pose proof (to_Z_range b).
  destruct (pack_uint_is_Some 1 (Np.to_Z r)) as [b2 ->]; [cbn; lia|].
  cbn [mbind option_bind].
  destruct (pack_uint_is_Some 1 (Np.to_Z g)) as [b3 ->]; [cbn; lia|].
  cbn [mbind option_bind].
  destruct (pack_uint_is_Some 1 (Np.to_Z b)) as [b4 ->]; [cbn; lia|].
  cbn [mbind option_bind].
  destruct (pack_uint_is_Some 8 (Z.of_nat (length (pt_track pt)))) as [b5 ->];
    [cbn; lia|].
  cbn [mbind option_bind].
  assert (is_Some (mapM track_bin (pt_track pt))) as [bts ->]; [|cbn; eauto].
  apply mapM_is_Some. eapply Forall_impl; [exact Htr|].
  intros t [? ?]. by apply track_bin_is_Some.
Qed.

End BinaryDefined.

(** X21.  In binary mode the orchestrator completes on well-shaped
    predictions with a non-zero stride, a file name and a depth map for
    every extrinsic matrix, and sizes that fit the fields of the format:
    fewer than 2^32 cameras, images and grid cells per image, and base
    names shorter than 2^32 bytes.  No integer the aggregator produces
    overflows its field. *)
Theorem main_binary_returns `{Rotation float} `{FloatFormat float}
    (args : Args) (predictions : Predictions) (image_names : list string)
    (Hbinary : arg_binary args = true)
    (Hshape : well_shaped predictions)
    (Hstride : arg_stride args <> 0)
    (Hnames : (length (extrinsic predictions) <= length image_names)%nat)
    (Hposes : (length (extrinsic predictions) <= (depth predictions).1.1)%nat)
    (Hcameras : Z.of_nat (length (intrinsic predictions)) < 2 ^ 32)
    (Himages : Z.of_nat (depth predictions).1.1 < 2 ^ 32)
    (Hheight : Z.of_nat (depth predictions).1.2 < 2 ^ 64)
    (Hwidth : Z.of_nat (depth predictions).2 < 2 ^ 64)
    (Hcells :
       Z.of_nat (Np.shape (world_points_from_depth predictions)).1.2
       * Z.of_nat (Np.shape (world_points_from_depth predictions)).2 < 2 ^ 32)
    (Hlengths :
       Forall (fun name =>
                 Z.of_nat (String.length (Fmt.basename name)) < 2 ^ 32)
         image_names) :
  exists cameras images points,
    main args predictions image_names
    = Some (BinaryFiles cameras images points).
Proof.
  unfold main.
  destruct (extrinsic_to_colmap_format (extrinsic predictions))
    as [quaternions translations] eqn:Hext.
  apply extrinsic_lengths in Hext as [Hq Ht].
  destruct (aggregation_total predictions (arg_conf_threshold args)
              (arg_masks args) (arg_stride args) Hshape Hstride)
    as (pts & kps & Hrun).
  rewrite Hrun. cbn [mbind option_bind].
  destruct (run_sizes _ _ _ _ _ _ Hrun) as (Hlen & Hkps & Hpts & Htracks).
  set (cells := Z.of_nat (Np.shape (world_points_from_depth predictions)).1.2
                * Z.of_nat (Np.shape (world_points_from_depth predictions)).2)
    in *.
  assert (0 <= cells) as Hc0 by (unfold cells; nia).
  assert (Z.of_nat (depth predictions).1.1 * cells < 2 ^ 64 - 1) as Hbig.
  { assert (Z.of_nat (depth predictions).1.1 * cells
            <= (2 ^ 32 - 1) * (2 ^ 32 - 1)) by nia.
    lia. }
  destruct (depth predictions) as [[n height] width]. cbn [fst snd] in *.
  rewrite Hbinary.
  destruct (cameras_bin_is_Some (intrinsic predictions) width height)
    as [cameras ->]; [lia..|].
  cbn [mbind option_bind].
  assert (is_Some (write_colmap_images_bin quaternions translations kps
                     image_names)) as [images ->].
  { unfold write_colmap_images_bin.
    destruct (pack_uint_is_Some 8 (Z.of_nat (length quaternions))) as [b ->];
      [cbn; lia|].
    cbn [mbind option_bind].
    assert (is_Some (mapM (image_record quaternions translations kps
                             image_names) (seq 0 (length quaternions))))
      as [records ->]; [|cbn; eauto].
    apply mapM_is_Some, Forall_forall. intros i Hi. apply elem_of_seq in Hi.
    unfold compose.
    destruct (lookup_lt_is_Some_2 image_names i ltac:(lia)) as [name Hname].
    destruct (lookup_lt_is_Some_2 kps i ltac:(lia)) as [points Hpoints].
    rewrite Forall_forall in Hkps.
    destruct (Hkps points ltac:(eapply list_elem_of_lookup_2; eauto))
      as [Hcount Hrefs].
    apply (image_record_is_Some _ _ _ _ i name points);
      [lia|lia|exact Hname|exact Hpoints|lia| |lia|].
    - rewrite Forall_forall in Hlengths. apply Hlengths.
      eapply list_elem_of_lookup_2; eauto.
    - eapply Forall_impl; [exact Hrefs|]. cbn. intros kp Hkp. lia. }
  cbn [mbind option_bind].
  assert (is_Some (write_colmap_points3D_bin pts)) as [points ->];
    [|cbn; eauto].
  unfold write_colmap_points3D_bin.
  destruct (pack_uint_is_Some 8 (Z.of_nat (length pts))) as [b ->];
    [cbn; lia|].
  cbn [mbind option_bind].
  assert (is_Some (mapM point_record pts)) as [records ->]; [|cbn; eauto].
  apply mapM_is_Some. eapply Forall_impl; [exact Htracks|].
  intros e (Hid & Hlen' & Htr). apply point_record_is_Some; [lia|lia|].
  eapply Forall_impl; [exact Htr|]. cbn. intros t [Hi Hk]. lia.
Qed.

(** * The selection of the images *)


Lemma ascii_compare_lt (a b : ascii) :
  Ascii.compare a b = Lt <-> (N_of_ascii a < N_of_ascii b)%N.
Proof. unfold Ascii.compare. apply N.compare_lt_iff. Qed.

Lemma ascii_compare_gt (a b : ascii) :
  Ascii.compare a b = Gt <-> (N_of_ascii b < N_of_ascii a)%N.
Proof. unfold Ascii.compare. apply N.compare_gt_iff. Qed.

Lemma ascii_compare_eq (a b : ascii) :
  Ascii.compare a b = Eq <-> a = b.
Proof.
  split; [apply Ascii.compare_eq_iff|]. intros ->.
  unfold Ascii.compare. apply N.compare_refl.
Qed.

Lemma string_leb_trans (s1 s2 s3 : string) :
  String.leb s1 s2 = true -> String.leb s2 s3 = true ->
  String.leb s1 s3 = true.
Proof.
  unfold String.leb. revert s2 s3.
  induction s1 as [|c1 s1 IH]; intros [|c2 s2] [|c3 s3]; cbn; try done.
  destruct (Ascii.compare c1 c2) eqn:E12; try done;
    destruct (Ascii.compare c2 c3) eqn:E23; try done.
  - apply ascii_compare_eq in E12, E23. subst.
    rewrite (proj2 (ascii_compare_eq c3 c3) eq_refl). apply IH.
  - apply ascii_compare_eq in E12. subst. by rewrite E23.
  - apply ascii_compare_eq in E23. subst. by rewrite E12.
  - apply ascii_compare_lt in E12, E23.
    assert (Ascii.compare c1 c3 = Lt) as ->; [|done].
    apply ascii_compare_lt. eapply N.lt_trans; eauto.
Qed.

#[local] Instance path_le_trans : Transitive Path.le.
Proof. intros a b c. apply string_leb_trans. Qed.

#[local] Instance path_le_total : Total Path.le.
Proof. intros a b. apply String.leb_total. Qed.

#[local] Instance path_le_antisym : AntiSymm eq Path.le.
Proof. intros a b. apply String.leb_antisym. Qed.

Lemma sorted_spec (l : list string) :
  StronglySorted Path.le (Path.sorted l) /\ Path.sorted l ≡ₚ l.
Proof.
  split; [apply StronglySorted_merge_sort; apply _|].
  apply merge_sort_Permutation.
Qed.

Lemma sorted_Permutation (l1 l2 : list string) :
  l1 ≡ₚ l2 -> Path.sorted l1 = Path.sorted l2.
Proof.
  intros Hp. apply (StronglySorted_unique Path.le).
  - apply sorted_spec.
  - apply sorted_spec.
  - rewrite (proj2 (sorted_spec l1)), (proj2 (sorted_spec l2)). exact Hp.
Qed.

Lemma endswith_spec (s suffix : string) :
  Path.endswith s suffix = true
  <-> exists stem, s = (stem ++ suffix)%string.
Proof.
  induction s as [|c s IH]; cbn [Path.endswith].
  - rewrite orb_false_r, String.eqb_eq. split.
    + intros <-. by exists EmptyString.
    + intros [stem Hs]. destruct stem; [done|discriminate].
  - rewrite orb_true_iff, String.eqb_eq, IH. split.
    + intros [<-|[stem ->]]; [by exists EmptyString|].
      by exists (String c stem).
    + intros [[|c' stem] Hs]; [left; exact Hs|right].
      cbn in Hs. injection Hs as -> ->. by exists stem.
Qed.

Lemma lower_append (a b : string) :
  Path.lower (a ++ b) = (Path.lower a ++ Path.lower b)%string.
Proof. induction a as [|c a IH]; [reflexivity|]. cbn. by rewrite IH. Qed.

Lemma lower_append_inv (f x y : string) :
  Path.lower f = (x ++ y)%string ->
  exists a b, f = (a ++ b)%string /\ Path.lower a = x /\ Path.lower b = y.
Proof.
  revert f. induction x as [|c x IH]; intros f Hf.
  - by exists EmptyString, f.
  - destruct f as [|c0 f]; [discriminate|].
    cbn in Hf. injection Hf as <- Hf.
    destruct (IH f Hf) as (a & b & -> & <- & <-).
    by exists (String c0 a), b.
Qed.

(** X24.  A path is selected exactly when it is a stem followed by
    an extension that, in lower case, is [.png], [.jpg] or [.jpeg]: the
    test ignores the case of the extension, and a path that is only an
    extension is selected. *)
Theorem image_name_extension (f : string) :
  is_image_name f = true
  <-> exists stem ext,
        f = (stem ++ ext)%string /\ Path.lower ext ∈ image_extensions.
Proof.
  unfold is_image_name. rewrite existsb_exists. split.
  - intros (e & He & Hend). apply list_elem_of_In in He.
    apply endswith_spec in Hend as [stem' Hlow].
    apply lower_append_inv in Hlow as (stem & ext & -> & _ & <-).
    by exists stem, ext.
  - intros (stem & ext & -> & Hext). exists (Path.lower ext).
    split; [by apply list_elem_of_In|].
    apply endswith_spec. exists (Path.lower stem). apply lower_append.
Qed.

Lemma List_filter_filter {A} (f : A -> bool) (l : list A) :
  List.filter f l = filter (fun a => f a = true) l.
Proof.
  induction l as [|a l IH]; [reflexivity|].
  rewrite filter_cons, <- IH. cbn [List.filter].
  destruct (f a); destruct (decide _); done.
Qed.

Lemma select_images_some (globbed names : list string) :
  select_images globbed = Some names <->
  names <> []
  /\ StronglySorted Path.le names
  /\ names ≡ₚ filter (fun f => is_image_name f = true) globbed.
Proof.
  unfold select_images. rewrite List_filter_filter.
  set (l := filter _ globbed).
  destruct (sorted_spec l) as [Hs Hp]. split.
  - destruct (Nat.eqb_spec (length (Path.sorted l)) 0); [discriminate|].
    intros [= <-]. split; [|done]. intros Hnil. by rewrite Hnil in *.
  - intros (Hne & Hs' & Hp').
    assert (Path.sorted l = names) as ->.
    { apply (StronglySorted_unique Path.le); [done|done|]. by rewrite Hp. }
    destruct names; [done|reflexivity].
Qed.

(** X23.  The selection of the images raises exactly when no path has
    an image extension.  Otherwise it returns, in ascending order, exactly
    the paths with an image extension; and the result does not depend on
    the order in which [glob] lists the directory. *)
Theorem image_selection (globbed : list string) :
  (select_images globbed = None
   <-> Forall (fun f => is_image_name f = false) globbed)
  /\ (forall names,
        select_images globbed = Some names ->
        StronglySorted Path.le names
        /\ forall f, f ∈ names <-> f ∈ globbed /\ is_image_name f = true)
  /\ (forall globbed',
        globbed ≡ₚ globbed' -> select_images globbed' = select_images globbed).
Proof.
  split; [|split].
  - unfold select_images. rewrite List_filter_filter.
    set (l := filter _ globbed).
    destruct (sorted_spec l) as [_ Hp].
    destruct (Nat.eqb_spec (length (Path.sorted l)) 0) as [Hz|Hnz].
    + split; [intros _|done].
      apply nil_length_inv in Hz. rewrite Hz in Hp.
      apply Permutation_nil_l in Hp.
      apply Forall_forall. intros f Hf.
      destruct (is_image_name f) eqn:E; [|reflexivity].
      assert (f ∈ l) as Hin by (apply list_elem_of_filter; done).
      rewrite <- Hp in Hin. by apply elem_of_nil in Hin.
    + split; [discriminate|]. intros Hall. exfalso. apply Hnz.
      rewrite Hp. unfold l. rewrite filter_none; [reflexivity|].
      eapply Forall_impl; [exact Hall|]. cbn. intros f ->. discriminate.
  - intros names Hsel. apply select_images_some in Hsel as (_ & Hs & Hp).
    split; [exact Hs|]. intros f. rewrite Hp, list_elem_of_filter. tauto.
  - intros globbed' Hperm. unfold select_images.
    rewrite !List_filter_filter.
    rewrite (sorted_Permutation
               (filter (fun f => is_image_name f = true) globbed')
               (filter (fun f => is_image_name f = true) globbed));
      [reflexivity|].
    by rewrite Hperm.
Qed.

(** * Instances of the theorems on the example inputs *)

#[local] Existing Instance Examples.fraction_format.
#[local] Existing Instance Examples.identity_rotation.

Lemma cross_format_equivalence_witness :
  exists cameras images points,
    decode_cameras_txt
      (write_colmap_cameras_txt (intrinsic Examples.two_cells) 2 1)
      = Some cameras
    /\ decode_cameras_bin Examples.cameras_bin = Some cameras
    /\ decode_images_txt Examples.images_txt = Some images
    /\ decode_images_bin Examples.images_bin = Some images
    /\ decode_points3D_txt
         (write_colmap_points3D_txt Examples.merged_points) = Some points
    /\ decode_points3D_bin Examples.points_bin = Some points
    /\ cameras = cameras_of 0 (intrinsic Examples.two_cells) 2 1
    /\ mapM (image_of Examples.unit_quaternions Examples.zero_translations
               Examples.two_keypoints Examples.one_name)
         (seq 0 (length Examples.unit_quaternions)) = Some images
    /\ points = map point_of Examples.merged_points.
Proof.
  apply (cross_format_equivalence
           fraction_format_ok (intrinsic Examples.two_cells)
           Examples.unit_quaternions Examples.zero_translations
           Examples.two_keypoints Examples.one_name Examples.merged_points
           2 1).
  - repeat constructor.
  - repeat constructor.
  - repeat constructor.
  - repeat constructor.
  - repeat constructor.
  - repeat constructor.
  - vm_compute. reflexivity.
  - vm_compute. reflexivity.
  - vm_compute. reflexivity.
  - vm_compute. reflexivity.
Defined.

Lemma shared_camera_dimensions_witness :
  (exists cameras : list (Camera float),
      match Examples.text_files with
      | TextFiles cameras_txt _ _ => decode_cameras_txt cameras_txt
      | BinaryFiles cameras_bin _ _ => decode_cameras_bin cameras_bin
      end = Some cameras
      /\ length cameras = length (intrinsic Examples.two_cells)
      /\ forall c, c ∈ cameras ->
           cam_width c = Z.of_nat (depth Examples.two_cells).2
           /\ cam_height c = Z.of_nat (depth Examples.two_cells).1.2)
  /\ (exists cameras : list (Camera float),
        match Examples.binary_files with
        | TextFiles cameras_txt _ _ => decode_cameras_txt cameras_txt
        | BinaryFiles cameras_bin _ _ => decode_cameras_bin cameras_bin
        end = Some cameras
        /\ length cameras = length (intrinsic Examples.two_cells)
        /\ forall c, c ∈ cameras ->
             cam_width c = Z.of_nat (depth Examples.two_cells).2
             /\ cam_height c = Z.of_nat (depth Examples.two_cells).1.2).
Proof.
  split.
  - apply (shared_camera_dimensions fraction_format_ok Examples.text_args
             Examples.two_cells Examples.one_name).
    + repeat constructor.
    + vm_compute. reflexivity.
  - apply (shared_camera_dimensions fraction_format_ok Examples.binary_args
             Examples.two_cells Examples.one_name).
    + repeat constructor.
    + vm_compute. reflexivity.
Defined.

Example two_views_counts :
  length Examples.two_views_points = 7%nat
  /\ length Examples.two_views_points_50 = 4%nat
  /\ pt_track <$> Examples.two_views_points !! 0%nat
     = Some [(0, 0); (1, 0)]%nat.
Proof. repeat split. Qed.

(** The cutoff is a rounded product: at 10 percent of a maximum of 1 it
    is the binary64 value nearest to 0.1.  A confidence of that value
    does not exceed the cutoff, although it exceeds one tenth. *)
Example cutoff_rounding :
  conf_cutoff Examples.tenth_and_one (Fin 10) = Some Examples.tenth
  /\ Fl.ltb (Fin (1 # 10)) Examples.tenth = true
  /\ snd <$> filter_and_prepare_points Examples.tenth_and_one (Fin 10)
               Examples.no_masks 1
     = Some [[(1, 0, 0%nat)]].
Proof. vm_compute. repeat split. Qed.

Lemma two_views_doubles :
  forall v, v ∈ Np.items (depth_conf Examples.two_views) ->
            Fl.is_double v = true.
Proof.
  assert (forallb Fl.is_double (Np.items (depth_conf Examples.two_views))
          = true) as H by (vm_compute; reflexivity).
  intros v Hv. rewrite forallb_forall in H.
  apply H, list_elem_of_In, Hv.
Qed.

Lemma track_keypoint_consistency_witness :
  filter_and_prepare_points Examples.two_views (Fin 0) Examples.no_masks 2
  = Some (Examples.two_views_points, Examples.two_views_keypoints)
  /\ (forall e img k,
        e ∈ Examples.two_views_points -> (img, k) ∈ pt_track e ->
        exists kl x y,
          Examples.two_views_keypoints !! img = Some kl
          /\ kl !! k = Some (x, y, pt_id e))
  /\ (forall img kl k kp,
        Examples.two_views_keypoints !! img = Some kl -> kl !! k = Some kp ->
        length (filter (fun t => t = (img, k))
                  (all_tracks Examples.two_views_points)) = 1%nat).
Proof.
  assert (filter_and_prepare_points Examples.two_views (Fin 0)
            Examples.no_masks 2
          = Some (Examples.two_views_points, Examples.two_views_keypoints))
    as Hrun by (vm_compute; reflexivity).
  split; [exact Hrun|].
  exact (track_keypoint_consistency Examples.two_views (Fin 0)
           Examples.no_masks 2 _ _ Hrun).
Defined.

Lemma dense_ids_witness :
  filter_and_prepare_points Examples.two_views (Fin 0) Examples.no_masks 2
  = Some (Examples.two_views_points, Examples.two_views_keypoints)
  /\ pt_id <$> Examples.two_views_points
  = seq 0 (length Examples.two_views_points)
  /\ exists cutoff ss,
       conf_cutoff Examples.two_views (Fin 0) = Some cutoff
       /\ accepted_samples Examples.two_views cutoff Examples.no_masks 2
          = Some ss
       /\ forall img kl,
            Examples.two_views_keypoints !! img = Some kl ->
            (forall k, (img, k) ∈ all_tracks Examples.two_views_points
                       <-> (k < length kl)%nat)
            /\ (fun kp : keypoint => (kp.1.2, kp.1.1)) <$> kl
               = (fun s : sample => (smp_y s, smp_x s))
                   <$> filter (fun s => smp_img s = img) ss.
Proof.
  assert (filter_and_prepare_points Examples.two_views (Fin 0)
            Examples.no_masks 2
          = Some (Examples.two_views_points, Examples.two_views_keypoints))
    as Hrun by (vm_compute; reflexivity).
  split; [exact Hrun|].
  exact (dense_ids Examples.two_views (Fin 0) Examples.no_masks 2 _ _ Hrun).
Defined.


Lemma confidence_monotone_witness :
  filter_and_prepare_points Examples.two_views (Fin 0) Examples.no_masks 2
  = Some (Examples.two_views_points, Examples.two_views_keypoints)
  /\ filter_and_prepare_points Examples.two_views (Fin 50) Examples.no_masks 2
     = Some (Examples.two_views_points_50, Examples.two_views_keypoints_50)
  /\ (length Examples.two_views_points_50
      <= length Examples.two_views_points)%nat.
Proof.
  assert (filter_and_prepare_points Examples.two_views (Fin 0)
            Examples.no_masks 2
          = Some (Examples.two_views_points, Examples.two_views_keypoints))
    as Hrun by (vm_compute; reflexivity).
  assert (filter_and_prepare_points Examples.two_views (Fin 50)
            Examples.no_masks 2
          = Some (Examples.two_views_points_50,
                  Examples.two_views_keypoints_50))
    as Hrun50 by (vm_compute; reflexivity).
  split; [exact Hrun|]. split; [exact Hrun50|].
  apply (confidence_monotone Examples.two_views (Fin 0) (Fin 50)
           Examples.no_masks 2
           Examples.two_views_points Examples.two_views_points_50
           Examples.two_views_keypoints Examples.two_views_keypoints_50).
  - reflexivity.
  - left. reflexivity.
  - exact two_views_doubles.
  - exact Hrun.
  - exact Hrun50.
Defined.


(** The concrete scenario of the design document: two images, 4x4
    grids, stride 2, threshold 0, no masks.  Four samples per image are
    visited and accepted, at (0,0), (0,2), (2,0), (2,2). *)
Example two_views_positions :
  (fun kl : list keypoint => (fun kp : keypoint => (kp.1.2, kp.1.1)) <$> kl)
    <$> Examples.two_views_keypoints
  = [[(0, 0); (0, 2); (2, 0); (2, 2)]; [(0, 0); (0, 2); (2, 0); (2, 2)]].
Proof. reflexivity. Qed.

(** ** Instances of the further properties *)

Lemma two_views_well_shaped : well_shaped Examples.two_views.
Proof.
  constructor; cbn; [reflexivity|lia|lia|unfold size_ok; lia|].
  intros [|[|i]] Hi;
    [eexists; split; [reflexivity|unfold size_ok; cbn; lia]..|lia].
Qed.

Lemma two_cells_well_shaped : well_shaped Examples.two_cells.
Proof.
  constructor; cbn; [reflexivity|lia|lia|unfold size_ok; lia|].
  intros [|i] Hi; [eexists; split; [reflexivity|unfold size_ok; cbn; lia]|lia].
Qed.

Lemma two_views_run :
  filter_and_prepare_points Examples.two_views (Fin 0) Examples.no_masks 2
  = Some (Examples.two_views_points, Examples.two_views_keypoints).
Proof. vm_compute. reflexivity. Qed.

Lemma zero_stride_raises_witness :
  filter_and_prepare_points Examples.two_views (Fin 0) Examples.no_masks 0 = None.
Proof. apply (zero_stride_raises Examples.two_views). discriminate. Defined.

Lemma negative_stride_empty_witness :
  filter_and_prepare_points Examples.two_views (Fin 0) Examples.no_masks (-1)
  = Some ([], [[]; []]).
Proof.
  destruct (negative_stride_empty Examples.two_views (Fin 0) Examples.no_masks (-1))
    as [_ Hrun]; [reflexivity|].
  exact (Hrun two_views_well_shaped).
Defined.

Lemma empty_confidence_raises_witness :
  filter_and_prepare_points Examples.no_images (Fin 50) Examples.no_masks 1 = None.
Proof. apply (empty_confidence_raises Examples.no_images). left. reflexivity. Defined.

Lemma aggregation_returns_witness :
  exists pts kps,
    filter_and_prepare_points Examples.two_views (Fin 0) Examples.no_masks 2
    = Some (pts, kps).
Proof.
  apply (aggregation_returns Examples.two_views (Fin 0) Examples.no_masks 2).
  - exact two_views_well_shaped.
  - discriminate.
Defined.

Lemma full_threshold_empty_witness :
  filter_and_prepare_points Examples.two_views (Fin 100) Examples.no_masks 2
  = Some ([], [[]; []])
  /\ ([] : list (point_entry float)) = []
  /\ ([[]; []] : list (list keypoint))
     = replicate (depth Examples.two_views).1.1 [].
Proof.
  assert (filter_and_prepare_points Examples.two_views (Fin 100) Examples.no_masks 2
          = Some ([], [[]; []])) as Hrun by (vm_compute; reflexivity).
  split; [exact Hrun|].
  apply (full_threshold_empty Examples.two_views (Fin 100) Examples.no_masks 2
           (Fin 4) [] [[]; []]).
  - reflexivity.
  - vm_compute. reflexivity.
  - reflexivity.
  - vm_compute. reflexivity.
  - exact Hrun.
Defined.

Lemma observation_count_witness :
  length Examples.two_views_keypoints = (depth Examples.two_views).1.1
  /\ sum_lengths Examples.two_views_keypoints
     = sum_lengths (map pt_track Examples.two_views_points)
  /\ Forall (fun e => pt_track e <> []) Examples.two_views_points
  /\ (length Examples.two_views_points
      <= sum_lengths Examples.two_views_keypoints)%nat
  /\ exists cutoff ss,
       conf_cutoff Examples.two_views (Fin 0) = Some cutoff
       /\ accepted_samples Examples.two_views cutoff Examples.no_masks 2
          = Some ss
       /\ sum_lengths Examples.two_views_keypoints = length ss.
Proof.
  exact (observation_count Examples.two_views (Fin 0) Examples.no_masks 2 _ _
           two_views_run).
Defined.

Lemma first_sample_wins_witness :
  exists cutoff ss,
    conf_cutoff Examples.two_views (Fin 0) = Some cutoff
    /\ accepted_samples Examples.two_views cutoff Examples.no_masks 2 = Some ss
    /\ forall e, e ∈ Examples.two_views_points -> first_sample ss e.
Proof.
  exact (first_sample_wins Examples.two_views (Fin 0) Examples.no_masks 2 _ _
           two_views_run).
Defined.

Lemma points_pass_tests_witness :
  filter_and_prepare_points Examples.two_views (Fin 0) Examples.all_masks 2
  = Some (Examples.two_views_points, Examples.two_views_keypoints)
  /\ forall e, e ∈ Examples.two_views_points ->
    (exists qx qy qz, pt_xyz e = (Fin qx, Fin qy, Fin qz))
    /\ (mask_sky Examples.all_masks = true ->
        is_sky_point (pt_xyz e) (pt_rgb e) = false)
    /\ (mask_black_bg Examples.all_masks = true ->
        is_black_bg_point (pt_rgb e) 30 = false)
    /\ (mask_white_bg Examples.all_masks = true ->
        is_white_bg_point (pt_rgb e) 230 = false).
Proof.
  assert (filter_and_prepare_points Examples.two_views (Fin 0) Examples.all_masks 2
          = Some (Examples.two_views_points, Examples.two_views_keypoints))
    as Hrun by (vm_compute; reflexivity).
  split; [exact Hrun|].
  exact (points_pass_tests Examples.two_views (Fin 0) Examples.all_masks 2 _ _ Hrun).
Defined.

Lemma distinct_point_cells_witness :
  length Examples.two_views_points = 7%nat
  /\ forall p q e1 e2,
    Examples.two_views_points !! p = Some e1 ->
    Examples.two_views_points !! q = Some e2 ->
    (hash_point (pt_xyz e1) 100 = hash_point (pt_xyz e2) 100 -> p = q)
    /\ (quantized (pt_xyz e1) 100 = quantized (pt_xyz e2) 100 -> p = q).
Proof.
  split; [reflexivity|].
  exact (distinct_point_cells Examples.two_views (Fin 0) Examples.no_masks 2 _ _
           two_views_run).
Defined.

Lemma point_colour_same_pixel_witness :
  filter_and_prepare_points Examples.two_cells (Fin 0) Examples.no_masks 1
  = Some (Examples.merged_points, Examples.two_keypoints)
  /\ forall e, e ∈ Examples.merged_points ->
    exists (img : nat) (im : image) (y x : nat),
      original_images Examples.two_cells !! img = Some im
      /\ (img < (Np.shape (world_points_from_depth Examples.two_cells)).1.1
          /\ y < (Np.shape (world_points_from_depth Examples.two_cells)).1.2
          /\ x < (Np.shape (world_points_from_depth Examples.two_cells)).2)%nat
      /\ Np.item (world_points_from_depth Examples.two_cells) img y x
         = pt_xyz e
      /\ pixel im y x = pt_rgb e.
Proof.
  assert (filter_and_prepare_points Examples.two_cells (Fin 0) Examples.no_masks 1
          = Some (Examples.merged_points, Examples.two_keypoints))
    as Hrun by (vm_compute; reflexivity).
  split; [exact Hrun|].
  apply (point_colour_same_pixel Examples.two_cells (Fin 0) Examples.no_masks 1
           Examples.merged_points Examples.two_keypoints);
    [|cbn; lia|exact Hrun].
  clear Hrun. intros im Him. apply list_elem_of_singleton in Him as ->.
  split; reflexivity.
Defined.

Lemma keypoints_scan_order_witness :
  length Examples.two_views_keypoints = 2%nat
  /\ forall img kl,
    Examples.two_views_keypoints !! img = Some kl ->
    NoDup (kp_pos <$> kl)
    /\ forall positions,
         sample_positions
           (Np.shape (world_points_from_depth Examples.two_views)).1.2
           (Np.shape (world_points_from_depth Examples.two_views)).2 2
         = Some positions ->
         kp_pos <$> kl `sublist_of` positions.
Proof.
  split; [reflexivity|].
  exact (keypoints_scan_order Examples.two_views (Fin 0) Examples.no_masks 2 _ _
           two_views_run).
Defined.

Lemma mask_monotone_witness :
  length Examples.three_tones_points = 3%nat
  /\ length Examples.three_tones_points_masked = 1%nat
  /\ (length Examples.three_tones_points_masked <= length Examples.three_tones_points)%nat
  /\ forall img kl1 kl2,
       Examples.three_tones_keypoints !! img = Some kl1 ->
       Examples.three_tones_keypoints_masked !! img = Some kl2 ->
       (forall pos, pos ∈ kp_pos <$> kl2 -> pos ∈ kp_pos <$> kl1)
       /\ (length kl2 <= length kl1)%nat.
Proof.
  split; [reflexivity|]. split; [reflexivity|].
  apply (mask_monotone Examples.three_tones (Fin 0) Examples.no_masks Examples.background_masks
           1).
  - repeat split; discriminate.
  - vm_compute. reflexivity.
  - vm_compute. reflexivity.
Defined.

Lemma stride_multiple_monotone_witness :
  (length Examples.two_views_points_4 <= length Examples.two_views_points)%nat
  /\ forall img kl1 kl2,
       Examples.two_views_keypoints !! img = Some kl1 ->
       Examples.two_views_keypoints_4 !! img = Some kl2 ->
       (forall pos, pos ∈ kp_pos <$> kl2 -> pos ∈ kp_pos <$> kl1)
       /\ (length kl2 <= length kl1)%nat.
Proof.
  apply (stride_multiple_monotone Examples.two_views (Fin 0) Examples.no_masks 2 2).
  - lia.
  - lia.
  - exact two_views_run.
  - vm_compute. reflexivity.
Defined.

Lemma white_bg_channels_witness :
  210 <= Np.to_Z (Np.uint8 255) /\ 210 <= Np.to_Z (Np.uint8 250)
  /\ 210 <= Np.to_Z (Np.uint8 240)
  /\ is_black_bg_point (Np.uint8 255, Np.uint8 250, Np.uint8 240) 30 = false.
Proof.
  apply (white_bg_channels (Np.uint8 255) (Np.uint8 250) (Np.uint8 240)).
  reflexivity.
Defined.

Lemma cameras_bin_size_witness :
  length Examples.cameras_bin
  = (8 + 56 * length (intrinsic Examples.two_cells))%nat.
Proof.
  apply (cameras_bin_size fraction_format_ok (intrinsic Examples.two_cells)
           2 1).
  vm_compute. reflexivity.
Defined.

Lemma image_record_size_witness :
  length Examples.image_record_bin
  = (76 + String.length (Fmt.basename "/data/a b.png") + 24 * 2)%nat.
Proof.
  apply (image_record_size fraction_format_ok Examples.unit_quaternions
           Examples.zero_translations Examples.two_keypoints
           Examples.one_name 0 "/data/a b.png"
           [(0, 0, 0%nat); (1, 0, 0%nat)]).
  - reflexivity.
  - reflexivity.
  - vm_compute. reflexivity.
Defined.

Lemma points3D_bin_size_witness :
  length Examples.points_bin
  = (8 + 51 * length Examples.merged_points
     + 8 * sum_lengths (map pt_track Examples.merged_points))%nat.
Proof.
  apply (points3D_bin_size fraction_format_ok Examples.merged_points).
  vm_compute. reflexivity.
Defined.

Lemma main_text_defined_witness :
  is_Some (main Examples.text_args Examples.two_cells Examples.one_name)
  <-> is_Some (filter_and_prepare_points Examples.two_cells
                 (arg_conf_threshold Examples.text_args)
                 (arg_masks Examples.text_args)
                 (arg_stride Examples.text_args))
      /\ (length (extrinsic Examples.two_cells) <= length Examples.one_name)%nat
      /\ (length (extrinsic Examples.two_cells)
          <= (depth Examples.two_cells).1.1)%nat.
Proof.
  apply (main_text_defined Examples.text_args Examples.two_cells
           Examples.one_name).
  reflexivity.
Defined.

Lemma main_binary_returns_witness :
  exists cameras images points,
    main Examples.binary_args Examples.two_cells Examples.one_name
    = Some (BinaryFiles cameras images points).
Proof.
  apply (main_binary_returns Examples.binary_args Examples.two_cells
           Examples.one_name).
  - reflexivity.
  - exact two_cells_well_shaped.
  - discriminate.
  - cbn. lia.
  - cbn. lia.
  - reflexivity.
  - reflexivity.
  - reflexivity.
  - reflexivity.
  - reflexivity.
  - repeat constructor.
Defined.

Lemma main_basename_only_witness :
  main Examples.text_args Examples.two_cells ["/data/a b.png"%string]
  = main Examples.text_args Examples.two_cells ["a b.png"%string].
Proof.
  apply (main_basename_only Examples.text_args Examples.two_cells).
  reflexivity.
Defined.

Lemma image_selection_witness :
  select_images Examples.globbed
  = Some ["d/.png"; "d/B.Jpeg"; "d/a.jpg"; "d/b.PNG"]%string
  /\ select_images (rev Examples.globbed) = select_images Examples.globbed.
Proof.
  split; [vm_compute; reflexivity|].
  destruct (image_selection Examples.globbed) as (_ & _ & Horder).
  apply Horder. apply Permutation_rev.
Defined.

Lemma nan_confidence_empty_witness :
  filter_and_prepare_points Examples.nan_confidence (Fin 0) Examples.no_masks 1
  = Some ([], [[]])
  /\ ([] : list (point_entry float)) = []
  /\ ([[]] : list (list keypoint))
     = replicate (depth Examples.nan_confidence).1.1 [].
Proof.
  assert (filter_and_prepare_points Examples.nan_confidence (Fin 0)
            Examples.no_masks 1 = Some ([], [[]])) as Hrun
    by (vm_compute; reflexivity).
  split; [exact Hrun|].
  apply (nan_confidence_empty Examples.nan_confidence (Fin 0)
           Examples.no_masks 1 [] [[]]); [|exact Hrun].
  right. exists NaN. split; [|reflexivity].
  apply elem_of_items. exists 0%nat, 0%nat, 0%nat. split; [cbn; lia|reflexivity].
Defined.

Lemma dedup_by_hash_witness :
  filter_and_prepare_points Examples.two_views (Fin 0) Examples.no_masks 2
  = Some (Examples.two_views_points, Examples.two_views_keypoints)
  /\ exists cutoff ss,
       conf_cutoff Examples.two_views (Fin 0) = Some cutoff
       /\ accepted_samples Examples.two_views cutoff Examples.no_masks 2
          = Some ss
       /\ (forall s, s ∈ ss ->
             exists id, assigned ss Examples.two_views_keypoints s id)
       /\ forall s1 s2 id1 id2,
            assigned ss Examples.two_views_keypoints s1 id1 ->
            assigned ss Examples.two_views_keypoints s2 id2 ->
            (forall t, rounded_triple (smp_point s1) = Some t ->
                       rounded_triple (smp_point s2) = Some t -> id1 = id2)
            /\ (id1 = id2 <->
                hash_point (smp_point s1) 100 = hash_point (smp_point s2) 100).
Proof.
  split; [exact two_views_run|].
  exact (dedup_by_hash Examples.two_views (Fin 0) Examples.no_masks 2 _ _
           two_views_run).
Defined.
